(** * EditML (verkaro/editml-go): parser and Clean View transformer

  A shallow embedding of [parser/parser.go], [parser/comments.go],
  [model/*.go], [transformer/transformer.go] and [api.go], and the
  properties of the comment-removal, matching, overlap-resolution,
  escape-decoding and structural-resolution stages.

  Go strings are byte sequences: they are modelled as [list ascii], slices
  [s[a:b]] as [slice s a b], Go [int] offsets as [nat] (offsets are never
  negative and never leave the string). *)

From Stdlib Require Import Strings.Ascii Strings.String.
From stdpp Require Import base list gmap strings sorting.

Local Open Scope nat_scope.
Local Open Scope list_scope.

Abbreviation str := (list ascii).

(** A Go string literal. *)
Definition lit (s : string) : str := list_ascii_of_string s.

(* ================================================================== *)
(** ** Go's [strings] package, as far as the program uses it *)
(* ================================================================== *)

Module gostrings.

(** [s[a:b]] *)
Definition slice (s : str) (a b : nat) : str := take (b - a) (drop a s).

(** [strings.HasPrefix(s, prefix)] *)
Fixpoint HasPrefix (s prefix : str) : bool :=
  match prefix, s with
  | [], _ => true
  | p :: prefix', c :: s' => Ascii.eqb p c && HasPrefix s' prefix'
  | _ :: _, [] => false
  end.

(** [strings.Contains(s, substr)] *)
Fixpoint Contains (s substr : str) : bool :=
  HasPrefix s substr ||
  match s with
  | [] => false
  | _ :: s' => Contains s' substr
  end.

(** The scan of [strings.ReplaceAll]: left to right, non-overlapping; after
    an occurrence of [old] is replaced, its remaining [skip] bytes are
    passed over without being looked at again. *)
Fixpoint replaceFrom (old new : str) (skip : nat) (s : str) : str :=
  match s with
  | [] => []
  | c :: s' =>
      match skip with
      | S k => replaceFrom old new k s'
      | O =>
          if HasPrefix s old
          then new ++ replaceFrom old new (length old - 1) s'
          else c :: replaceFrom old new 0 s'
      end
  end.

(** [strings.ReplaceAll(s, old, new)], for the non-empty [old] of every
    call in the program. *)
Definition ReplaceAll (s old new : str) : str := replaceFrom old new 0 s.

End gostrings.

(* ================================================================== *)
(** ** package model *)
(* ================================================================== *)

Module model.

(** [type EditType string] and its constants. *)
Definition EditTypeAddition : str := lit "addition".
Definition EditTypeDeletion : str := lit "deletion".
Definition EditTypeComment : str := lit "comment".
Definition EditTypeHighlight : str := lit "highlight".

(** Structural operations are plain Go strings. *)
Definition OperationMove : str := lit "move".
Definition OperationCopy : str := lit "copy".

Arguments EditTypeAddition : simpl never.
Arguments EditTypeDeletion : simpl never.
Arguments EditTypeComment : simpl never.
Arguments EditTypeHighlight : simpl never.
Arguments OperationMove : simpl never.
Arguments OperationCopy : simpl never.

(** The four implementations of the [Node] interface. *)
Inductive Node : Type :=
| TextNode (Text : str)
| InlineEditNode (EditType : str) (Content : str) (EditorID : str)
| StructuralSourceNode (Operation : str) (Tag : str) (BlockContent : str)
| StructuralTargetNode (Operation : str) (Tag : str).

End model.

(* ================================================================== *)
(** ** Go's [regexp] package on the eight patterns of the parser

  Go's [regexp] is leftmost-first: among the matches that start at the
  leftmost possible offset it returns the one a backtracking matcher
  finds first.  Each matcher below tries its pattern at the head of a
  string, in that order of preference. *)
(* ================================================================== *)

Module regex.
Import gostrings.

(** [[a-zA-Z0-9]] *)
Definition isAlnum (c : ascii) : bool :=
  let n := nat_of_ascii c in
  ((48 <=? n) && (n <=? 57)) || ((65 <=? n) && (n <=? 90)) ||
  ((97 <=? n) && (n <=? 122)).

(** Number of leading alphanumeric bytes. *)
Fixpoint alnumRun (s : str) : nat :=
  match s with
  | c :: s' => if isAlnum c then S (alnumRun s') else 0
  | [] => 0
  end.

(** [([a-zA-Z0-9]{1,5})] followed by [\}], greedy: the longest id of at
    most [k] bytes first, then shorter ones. *)
Fixpoint tryEditorID (k : nat) (s : str) : option nat :=
  match k with
  | O => None
  | S k' =>
      if (k <=? alnumRun s) && HasPrefix (drop k s) (lit "}")
      then Some k
      else tryEditorID k' s
  end.

(** [(?:([a-zA-Z0-9]{1,5}))?\}]: the optional group is greedy, so the id
    is tried before the bare closing brace.  [Some (Some k)]: id of [k]
    bytes; [Some None]: the group did not take part. *)
Definition editorIDTrailer (s : str) : option (option nat) :=
  match tryEditorID 5 s with
  | Some k => Some (Some k)
  | None => if HasPrefix s (lit "}") then Some None else None
  end.

(** [([a-zA-Z0-9]+)\}]: the greedy run must be followed by the brace, and
    no shorter run can be (the byte after it is alphanumeric). *)
Definition tagTrailer (s : str) : option nat :=
  let k := alnumRun s in
  if (1 <=? k) && HasPrefix (drop k s) (lit "}") then Some k else None.

(** [((?s).*?)] followed by the rest of the pattern [close]: the shortest
    content after which [close] matches; any byte, newlines included, may
    be content. *)
Fixpoint lazyUntil {A} (close : str -> option A) (s : str) : option (nat * A) :=
  match close s with
  | Some a => Some (0, a)
  | None =>
      match s with
      | [] => None
      | _ :: s' =>
          match lazyUntil close s' with
          | Some (n, a) => Some (S n, a)
          | None => None
          end
      end
  end.

(** The closing operator [cl], then [(?:([a-zA-Z0-9]{1,5}))?\}]. *)
Definition closeInline (cl : ascii) (s : str) : option (option nat) :=
  match s with
  | c :: r => if Ascii.eqb c cl then editorIDTrailer r else None
  | [] => None
  end.

(** [~([a-zA-Z0-9]+)\}] *)
Definition closeSource (s : str) : option nat :=
  match s with
  | c :: r => if Ascii.eqb c "~" then tagTrailer r else None
  | [] => None
  end.

(** What a match of an inline pattern captured, relative to its start:
    the length of group 1 (content) and of group 2 (editor id), when it
    took part. *)
Record inlineGroups := { contentLen : nat; editorLen : option nat }.

(** [\{ op ((?s).*?) cl (?:([a-zA-Z0-9]{1,5}))?\}] at the head of [s]:
    the length of the match and its groups. *)
Definition matchInline (op cl : ascii) (s : str) : option (nat * inlineGroups) :=
  match s with
  | b :: o :: r =>
      if Ascii.eqb b "{" && Ascii.eqb o op then
        match lazyUntil (closeInline cl) r with
        | Some (n, e) =>
            Some (2 + n + 1 + default 0 e + 1,
                  {| contentLen := n; editorLen := e |})
        | None => None
        end
      else None
  | _ => None
  end.

(** [(kw|k2|k1)]: the alternatives in the order of the pattern; the
    length of the first one that is a prefix of [s]. *)
Fixpoint keyword (alts : list str) (s : str) : list nat :=
  match alts with
  | [] => []
  | a :: alts' =>
      (if HasPrefix s a then [length a] else []) ++ keyword alts' s
  end.

(** Groups of a structural match, relative to its start: the lengths of
    the keyword, of the block content (sources only) and of the tag. *)
Record structGroups := { keywordLen : nat; blockLen : nat; tagLen : nat }.

(** The first success of [k] over the candidates, in order. *)
Fixpoint firstSome {A B} (k : A -> option B) (l : list A) : option B :=
  match l with
  | [] => None
  | a :: l' => match k a with Some b => Some b | None => firstSome k l' end
  end.

(** [\{(alts)~((?s).*?)~([a-zA-Z0-9]+)\}] at the head of [s]. *)
Definition matchSource (alts : list str) (s : str) : option (nat * structGroups) :=
  match s with
  | b :: r =>
      if Ascii.eqb b "{" then
        firstSome (fun kw =>
          match drop kw r with
          | t :: r' =>
              if Ascii.eqb t "~" then
                match lazyUntil closeSource r' with
                | Some (n, tg) =>
                    Some (1 + kw + 1 + n + 1 + tg + 1,
                          {| keywordLen := kw; blockLen := n; tagLen := tg |})
                | None => None
                end
              else None
          | [] => None
          end) (keyword alts r)
      else None
  | [] => None
  end.

(** [\{(alts):([a-zA-Z0-9]+)\}] at the head of [s]. *)
Definition matchTarget (alts : list str) (s : str) : option (nat * structGroups) :=
  match s with
  | b :: r =>
      if Ascii.eqb b "{" then
        firstSome (fun kw =>
          match drop kw r with
          | t :: r' =>
              if Ascii.eqb t ":" then
                match tagTrailer r' with
                | Some tg =>
                    Some (1 + kw + 1 + tg + 1,
                          {| keywordLen := kw; blockLen := 0; tagLen := tg |})
                | None => None
                end
              else None
          | [] => None
          end) (keyword alts r)
      else None
  | [] => None
  end.

(** [FindAllStringSubmatchIndex(input, -1)] for a pattern that matches no
    empty string: the leftmost match at or after the current offset, then
    the search resumes at its end.  [pos] is the offset of [s] in the
    input, [skip] the number of bytes of the last match still to pass.
    Each result is the start offset, the end offset and the groups. *)
Fixpoint findAllFrom {A} (matchAt : str -> option (nat * A))
    (pos skip : nat) (s : str) : list (nat * nat * A) :=
  match s with
  | [] => []
  | _ :: s' =>
      match skip with
      | S k => findAllFrom matchAt (S pos) k s'
      | O =>
          match matchAt s with
          | Some (len, g) =>
              (pos, pos + len, g) :: findAllFrom matchAt (S pos) (len - 1) s'
          | None => findAllFrom matchAt (S pos) 0 s'
          end
      end
  end.

Definition FindAll {A} (matchAt : str -> option (nat * A)) (input : str) :=
  findAllFrom matchAt 0 0 input.

Definition moveKeywords : list str := [lit "move"; lit "mv"; lit "m"].
Definition copyKeywords : list str := [lit "copy"; lit "cp"; lit "c"].

Definition addRegex := matchInline "+" "+".
Definition delRegex := matchInline "-" "-".
Definition commentRegex := matchInline ">" "<".
Definition highlightRegex := matchInline "=" "=".
Definition moveSourceRegex := matchSource moveKeywords.
Definition moveTargetRegex := matchTarget moveKeywords.
Definition copySourceRegex := matchSource copyKeywords.
Definition copyTargetRegex := matchTarget copyKeywords.

End regex.

(* ================================================================== *)
(** ** package parser *)
(* ================================================================== *)

Module parser.
Import gostrings model regex.

Definition str_eqb (a b : str) : bool := bool_decide (a = b).
Arguments str_eqb : simpl never.

(** [unescapeInlineContent]: three general passes, then the pass of the
    edit type's closing operator. *)
Definition unescapeInlineContent (content : str) (editType : str) : str :=
  let content := ReplaceAll content (lit "\\") (lit "\") in
  let content := ReplaceAll content (lit "\{") (lit "{") in
  let content := ReplaceAll content (lit "\}") (lit "}") in
  if str_eqb editType EditTypeAddition then ReplaceAll content (lit "\+") (lit "+")
  else if str_eqb editType EditTypeDeletion then ReplaceAll content (lit "\-") (lit "-")
  else if str_eqb editType EditTypeComment then ReplaceAll content (lit "\<") (lit "<")
  else if str_eqb editType EditTypeHighlight then ReplaceAll content (lit "\=") (lit "=")
  else content.

(** [unescapeStructuralBlockContent]: backslashes, then tildes. *)
Definition unescapeStructuralBlockContent (content : str) : str :=
  let content := ReplaceAll content (lit "\\") (lit "\") in
  let content := ReplaceAll content (lit "\~") (lit "~") in
  content.

(** [genericMatch]: a construct found in the input, with its span. *)
Record genericMatch := {
  startIndex : nat;
  endIndex : nat;
  node : Node;
}.

(** Steps 1-4: a match [m] of an inline pattern; [m[2]:m[3]] is the
    content, [m[4]:m[5]] the editor id, absent when the group did not
    take part. *)
Definition inlineMatch (input : str) (editType : str)
    (m : nat * nat * inlineGroups) : genericMatch :=
  let '(m0, m1, g) := m in
  let m2 := m0 + 2 in
  let m3 := m2 + contentLen g in
  let content := slice input m2 m3 in
  let editorID :=
    match editorLen g with
    | Some k => slice input (m3 + 1) (m3 + 1 + k)
    | None => []
    end in
  {| startIndex := m0; endIndex := m1;
     node := InlineEditNode editType
               (unescapeInlineContent content editType) editorID |}.

(** Steps 5 and 7: [m[2]:m[3]] is the keyword, [m[4]:m[5]] the block
    content, [m[6]:m[7]] the tag; the operation is normalized. *)
Definition sourceMatch (input : str) (operation : str)
    (m : nat * nat * structGroups) : genericMatch :=
  let '(m0, m1, g) := m in
  let m4 := m0 + 1 + keywordLen g + 1 in
  let m5 := m4 + blockLen g in
  let rawBlockContent := slice input m4 m5 in
  {| startIndex := m0; endIndex := m1;
     node := StructuralSourceNode operation
               (slice input (m5 + 1) (m5 + 1 + tagLen g))
               (unescapeStructuralBlockContent rawBlockContent) |}.

(** Steps 6 and 8: [m[4]:m[5]] is the tag. *)
Definition targetMatch (input : str) (operation : str)
    (m : nat * nat * structGroups) : genericMatch :=
  let '(m0, m1, g) := m in
  let m4 := m0 + 1 + keywordLen g + 1 in
  {| startIndex := m0; endIndex := m1;
     node := StructuralTargetNode operation
               (slice input m4 (m4 + tagLen g)) |}.

(** Steps 1-8: the candidates, in the order they are appended. *)
Definition allMatches (input : str) : list genericMatch :=
  map (inlineMatch input EditTypeAddition) (FindAll addRegex input) ++
  map (inlineMatch input EditTypeDeletion) (FindAll delRegex input) ++
  map (inlineMatch input EditTypeComment) (FindAll commentRegex input) ++
  map (inlineMatch input EditTypeHighlight) (FindAll highlightRegex input) ++
  map (sourceMatch input OperationMove) (FindAll moveSourceRegex input) ++
  map (targetMatch input OperationMove) (FindAll moveTargetRegex input) ++
  map (sourceMatch input OperationCopy) (FindAll copySourceRegex input) ++
  map (targetMatch input OperationCopy) (FindAll copyTargetRegex input).

(** Step 9: the [less] function given to [sort.Slice]. *)
Definition less (a b : genericMatch) : bool :=
  if startIndex a =? startIndex b
  then endIndex b <? endIndex a
  else startIndex a <? startIndex b.

(** [sort.Slice] as an insertion sort.  Go's sort is not stable; it may
    order two candidates differently only when neither is [less] than the
    other, and no two candidates of one input are such a pair
    ([sortSlice_unique] below). *)
Fixpoint insertMatch (x : genericMatch) (l : list genericMatch) : list genericMatch :=
  match l with
  | [] => [x]
  | y :: l' => if less y x then y :: insertMatch x l' else x :: l
  end.

Definition sortSlice (l : list genericMatch) : list genericMatch :=
  foldr insertMatch [] l.

(** Step 10, the body of the loop over the sorted matches: the state is
    [nodes] and [lastIndex]. *)
Definition interleaveStep (input : str) (st : list Node * nat)
    (m : genericMatch) : list Node * nat :=
  let '(nodes, lastIndex) := st in
  if startIndex m <? lastIndex then st
  else
    let nodes :=
      if lastIndex <? startIndex m
      then nodes ++ [TextNode (slice input lastIndex (startIndex m))]
      else nodes in
    (nodes ++ [node m], endIndex m).

(** Step 10 and the remaining text. *)
Definition interleave (input : str) (sorted : list genericMatch) : list Node :=
  let '(nodes, lastIndex) := fold_left (interleaveStep input) sorted ([], 0) in
  if lastIndex <? length input
  then nodes ++ [TextNode (slice input lastIndex (length input))]
  else nodes.

(** Go's [error]; the parser never sets one ([issues] stays empty). *)
Inductive parseError : Type := ParseIssue (msg : str).

(** [ParseEditMLToNodes] *)
Definition ParseEditMLToNodes (input : str) : list Node * option parseError :=
  let nodes := interleave input (sortSlice (allMatches input)) in
  (nodes, None).

End parser.

(* ================================================================== *)
(** ** package transformer *)
(* ================================================================== *)

Module transformer.
Import gostrings model parser.

(** The two errors [TransformToCleanView] returns:
    ["structural conflict: duplicate source tag %q"] and
    ["structural conflict: multiple move targets for tag %q"]. *)
Inductive transformError : Type :=
| DuplicateSourceTag (tag : str)
| MultipleMoveTargets (tag : str).

(** [sourceDetail]; the first three fields are those of its [node]. *)
Record sourceDetail := {
  sdOperation : str;
  sdTag : str;
  sdBlockContent : str;
  transformedBlock : str;
  isUsedAsMove : bool;
}.

(** [targetDetail], the fields of its [node]. *)
Record targetDetail := {
  tdOperation : str;
  tdTag : str;
}.

(** The three maps of the pre-scan. *)
Record scan := {
  allSources : gmap str sourceDetail;
  allTargets : gmap str (list targetDetail);
  moveTargetCounts : gmap str nat;
}.

Definition emptyScan : scan :=
  {| allSources := ∅; allTargets := ∅; moveTargetCounts := ∅ |}.

(** Reading a Go map at a missing key gives the zero value. *)
Definition targetsOf (sc : scan) (tag : str) : list targetDetail :=
  default [] (allTargets sc !! tag).
Definition moveCount (sc : scan) (tag : str) : nat :=
  default 0 (moveTargetCounts sc !! tag).

(** One iteration of a loop whose body may return from the function; the
    recursive call may also have run out of fuel. *)
Inductive flow (A : Type) : Type :=
| Continue (a : A)
| Return (out : str) (err : transformError)
| OutOfFuel.
Arguments Continue {A} a.
Arguments Return {A} out err.
Arguments OutOfFuel {A}.

(** ["{%s~%s (ERROR_...)~%s}"] *)
Definition blockError (operation blockContent marker tag : str) : str :=
  lit "{" ++ operation ++ lit "~" ++ blockContent ++ marker ++ lit "~" ++ tag ++ lit "}".

(** ["{%s~%s~%s}"] *)
Definition sourceLiteral (operation blockContent tag : str) : str :=
  lit "{" ++ operation ++ lit "~" ++ blockContent ++ lit "~" ++ tag ++ lit "}".

(** ["{%s:%s}"] *)
Definition targetLiteral (operation tag : str) : str :=
  lit "{" ++ operation ++ lit ":" ++ tag ++ lit "}".

(** ["{%s:%s (ERROR_OPERATION_MISMATCH_WITH_SOURCE %s)}"] *)
Definition mismatchMarker (operation tag sourceOperation : str) : str :=
  lit "{" ++ operation ++ lit ":" ++ tag ++
  lit " (ERROR_OPERATION_MISMATCH_WITH_SOURCE " ++ sourceOperation ++ lit ")}".

(** ["{%s~%s~%s (ERROR_SOURCE_NOT_FOUND_IN_MAP)}"] *)
Definition notFoundMarker (operation blockContent tag : str) : str :=
  lit "{" ++ operation ++ lit "~" ++ blockContent ++ lit "~" ++ tag ++
  lit " (ERROR_SOURCE_NOT_FOUND_IN_MAP)}".

Section body.
(** The recursive call of [TransformToCleanView]; [None] when it ran
    out of fuel. *)
Variable rec : list Node -> option (str * option transformError).

(** The pre-transformed content of a source block. *)
Definition transformBlock (operation tag blockContent : str) : option str :=
  let '(subParserNodes, parseErr) := ParseEditMLToNodes blockContent in
  match parseErr with
  | Some _ =>
      Some (blockError operation blockContent (lit " (ERROR_PARSING_CONTENT)") tag)
  | None =>
      match rec subParserNodes with
      | None => None
      | Some (blockStr, Some _) =>
          Some (blockError operation blockContent
                  (lit " (ERROR_TRANSFORMING_CONTENT)") tag)
      | Some (blockStr, None) => Some blockStr
      end
  end.

(** Step 1, the body of the first loop. *)
Definition prescanStep (sc : scan) (n : Node) : flow scan :=
  match n with
  | StructuralSourceNode operation tag blockContent =>
      match allSources sc !! tag with
      | Some _ => Return [] (DuplicateSourceTag tag)
      | None =>
          match transformBlock operation tag blockContent with
          | None => OutOfFuel
          | Some block =>
              Continue
                {| allSources :=
                     <[tag := {| sdOperation := operation; sdTag := tag;
                                 sdBlockContent := blockContent;
                                 transformedBlock := block;
                                 isUsedAsMove := false |}]> (allSources sc);
                   allTargets := allTargets sc;
                   moveTargetCounts := moveTargetCounts sc |}
          end
      end
  | StructuralTargetNode operation tag =>
      let targets :=
        <[tag := targetsOf sc tag ++ [{| tdOperation := operation; tdTag := tag |}]]>
          (allTargets sc) in
      if str_eqb operation OperationMove then
        let counts := <[tag := moveCount sc tag + 1]> (moveTargetCounts sc) in
        if 1 <? moveCount sc tag + 1
        then Return [] (MultipleMoveTargets tag)
        else Continue {| allSources := allSources sc; allTargets := targets;
                         moveTargetCounts := counts |}
      else Continue {| allSources := allSources sc; allTargets := targets;
                       moveTargetCounts := moveTargetCounts sc |}
  | _ => Continue sc
  end.

(** Step 1, the first loop. *)
Fixpoint prescan (sc : scan) (nodes : list Node) : flow scan :=
  match nodes with
  | [] => Continue sc
  | n :: rest =>
      match prescanStep sc n with
      | Continue sc' => prescan sc' rest
      | Return out err => Return out err
      | OutOfFuel => OutOfFuel
      end
  end.
End body.

(** The loop that marks the move sources with a target: every entry of
    [allSources] is visited once, and only its own flag changes. *)
Definition markUsed (sc : scan) (tag : str) (sd : sourceDetail) : sourceDetail :=
  if str_eqb (sdOperation sd) OperationMove then
    match allTargets sc !! tag with
    | Some targets =>
        if 0 <? length targets then
          let isMoveTargetForThisSource :=
            existsb (fun t => str_eqb (tdOperation t) OperationMove) targets in
          if isMoveTargetForThisSource && (moveCount sc tag =? 1)
          then {| sdOperation := sdOperation sd; sdTag := sdTag sd;
                  sdBlockContent := sdBlockContent sd;
                  transformedBlock := transformedBlock sd;
                  isUsedAsMove := true |}
          else sd
        else sd
    | None => sd
    end
  else sd.

Definition markMoves (sc : scan) : scan :=
  {| allSources := map_imap (fun tag sd => Some (markUsed sc tag sd)) (allSources sc);
     allTargets := allTargets sc;
     moveTargetCounts := moveTargetCounts sc |}.

Definition hasError (block : str) : bool := Contains block (lit "(ERROR_").

(** Step 2, what one node writes to the string builder. *)
Definition renderNode (sc : scan) (n : Node) : str :=
  match n with
  | TextNode text => text
  | InlineEditNode editType content _ =>
      if str_eqb editType EditTypeAddition then content
      else if str_eqb editType EditTypeDeletion then []
      else if str_eqb editType EditTypeComment then []
      else if str_eqb editType EditTypeHighlight then content
      else []
  | StructuralSourceNode operation tag blockContent =>
      match allSources sc !! tag with
      | None => notFoundMarker operation blockContent tag
      | Some srcDetail =>
          if str_eqb operation OperationMove then
            if negb (isUsedAsMove srcDetail) then
              if hasError (transformedBlock srcDetail)
              then transformedBlock srcDetail
              else sourceLiteral operation blockContent tag
            else []
          else if str_eqb operation OperationCopy then
            let isValidCopyOperation :=
              match allTargets sc !! tag with
              | Some targetsForThisCopy =>
                  existsb (fun t => str_eqb (tdOperation t) OperationCopy)
                    targetsForThisCopy
              | None => false
              end in
            if negb isValidCopyOperation || hasError (transformedBlock srcDetail) then
              if hasError (transformedBlock srcDetail)
              then transformedBlock srcDetail
              else sourceLiteral operation blockContent tag
            else transformedBlock srcDetail
          else []
      end
  | StructuralTargetNode operation tag =>
      match allSources sc !! tag with
      | None => targetLiteral operation tag
      | Some srcDetail =>
          if negb (str_eqb operation (sdOperation srcDetail)) then
            mismatchMarker operation tag (sdOperation srcDetail)
          else if hasError (transformedBlock srcDetail) then
            transformedBlock srcDetail
          else if str_eqb operation OperationMove then
            if isUsedAsMove srcDetail
            then transformedBlock srcDetail
            else targetLiteral operation tag
          else if str_eqb operation OperationCopy then
            transformedBlock srcDetail
          else []
      end
  end.

(** Step 2, the second loop over the string builder. *)
Definition render (sc : scan) (nodes : list Node) : str :=
  fold_left (fun sb n => sb ++ renderNode sc n) nodes [].

(** The body of [TransformToCleanView], over its recursive call. *)
Definition transformBody (rec : list Node -> option (str * option transformError))
    (nodes : list Node) : option (str * option transformError) :=
  match prescan rec emptyScan nodes with
  | OutOfFuel => None
  | Return out err => Some (out, Some err)
  | Continue sc => Some (render (markMoves sc) nodes, None)
  end.

(** [TransformToCleanView] with a bound on the depth of its recursion. *)
Fixpoint TransformFuel (fuel : nat) (nodes : list Node)
    : option (str * option transformError) :=
  match fuel with
  | O => None
  | S fuel' => transformBody (TransformFuel fuel') nodes
  end.

(** A source block takes one level of recursion more than its content
    has bytes, at most. *)
Definition blockDepth (n : Node) : nat :=
  match n with
  | StructuralSourceNode _ _ blockContent => S (length blockContent)
  | _ => 0
  end.

Definition depthBound (nodes : list Node) : nat :=
  foldr Nat.max 0 (map blockDepth nodes).

(** [TransformToCleanView]: the recursion is given the depth it can need
    ([TransformFuel_total] below). *)
Definition TransformToCleanView (nodes : list Node) : str * option transformError :=
  default ([], None) (TransformFuel (S (depthBound nodes)) nodes).

End transformer.

(* ================================================================== *)
(** ** package editml (api.go) *)
(* ================================================================== *)

Module editml.
Import gostrings model parser transformer.

Inductive IssueSeverity : Type := SeverityError | SeverityWarning.

(** The message is ["Transformation error: %v"] of the error. *)
Record Issue := {
  Message : transformError;
  Line : nat;
  Column : nat;
  Severity : IssueSeverity;
}.

(** [TransformCleanView] *)
Definition TransformCleanView (nodes : list Node) : str * list Issue :=
  let '(transformedText, err) := TransformToCleanView nodes in
  match err with
  | Some e =>
      (transformedText,
       [{| Message := e; Line := 0; Column := 0; Severity := SeverityError |}])
  | None => (transformedText, [])
  end.

End editml.

(* ================================================================== *)
(** ** Specification: the notions the properties are stated with *)
(* ================================================================== *)

Module spec.
Import gostrings model regex parser transformer editml.

(** What the matching stage guarantees of a candidate. *)
Definition candidateOk (input : str) (m : genericMatch) : Prop :=
  startIndex m < endIndex m /\ endIndex m <= length input /\
  blockDepth (node m) <= length input /\
  match node m with
  | TextNode _ => False
  | InlineEditNode _ _ editorID => length editorID <= 5
  | _ => True
  end.

(** The order of step 9: start offsets ascending, the longer span first
    among equal starts. *)
Definition before (a b : genericMatch) : Prop :=
  startIndex a < startIndex b \/
  (startIndex a = startIndex b /\ endIndex b <= endIndex a).

(** The overlap resolver in the words of the specification: walk the
    sorted candidates with a cursor. *)
Fixpoint merge (input : str) (cursor : nat) (candidates : list genericMatch)
    : list Node :=
  match candidates with
  | [] =>
      if cursor <? length input
      then [TextNode (slice input cursor (length input))]
      else []
  | c :: rest =>
      if startIndex c <? cursor then merge input cursor rest
      else
        (if cursor <? startIndex c
         then [TextNode (slice input cursor (startIndex c))]
         else []) ++ node c :: merge input (endIndex c) rest
  end.

(** The original literal form of a parsed node: the text of a [Text]
    node, the source span of a markup node. *)
Definition literalOf (input : str) (candidates : list genericMatch)
    (n : Node) (form : str) : Prop :=
  match n with
  | TextNode text => form = text
  | _ => exists m, m ∈ candidates /\ node m = n /\
                   form = slice input (startIndex m) (endIndex m)
  end.

Abbreviation recursion := (list Node -> option (str * option transformError)).

(** Two recursive calls agree on the content of the node's block. *)
Definition agreeOn (rec rec' : recursion) (n : Node) : Prop :=
  match n with
  | StructuralSourceNode _ _ blockContent =>
      rec (ParseEditMLToNodes blockContent).1 =
      rec' (ParseEditMLToNodes blockContent).1
  | _ => True
  end.

(** The recursive call returns on the content of the node's block. *)
Definition returnsOn (rec : recursion) (n : Node) : Prop :=
  match n with
  | StructuralSourceNode _ _ blockContent =>
      is_Some (rec (ParseEditMLToNodes blockContent).1)
  | _ => True
  end.

(** The recursive call, once it is known to return. *)
Definition selfCall : list Node -> option (str * option transformError) :=
  fun ns => Some (TransformToCleanView ns).

(** The scan the render pass of [TransformToCleanView nodes] reads. *)
Definition scanOf (nodes : list Node) : scan :=
  match prescan selfCall emptyScan nodes with
  | Continue sc => markMoves sc
  | _ => emptyScan
  end.

(** The rendered form of a source block: its content parsed and
    transformed, or the error marker when that transformation fails. *)
Definition renderedBlock (operation tag blockContent : str) : str :=
  match TransformToCleanView (ParseEditMLToNodes blockContent).1 with
  | (blockStr, None) => blockStr
  | (_, Some _) =>
      blockError operation blockContent (lit " (ERROR_TRANSFORMING_CONTENT)") tag
  end.

(** Two source nodes with one tag, whatever their operations. *)
Definition hasDuplicateSource (nodes : list Node) : Prop :=
  exists l1 l2 l3 op1 op2 tag c1 c2,
    nodes = l1 ++ StructuralSourceNode op1 tag c1 ::
            l2 ++ StructuralSourceNode op2 tag c2 :: l3.

(** Two move targets with one tag. *)
Definition hasMultipleMoveTargets (nodes : list Node) : Prop :=
  exists l1 l2 l3 tag,
    nodes = l1 ++ StructuralTargetNode OperationMove tag ::
            l2 ++ StructuralTargetNode OperationMove tag :: l3.

(** The tag of a source node. *)
Definition sourceTag (n : Node) : option str :=
  match n with
  | StructuralSourceNode _ tag _ => Some tag
  | _ => None
  end.

(** The tag of a target node whose operation is [OperationMove]. *)
Definition moveTargetTag (n : Node) : option str :=
  match n with
  | StructuralTargetNode operation tag =>
      if str_eqb operation OperationMove then Some tag else None
  | _ => None
  end.

(** The entry [allTargets] gets under [tag] for a target node of that
    tag. *)
Definition targetFor (tag : str) (n : Node) : option targetDetail :=
  match n with
  | StructuralTargetNode operation tag' =>
      if decide (tag' = tag)
      then Some {| tdOperation := operation; tdTag := tag' |}
      else None
  | _ => None
  end.

(** The entry the pre-scan stores for a source. *)
Definition detailOf (operation tag blockContent : str) : sourceDetail :=
  {| sdOperation := operation; sdTag := tag; sdBlockContent := blockContent;
     transformedBlock := renderedBlock operation tag blockContent;
     isUsedAsMove := false |}.

(** The state of the pre-scan after the nodes [pre], none of which
    made it return. *)
Record scanned (sc : scan) (pre : list Node) : Prop := {
  scanned_sources : NoDup (omap sourceTag pre);
  scanned_moves : NoDup (omap moveTargetTag pre);
  scanned_allSources : forall tag sd,
    allSources sc !! tag = Some sd <->
    exists operation blockContent,
      StructuralSourceNode operation tag blockContent ∈ pre /\
      sd = detailOf operation tag blockContent;
  scanned_allTargets : forall tag,
    targetsOf sc tag = omap (targetFor tag) pre;
  scanned_counts : forall tag,
    moveCount sc tag = if decide (tag ∈ omap moveTargetTag pre) then 1 else 0;
}.

(** A node that occurs once. *)
Definition exactlyOne (x : Node) (nodes : list Node) : Prop :=
  exists l1 l2, nodes = l1 ++ x :: l2 /\ (x ∉ l1) /\ (x ∉ l2).

(** The move-consumption property as the specification words it, for
    one document: whenever a move source has exactly one move target,
    the output is one piece per node, in order, empty at the source and
    the rendered block at the target. *)
Definition moveConsumption (nodes : list Node) : Prop :=
  forall tag blockContent,
    StructuralSourceNode OperationMove tag blockContent ∈ nodes ->
    exactlyOne (StructuralTargetNode OperationMove tag) nodes ->
    exists pieces : list str,
      length pieces = length nodes /\
      (TransformCleanView nodes).1 = concat pieces /\
      (forall i, nodes !! i = Some (StructuralSourceNode OperationMove tag blockContent) ->
                 pieces !! i = Some []) /\
      (forall i, nodes !! i = Some (StructuralTargetNode OperationMove tag) ->
                 pieces !! i = Some (renderedBlock OperationMove tag blockContent)).

(** The copy-multiplicity property as the specification words it. *)
Definition copyMultiplicity (nodes : list Node) : Prop :=
  forall tag blockContent,
    StructuralSourceNode OperationCopy tag blockContent ∈ nodes ->
    StructuralTargetNode OperationCopy tag ∈ nodes ->
    exists pieces : list str,
      length pieces = length nodes /\
      (TransformCleanView nodes).1 = concat pieces /\
      (forall i, nodes !! i = Some (StructuralSourceNode OperationCopy tag blockContent) ->
                 pieces !! i = Some (renderedBlock OperationCopy tag blockContent)) /\
      (forall i, nodes !! i = Some (StructuralTargetNode OperationCopy tag) ->
                 pieces !! i = Some (renderedBlock OperationCopy tag blockContent)).

(** A move source with its one move target, in a document that also has
    two sources of one tag. *)
Definition conflictingMove : list Node :=
  [StructuralSourceNode OperationMove (lit "T1") (lit "block");
   StructuralTargetNode OperationMove (lit "T1");
   StructuralSourceNode OperationCopy (lit "dup") (lit "a");
   StructuralSourceNode OperationCopy (lit "dup") (lit "b")].

(** A copy source with a copy target, in a document that also has two
    sources of one tag. *)
Definition conflictingCopy : list Node :=
  [StructuralSourceNode OperationCopy (lit "T2") (lit "X");
   StructuralTargetNode OperationCopy (lit "T2");
   StructuralSourceNode OperationMove (lit "dup") (lit "a");
   StructuralSourceNode OperationMove (lit "dup") (lit "b")].

(** Escape decoding in the words of the specification: one pass from
    left to right that consumes every backslash sequence once; [special]
    are the bytes that may be escaped in the context. *)
Fixpoint decodeSinglePass (special : ascii -> bool) (s : str) : str :=
  match s with
  | [] => []
  | c :: r =>
      if Ascii.eqb c "\" then
        match r with
        | d :: r' =>
            if special d then d :: decodeSinglePass special r'
            else c :: decodeSinglePass special r
        | [] => [c]
        end
      else c :: decodeSinglePass special r
  end.

(** The bytes a structural block content may escape by the
    specification: the backslash, the braces and the tilde. *)
Definition structuralEscapes (d : ascii) : bool :=
  Ascii.eqb d "\" || Ascii.eqb d "{" || Ascii.eqb d "}" || Ascii.eqb d "~".

(** Those the code resolves in a structural block content: the backslash
    and the tilde. *)
Definition structuralHandled (d : ascii) : bool :=
  Ascii.eqb d "\" || Ascii.eqb d "~".

(** The decoding of structural block content in the words of the
    specification: the single pass from left to right over the three
    universal escapes and the escaped tilde. *)
Definition structuralDecodeSpec (raw : str) : str :=
  decodeSinglePass structuralEscapes raw.

(** An escaped backslash directly followed by a tilde, the escapes read
    from left to right as the single pass reads them. *)
Fixpoint escapedBackslashBeforeTilde (s : str) : bool :=
  match s with
  | [] => false
  | c :: r =>
      if Ascii.eqb c "\" then
        match r with
        | [] => false
        | d :: r' =>
            if Ascii.eqb d "\" then
              match r' with
              | e :: _ => Ascii.eqb e "~"
              | [] => false
              end || escapedBackslashBeforeTilde r'
            else escapedBackslashBeforeTilde r'
        end
      else escapedBackslashBeforeTilde r
  end.

(** The bytes an addition may escape. *)
Definition additionSpecial (c : ascii) : bool :=
  Ascii.eqb c "\" || Ascii.eqb c "{" || Ascii.eqb c "}" || Ascii.eqb c "+".

(** The opening and closing operators of the four inline patterns. *)
Definition inlineOperators : list (ascii * ascii) :=
  [("+", "+"); ("-", "-"); (">", "<"); ("=", "=")]%char.

(** The text of an inline span. *)
Definition inlineSpan (op cl : ascii) (content editorID : str) : str :=
  lit "{" ++ [op] ++ content ++ [cl] ++ editorID ++ lit "}".

(** The pattern, by its number in [allMatches], that the opening
    delimiter at the head of [s] belongs to. *)
Definition opener (s : str) : option nat :=
  if HasPrefix s (lit "{+") then Some 0
  else if HasPrefix s (lit "{-") then Some 1
  else if HasPrefix s (lit "{>") then Some 2
  else if HasPrefix s (lit "{=") then Some 3
  else if HasPrefix s (lit "{move~") || HasPrefix s (lit "{mv~") ||
          HasPrefix s (lit "{m~") then Some 4
  else if HasPrefix s (lit "{move:") || HasPrefix s (lit "{mv:") ||
          HasPrefix s (lit "{m:") then Some 5
  else if HasPrefix s (lit "{copy~") || HasPrefix s (lit "{cp~") ||
          HasPrefix s (lit "{c~") then Some 6
  else if HasPrefix s (lit "{copy:") || HasPrefix s (lit "{cp:") ||
          HasPrefix s (lit "{c:") then Some 7
  else None.

(** The number of the pattern a candidate comes from. *)
Definition patternOf (input : str) (m : genericMatch) : option nat :=
  opener (drop (startIndex m) input).

(** Candidates with distinct starts, all of patterns [k] and later. *)
Definition distinctFrom (input : str) (k : nat) (l : list genericMatch) : Prop :=
  NoDup (startIndex <$> l) /\
  forall m, m ∈ l -> exists j, patternOf input m = Some j /\ k <= j.

End spec.

(* ================================================================== *)
(** ** The tests of [api_test.go] on the embedding *)
(* ================================================================== *)

Module api_test.

(** [testdata/multiline.md] as [SkipDebugComments] hands it to the parser:
    without its comment line and without the final line break. *)
Definition multilineInput : str := lit "This is a test document for multiline EditML features.


First, some multiline inline additions:
This is {+a simple
addition spanning
multiple lines.+ws} an example.

Another one without an ID:
{+This is another
multiline addition.
It even has a blank line

in the middle.+}.

Multiline deletions:
This text is {-gone
and also
spans a few lines.-jd} and should be removed.

And one more:
{-This deletion
is simpler.-}.

Multiline comments:
Here is some text {>this is a
comment that goes
over several lines<xy} that we want to keep.

A comment with an escaped closing operator:
{>This comment contains a literal < character.
It also spans lines.<}.

Multiline highlights:
Let's {=emphasize this
important section
of text.=anon} for review.

Another highlight:
{=This part
is also
highlighted.=}.

Now for structural edits with multiline content.

{move~This is a block of text
that is intended to be moved.
It has multiple lines.
It even contains an escaped tilde: ~ here.
~moveML1}

Some text in between.

{copy~This is a block
to be copied.
Line 1
Line 2
Line 3~copyML1}

More text.

And here are the targets:
The moved text should appear here: {move:moveML1}.

The copied text should appear here: {copy:copyML1}.
And also here: {copy:copyML1}.

Mixing it up:
This is {+an added line
that also contains {-a nested
deletion (which should be literal text per spec 3.3.4)-}
and more added text.+dev}.

A structural move with inline edits inside its content:
{move~This block will be moved.
It contains {+added text within the block+ws}
and also some {-deleted text within the block-ws}.
This should all move together.
~moveML2}

The target for the mixed content move:
{move:moveML2}

End of multiline tests.".

(** [expectedMultilineOutput] *)
Definition expectedMultilineOutput : str := lit "This is a test document for multiline EditML features.


First, some multiline inline additions:
This is a simple
addition spanning
multiple lines. an example.

Another one without an ID:
This is another
multiline addition.
It even has a blank line

in the middle..

Multiline deletions:
This text is  and should be removed.

And one more:
.

Multiline comments:
Here is some text  that we want to keep.

A comment with an escaped closing operator:
.

Multiline highlights:
Let's emphasize this
important section
of text. for review.

Another highlight:
This part
is also
highlighted..

Now for structural edits with multiline content.



Some text in between.

This is a block
to be copied.
Line 1
Line 2
Line 3

More text.

And here are the targets:
The moved text should appear here: This is a block of text
that is intended to be moved.
It has multiple lines.
It even contains an escaped tilde: ~ here.
.

The copied text should appear here: This is a block
to be copied.
Line 1
Line 2
Line 3.
And also here: This is a block
to be copied.
Line 1
Line 2
Line 3.

Mixing it up:
This is an added line
that also contains {-a nested
deletion (which should be literal text per spec 3.3.4)-}
and more added text..

A structural move with inline edits inside its content:


The target for the mixed content move:
This block will be moved.
It contains added text within the block
and also some .
This should all move together.


End of multiline tests.".

End api_test.

(* ================================================================== *)
(** ** Go's [bufio.Scanner] with [ScanLines], as [SkipDebugComments] uses it *)
(* ================================================================== *)

Module bufio.
Import gostrings.

(** [MaxScanTokenSize]: the size the buffer of a [Scanner] grows to. *)
Definition MaxScanTokenSize : nat := 64 * 1024.
Arguments MaxScanTokenSize : simpl never.

(** The line feed and the carriage return. *)
Definition LF : ascii := "010"%char.
Definition CR : ascii := "013"%char.

(** [bytes.IndexByte(data, c)]; [None] for -1. *)
Fixpoint IndexByte (data : str) (c : ascii) : option nat :=
  match data with
  | [] => None
  | d :: data' => if Ascii.eqb d c then Some 0 else S <$> IndexByte data' c
  end.

(** [dropCR] *)
Definition dropCR (data : str) : str :=
  match last data with
  | Some c => if Ascii.eqb c CR then take (length data - 1) data else data
  | None => data
  end.

(** [ScanLines]: the bytes to advance by and the token, [None] for the
    nil token. *)
Definition ScanLines (data : str) (atEOF : bool) : nat * option str :=
  if atEOF && (length data =? 0) then (0, None)
  else
    match IndexByte data LF with
    | Some i => (i + 1, Some (dropCR (take i data)))
    | None => if atEOF then (length data, Some (dropCR data)) else (0, None)
    end.

(** One call of [Scan] on a reader that still holds [rest].  The split
    function is shown what fits the buffer; it is told of the end of the
    input when the buffer has room left after the last byte.  The result
    is the token and the bytes consumed, or [None] when [Scan] returns
    false: at the end of the input, or with [ErrTooLong] on a full buffer
    without token. *)
Definition Scan (rest : str) : option (str * nat) :=
  let data := take MaxScanTokenSize rest in
  let atEOF := length rest <? MaxScanTokenSize in
  match ScanLines data atEOF with
  | (advance, Some token) => Some (token, advance)
  | (_, None) => None
  end.

(** The tokens of [for scanner.Scan() { ... scanner.Text() ... }]; every
    call consumes a byte at least, so the loop runs at most once per
    byte. *)
Fixpoint scanLoop (fuel : nat) (rest : str) : list str :=
  match fuel with
  | O => []
  | S fuel' =>
      match Scan rest with
      | Some (token, advance) => token :: scanLoop fuel' (drop advance rest)
      | None => []
      end
  end.

Definition Lines (input : str) : list str := scanLoop (S (length input)) input.

End bufio.

(* ================================================================== *)
(** ** package parser (comments.go) *)
(* ================================================================== *)

Module comments.
Import gostrings bufio.

(** [strings.Join(elems, sep)] *)
Fixpoint Join (elems : list str) (sep : str) : str :=
  match elems with
  | [] => []
  | [e] => e
  | e :: rest => e ++ sep ++ Join rest sep
  end.

(** [unicode.IsLetter] and [unicode.IsDigit] on an ASCII byte. *)
Definition isLetter (c : ascii) : bool :=
  let n := nat_of_ascii c in
  ((65 <=? n) && (n <=? 90)) || ((97 <=? n) && (n <=? 122)).
Definition isDigit (c : ascii) : bool :=
  let n := nat_of_ascii c in (48 <=? n) && (n <=? 57).

(** [charAfter, _ := utf8.DecodeRuneInString(rest)] followed by
    [unicode.IsLetter(charAfter) || unicode.IsDigit(charAfter)]: a byte
    below [utf8.RuneSelf] is its own rune.  For a text whose first byte
    is not ASCII the answer is that of the tables of Unicode, which are
    left open: [letterOrDigit] stands for them. *)
Definition alphanumericAfter (letterOrDigit : str -> bool) (rest : str) : bool :=
  match rest with
  | [] => false
  | c :: _ =>
      if nat_of_ascii c <? 128 then isLetter c || isDigit c
      else letterOrDigit rest
  end.

(** The body of the loop up to [isCommentLine]. *)
Definition isCommentLine (letterOrDigit : str -> bool) (line : str) : bool :=
  if HasPrefix line (lit "%%") then
    if length line =? 2 then true
    else if alphanumericAfter letterOrDigit (drop 2 line) then false else true
  else false.

(** [SkipDebugComments], over the letters and digits of Unicode beyond
    ASCII. *)
Definition SkipDebugComments (letterOrDigit : str -> bool) (input : str) : str :=
  let resultLines :=
    fold_left (fun resultLines line =>
                 if negb (isCommentLine letterOrDigit line)
                 then resultLines ++ [line]
                 else resultLines)
              (Lines input) [] in
  Join resultLines [LF].
End comments.

(* ================================================================== *)
(** ** package editml (api.go): [Parse] *)
(* ================================================================== *)

Module api.
Import gostrings model parser comments.

(** An [Issue] of [Parse]: the message is ["Parsing error: %v"] of the
    error. *)
Record Issue := {
  Message : parseError;
  Line : nat;
  Column : nat;
  Severity : editml.IssueSeverity;
}.

(** [Parse], over the letters and digits of Unicode beyond ASCII. *)
Definition Parse (letterOrDigit : str -> bool) (inputText : str)
    : list Node * list Issue :=
  let textWithoutDebugComments := SkipDebugComments letterOrDigit inputText in
  let '(parsedNodes, err) := ParseEditMLToNodes textWithoutDebugComments in
  match err with
  | Some e =>
      (parsedNodes,
       [{| Message := e; Line := 0; Column := 0; Severity := editml.SeverityError |}])
  | None => (parsedNodes, [])
  end.

End api.

(* ================================================================== *)
(** ** The test file of [api_test.go] *)
(* ================================================================== *)

Module testdata.

(** [testdata/multiline.md], as [os.ReadFile] returns it. *)
Definition multiline_md : str := lit "This is a test document for multiline EditML features.

%% A line comment, should be skipped.

First, some multiline inline additions:
This is {+a simple
addition spanning
multiple lines.+ws} an example.

Another one without an ID:
{+This is another
multiline addition.
It even has a blank line

in the middle.+}.

Multiline deletions:
This text is {-gone
and also
spans a few lines.-jd} and should be removed.

And one more:
{-This deletion
is simpler.-}.

Multiline comments:
Here is some text {>this is a
comment that goes
over several lines<xy} that we want to keep.

A comment with an escaped closing operator:
{>This comment contains a literal < character.
It also spans lines.<}.

Multiline highlights:
Let's {=emphasize this
important section
of text.=anon} for review.

Another highlight:
{=This part
is also
highlighted.=}.

Now for structural edits with multiline content.

{move~This is a block of text
that is intended to be moved.
It has multiple lines.
It even contains an escaped tilde: ~ here.
~moveML1}

Some text in between.

{copy~This is a block
to be copied.
Line 1
Line 2
Line 3~copyML1}

More text.

And here are the targets:
The moved text should appear here: {move:moveML1}.

The copied text should appear here: {copy:copyML1}.
And also here: {copy:copyML1}.

Mixing it up:
This is {+an added line
that also contains {-a nested
deletion (which should be literal text per spec 3.3.4)-}
and more added text.+dev}.

A structural move with inline edits inside its content:
{move~This block will be moved.
It contains {+added text within the block+ws}
and also some {-deleted text within the block-ws}.
This should all move together.
~moveML2}

The target for the mixed content move:
{move:moveML2}

End of multiline tests.
".

End testdata.

(* ================================================================== *)
(** ** Further notions: the shape of a parse and of a document *)
(* ================================================================== *)

Module shape.
Import gostrings model regex parser transformer editml spec bufio comments.

(** The edit types and the operations the parser writes into its nodes. *)
Definition editTypes : list str :=
  [EditTypeAddition; EditTypeDeletion; EditTypeComment; EditTypeHighlight].
Definition operations : list str := [OperationMove; OperationCopy].

(** A tag or an editor id as the patterns capture it. *)
Definition alphanumeric (s : str) : Prop := forallb isAlnum s = true.

(** The fields of a markup node as the patterns allow them: an edit type
    or operation of the model, an alphanumeric editor id, a tag that is
    alphanumeric and not empty. *)
Definition kindNormalized (n : Node) : Prop :=
  match n with
  | TextNode _ => True
  | InlineEditNode editType _ _ => editType ∈ editTypes
  | StructuralSourceNode operation _ _ => operation ∈ operations
  | StructuralTargetNode operation _ => operation ∈ operations
  end.

Definition namesAlphanumeric (n : Node) : Prop :=
  match n with
  | TextNode _ => True
  | InlineEditNode _ _ editorID => alphanumeric editorID
  | StructuralSourceNode _ tag _ => tag <> [] /\ alphanumeric tag
  | StructuralTargetNode _ tag => tag <> [] /\ alphanumeric tag
  end.

(** Two text nodes in a row. *)
Definition hasAdjacentTexts (nodes : list Node) : Prop :=
  exists l1 t1 t2 l2, nodes = l1 ++ TextNode t1 :: TextNode t2 :: l2.

(** The inline patterns: opening operator, closing operator, edit type. *)
Definition inlineKinds : list (ascii * ascii * str) :=
  [("+"%char, "+"%char, EditTypeAddition); ("-"%char, "-"%char, EditTypeDeletion);
   (">"%char, "<"%char, EditTypeComment); ("="%char, "="%char, EditTypeHighlight)].

(** The structural patterns: a keyword and the operation it stands for. *)
Definition structuralKeywords : list (str * str) :=
  [(lit "move", OperationMove); (lit "mv", OperationMove); (lit "m", OperationMove);
   (lit "copy", OperationCopy); (lit "cp", OperationCopy); (lit "c", OperationCopy)].

(** The text of a structural source and of a structural target. *)
Definition sourceSpan (keyword content tag : str) : str :=
  lit "{" ++ keyword ++ lit "~" ++ content ++ lit "~" ++ tag ++ lit "}".
Definition targetSpan (keyword tag : str) : str :=
  lit "{" ++ keyword ++ lit ":" ++ tag ++ lit "}".

(** The closing operator of an edit type, the byte it may escape besides
    the backslash and the braces. *)
Definition closingOperator (editType : str) : option ascii :=
  if str_eqb editType EditTypeAddition then Some "+"%char
  else if str_eqb editType EditTypeDeletion then Some "-"%char
  else if str_eqb editType EditTypeComment then Some "<"%char
  else if str_eqb editType EditTypeHighlight then Some "="%char
  else None.

(** The bytes an inline content of the edit type may escape. *)
Definition inlineSpecial (editType : str) (d : ascii) : bool :=
  Ascii.eqb d "\" || Ascii.eqb d "{" || Ascii.eqb d "}" ||
  match closingOperator editType with
  | Some cl => Ascii.eqb d cl
  | None => false
  end.

(** The passes of the decoders after the first, one per escaped byte. *)
Definition passes (escaped : list ascii) (s : str) : str :=
  fold_left (fun acc x => ReplaceAll acc ["\"%char; x] [x]) escaped s.

(** An inline node that the Clean View leaves out: a deletion, a comment,
    or an edit type the renderer does not know. *)
Definition isOmitted (n : Node) : bool :=
  match n with
  | InlineEditNode editType _ _ =>
      negb (str_eqb editType EditTypeAddition) &&
      negb (str_eqb editType EditTypeHighlight)
  | _ => false
  end.

(** A node that is neither a structural source nor a structural target. *)
Definition isPlain (n : Node) : bool :=
  match n with
  | TextNode _ | InlineEditNode _ _ _ => true
  | _ => false
  end.

(** A line the scanner can hold: without line feed and shorter than the
    buffer. *)
Definition scannable (line : str) : Prop :=
  (LF ∉ line) /\ length line < MaxScanTokenSize.

(** A line that [SkipDebugComments] hands on as it is. *)
Definition keptAsIs (letterOrDigit : str -> bool) (line : str) : Prop :=
  scannable line /\ last line <> Some CR /\
  isCommentLine letterOrDigit line = false.

(** No letter and no digit beyond ASCII: the choice of the examples,
    whose texts are ASCII. *)
Definition asciiOnly : str -> bool := fun _ => false.

End shape.

Import gostrings model regex parser transformer editml spec.

(* ================================================================== *)
(** ** Properties *)
(* ================================================================== *)

Section string_facts.

Lemma slice_length (s : str) a b : length (slice s a b) <= b - a.
Proof. unfold slice. rewrite length_take. lia. Qed.

Lemma slice_full (s : str) : slice s 0 (length s) = s.
Proof. unfold slice. rewrite Nat.sub_0_r. simpl. apply firstn_all. Qed.

Lemma slice_app (s : str) a b c :
  a <= b -> b <= c -> slice s a b ++ slice s b c = slice s a c.
Proof.
  intros Hab Hbc. unfold slice.
  replace (c - a) with ((b - a) + (c - b)) by lia.
  rewrite <- (take_drop (b - a) (take (b - a + (c - b)) (drop a s))).
  rewrite take_take, Nat.min_l by lia.
  f_equal.
  rewrite skipn_firstn_comm.
  replace (b - a + (c - b) - (b - a)) with (c - b) by lia.
  rewrite drop_drop. replace (a + (b - a)) with b by lia. reflexivity.
Qed.

Lemma slice_prefix (s : str) b : slice s 0 b = take b s.
Proof. unfold slice. rewrite Nat.sub_0_r. reflexivity. Qed.

Lemma HasPrefix_spec (s p : str) :
  HasPrefix s p = true <-> exists r, s = p ++ r.
Proof.
  revert s. induction p as [|c p IH]; intros s; simpl.
  - destruct s; (split; [intros _; eexists; reflexivity | reflexivity]).
  - destruct s as [|d s]; simpl.
    + split; [discriminate | intros [r Hr]; discriminate].
    + rewrite andb_true_iff, IH. split.
      * intros [Hc [r ->]]. apply Ascii.eqb_eq in Hc. subst. eauto.
      * intros [r Hr]. injection Hr as -> ->. split; [apply Ascii.eqb_refl | eauto].
Qed.

Lemma HasPrefix_length (s p : str) :
  HasPrefix s p = true -> length p <= length s.
Proof.
  intros [r ->]%HasPrefix_spec. rewrite length_app. lia.
Qed.

Lemma replaceFrom_length (old new : str) skip s :
  length new <= length old ->
  length (replaceFrom old new skip s) + Nat.min skip (length s) <= length s.
Proof.
  intros Hlen. revert skip.
  induction s as [|c s IH]; intros skip; cbn [replaceFrom length].
  - lia.
  - destruct skip as [|k].
    + destruct (HasPrefix (c :: s) old) eqn:Hp.
      * apply HasPrefix_length in Hp. cbn [length] in Hp.
        rewrite length_app. specialize (IH (length old - 1)). lia.
      * cbn [length]. specialize (IH 0). lia.
    + specialize (IH k). lia.
Qed.

Lemma ReplaceAll_length (s old new : str) :
  length new <= length old -> length (ReplaceAll s old new) <= length s.
Proof.
  intros H. unfold ReplaceAll.
  pose proof (replaceFrom_length old new 0 s H). lia.
Qed.

Lemma unescapeStructuralBlockContent_length (content : str) :
  length (unescapeStructuralBlockContent content) <= length content.
Proof.
  unfold unescapeStructuralBlockContent.
  etransitivity; [apply ReplaceAll_length; simpl; lia|].
  apply ReplaceAll_length; simpl; lia.
Qed.

End string_facts.

Section regex_facts.

Lemma alnumRun_le (s : str) : alnumRun s <= length s.
Proof.
  induction s as [|c s IH]; simpl; [lia|].
  destruct (isAlnum c); simpl; lia.
Qed.

Lemma brace_after (k : nat) (s : str) :
  HasPrefix (drop k s) (lit "}") = true -> k + 1 <= length s.
Proof.
  intros H%HasPrefix_length. rewrite length_drop in H. simpl in H. lia.
Qed.

Lemma tagTrailer_bound (s : str) k :
  tagTrailer s = Some k -> 1 <= k /\ k + 1 <= length s.
Proof.
  unfold tagTrailer. case_match eqn:H; [|discriminate].
  intros [= <-]. apply andb_true_iff in H as [H1 H2].
  apply Nat.leb_le in H1. apply brace_after in H2. lia.
Qed.

Lemma tryEditorID_bound (n : nat) (s : str) k :
  tryEditorID n s = Some k -> 1 <= k /\ k <= n /\ k + 1 <= length s.
Proof.
  induction n as [|n IH]; cbn [tryEditorID]; [discriminate|].
  case_match eqn:H.
  - intros [= <-]. apply andb_true_iff in H as [_ H2].
    apply brace_after in H2. lia.
  - intros Hk. apply IH in Hk. lia.
Qed.

Lemma editorIDTrailer_bound (s : str) e :
  editorIDTrailer s = Some e ->
  default 0 e <= 5 /\ default 0 e + 1 <= length s.
Proof.
  unfold editorIDTrailer. destruct (tryEditorID 5 s) as [k|] eqn:Hk.
  - intros [= <-]. apply tryEditorID_bound in Hk. simpl. lia.
  - case_match eqn:H; [|discriminate]. intros [= <-].
    apply (brace_after 0) in H. simpl. lia.
Qed.

Lemma lazyUntil_spec {A} (close : str -> option A) (s : str) n a :
  lazyUntil close s = Some (n, a) ->
  n <= length s /\ close (drop n s) = Some a.
Proof.
  revert n. induction s as [|c s IH]; intros n; cbn [lazyUntil].
  - destruct (close []) eqn:Hc; [|discriminate].
    intros [= <- <-]. split; [simpl; lia | exact Hc].
  - destruct (close (c :: s)) eqn:Hc.
    + intros [= <- <-]. split; [lia | exact Hc].
    + destruct (lazyUntil close s) as [[m b]|] eqn:Hl; [|discriminate].
      intros [= <- <-]. destruct (IH m eq_refl) as [H1 H2].
      split; [simpl; lia | exact H2].
Qed.

Lemma closeInline_bound (cl : ascii) (s : str) e :
  closeInline cl s = Some e ->
  default 0 e <= 5 /\ 1 + default 0 e + 1 <= length s.
Proof.
  destruct s as [|c r]; simpl; [discriminate|].
  destruct (Ascii.eqb c cl); [|discriminate].
  intros H%editorIDTrailer_bound. lia.
Qed.

Lemma closeSource_bound (s : str) tg :
  closeSource s = Some tg -> 1 <= tg /\ 1 + tg + 1 <= length s.
Proof.
  destruct s as [|c r]; simpl; [discriminate|].
  destruct (Ascii.eqb c "~"); [|discriminate].
  intros H%tagTrailer_bound. lia.
Qed.

Lemma matchInline_bound (op cl : ascii) (s : str) len g :
  matchInline op cl s = Some (len, g) ->
  len = 2 + contentLen g + 1 + default 0 (editorLen g) + 1 /\
  len <= length s /\ default 0 (editorLen g) <= 5.
Proof.
  unfold matchInline. destruct s as [|b [|o r]]; try discriminate.
  case_match; [|discriminate].
  destruct (lazyUntil (closeInline cl) r) as [[n e]|] eqn:Hl; [|discriminate].
  intros [= <- <-]. cbn [contentLen editorLen].
  apply lazyUntil_spec in Hl as [Hn Hc].
  apply closeInline_bound in Hc. rewrite length_drop in Hc.
  cbn [length]. lia.
Qed.

Lemma firstSome_Some {A B} (k : A -> option B) (l : list A) b :
  firstSome k l = Some b -> exists a, a ∈ l /\ k a = Some b.
Proof.
  induction l as [|a l IH]; simpl; [discriminate|].
  destruct (k a) eqn:Hk.
  - intros [= <-]. exists a. split; [left | exact Hk].
  - intros [a' [Hin Ha']]%IH. exists a'. split; [by right | exact Ha'].
Qed.

Lemma drop_cons_length {A} (k : nat) (l r : list A) (x : A) :
  drop k l = x :: r -> length l = k + 1 + length r.
Proof.
  intros H. apply (f_equal length) in H. rewrite length_drop in H.
  simpl in H. lia.
Qed.

Lemma matchSource_bound (alts : list str) (s : str) len g :
  matchSource alts s = Some (len, g) ->
  len = 1 + keywordLen g + 1 + blockLen g + 1 + tagLen g + 1 /\
  len <= length s /\ 1 <= tagLen g.
Proof.
  unfold matchSource. destruct s as [|b r]; [discriminate|].
  case_match; [|discriminate].
  intros (kw & _ & Hk)%firstSome_Some.
  destruct (drop kw r) as [|t r'] eqn:Hd; [discriminate|].
  destruct (Ascii.eqb t "~"); [|discriminate].
  destruct (lazyUntil closeSource r') as [[n tg]|] eqn:Hl; [|discriminate].
  injection Hk as <- <-. cbn [keywordLen blockLen tagLen].
  apply lazyUntil_spec in Hl as [Hn Hc].
  apply closeSource_bound in Hc. rewrite length_drop in Hc.
  apply drop_cons_length in Hd. cbn [length]. lia.
Qed.

Lemma matchTarget_bound (alts : list str) (s : str) len g :
  matchTarget alts s = Some (len, g) ->
  len = 1 + keywordLen g + 1 + tagLen g + 1 /\
  len <= length s /\ 1 <= tagLen g.
Proof.
  unfold matchTarget. destruct s as [|b r]; [discriminate|].
  case_match; [|discriminate].
  intros (kw & _ & Hk)%firstSome_Some.
  destruct (drop kw r) as [|t r'] eqn:Hd; [discriminate|].
  destruct (Ascii.eqb t ":"); [|discriminate].
  destruct (tagTrailer r') as [tg|] eqn:Hl; [|discriminate].
  injection Hk as <- <-. cbn [keywordLen blockLen tagLen].
  apply tagTrailer_bound in Hl.
  apply drop_cons_length in Hd. cbn [length]. lia.
Qed.

(** Every match of [FindAllStringSubmatchIndex] is a match of the pattern
    at its start offset, inside the input. *)
Lemma findAllFrom_spec {A} (matchAt : str -> option (nat * A))
    (pos skip : nat) (s : str) a b g :
  (a, b, g) ∈ findAllFrom matchAt pos skip s ->
  pos + skip <= a /\ a < pos + length s /\ a <= b /\
  matchAt (drop (a - pos) s) = Some (b - a, g).
Proof.
  revert pos skip. induction s as [|c s IH]; intros pos skip; cbn [findAllFrom].
  - intros H. inversion H.
  - destruct skip as [|k].
    + destruct (matchAt (c :: s)) as [[len g']|] eqn:Hm.
      * intros H. apply elem_of_cons in H as [H|H].
        -- injection H as -> -> ->.
           replace (pos - pos) with 0 by lia.
           replace (pos + len - pos) with len by lia.
           cbn [length drop]. repeat split; try lia. exact Hm.
        -- apply IH in H as (H1 & H2 & H3 & H4).
           replace (a - pos) with (S (a - S pos)) by lia.
           cbn [length drop]. repeat split; try lia. exact H4.
      * intros H. apply IH in H as (H1 & H2 & H3 & H4).
        replace (a - pos) with (S (a - S pos)) by lia.
        cbn [length drop]. repeat split; try lia. exact H4.
    + intros H. apply IH in H as (H1 & H2 & H3 & H4).
      replace (a - pos) with (S (a - S pos)) by lia.
      cbn [length drop]. repeat split; try lia. exact H4.
Qed.

Lemma FindAll_spec {A} (matchAt : str -> option (nat * A)) (input : str) a b g :
  (a, b, g) ∈ FindAll matchAt input ->
  a < length input /\ a <= b /\ matchAt (drop a input) = Some (b - a, g).
Proof.
  intros H. apply findAllFrom_spec in H as (H1 & H2 & H3 & H4).
  rewrite Nat.sub_0_r in H4. repeat split; try lia. exact H4.
Qed.

End regex_facts.

Section parser_facts.

Lemma inlineMatch_ok (input : str) (op cl : ascii) (editType : str) m :
  m ∈ FindAll (matchInline op cl) input ->
  candidateOk input (inlineMatch input editType m).
Proof.
  destruct m as [[a b] g]. intros (Ha & Hab & Hm)%FindAll_spec.
  apply matchInline_bound in Hm as (Hlen & Hle & Hid).
  rewrite length_drop in Hle.
  unfold candidateOk, inlineMatch; cbn.
  repeat split; try lia.
  destruct (editorLen g) as [k|]; cbn in *; [|lia].
  etransitivity; [apply slice_length|]. lia.
Qed.

Lemma sourceMatch_ok (input : str) (alts : list str) (operation : str) m :
  m ∈ FindAll (matchSource alts) input ->
  candidateOk input (sourceMatch input operation m).
Proof.
  destruct m as [[a b] g]. intros (Ha & Hab & Hm)%FindAll_spec.
  apply matchSource_bound in Hm as (Hlen & Hle & Htg).
  rewrite length_drop in Hle.
  unfold candidateOk, sourceMatch; cbn.
  repeat split; try lia.
  pose proof (unescapeStructuralBlockContent_length
                (slice input (a + 1 + keywordLen g + 1)
                   (a + 1 + keywordLen g + 1 + blockLen g))) as H1.
  pose proof (slice_length input (a + 1 + keywordLen g + 1)
                (a + 1 + keywordLen g + 1 + blockLen g)) as H2.
  lia.
Qed.

Lemma targetMatch_ok (input : str) (alts : list str) (operation : str) m :
  m ∈ FindAll (matchTarget alts) input ->
  candidateOk input (targetMatch input operation m).
Proof.
  destruct m as [[a b] g]. intros (Ha & Hab & Hm)%FindAll_spec.
  apply matchTarget_bound in Hm as (Hlen & Hle & Htg).
  rewrite length_drop in Hle.
  unfold candidateOk, targetMatch; cbn.
  repeat split; lia.
Qed.

Lemma allMatches_ok (input : str) :
  Forall (candidateOk input) (allMatches input).
Proof.
  unfold allMatches. repeat rewrite Forall_app. rewrite !Forall_fmap.
  repeat split; apply Forall_forall; intros m Hm; cbn.
  - by eapply inlineMatch_ok.
  - by eapply inlineMatch_ok.
  - by eapply inlineMatch_ok.
  - by eapply inlineMatch_ok.
  - by eapply sourceMatch_ok.
  - by eapply targetMatch_ok.
  - by eapply sourceMatch_ok.
  - by eapply targetMatch_ok.
Qed.

(** *** sort.Slice *)

Lemma less_false_before (a b : genericMatch) : less a b = false -> before b a.
Proof.
  unfold less, before. destruct (Nat.eqb_spec (startIndex a) (startIndex b)).
  - intros H%Nat.ltb_ge. right. split; [done | lia].
  - intros H%Nat.ltb_ge. left. lia.
Qed.

Lemma less_true_before (a b : genericMatch) : less a b = true -> before a b.
Proof.
  unfold less, before. destruct (Nat.eqb_spec (startIndex a) (startIndex b)).
  - intros H%Nat.ltb_lt. right. split; [done | lia].
  - intros H%Nat.ltb_lt. left. lia.
Qed.

Lemma before_trans (a b c : genericMatch) : before a b -> before b c -> before a c.
Proof. unfold before. lia. Qed.

Lemma insertMatch_perm (x : genericMatch) l : insertMatch x l ≡ₚ x :: l.
Proof.
  induction l as [|y l IH]; simpl; [done|].
  destruct (less y x); [|done].
  rewrite IH. apply Permutation_swap.
Qed.

Lemma sortSlice_perm l : sortSlice l ≡ₚ l.
Proof.
  induction l as [|x l IH]; simpl; [done|].
  rewrite insertMatch_perm. by rewrite IH.
Qed.

Lemma insertMatch_sorted (x : genericMatch) l :
  StronglySorted before l -> StronglySorted before (insertMatch x l).
Proof.
  induction 1 as [|y l Hs IH Hall]; simpl.
  - repeat constructor.
  - destruct (less y x) eqn:Hl.
    + constructor; [exact IH|].
      rewrite insertMatch_perm. constructor; [by apply less_true_before | exact Hall].
    + apply less_false_before in Hl.
      constructor; [by constructor|].
      constructor; [exact Hl|].
      eapply Forall_impl; [exact Hall|].
      intros z Hz. by eapply before_trans.
Qed.

Lemma sortSlice_sorted l : StronglySorted before (sortSlice l).
Proof.
  induction l as [|x l IH]; simpl; [constructor|].
  by apply insertMatch_sorted.
Qed.

End parser_facts.

Section interleave_facts.
Variable input : str.

Lemma interleave_fold (sorted : list genericMatch) nodes lastIndex :
  (let '(nodes', lastIndex') :=
     fold_left (interleaveStep input) sorted (nodes, lastIndex) in
   if lastIndex' <? length input
   then nodes' ++ [TextNode (slice input lastIndex' (length input))]
   else nodes') = nodes ++ merge input lastIndex sorted.
Proof.
  revert nodes lastIndex.
  induction sorted as [|m sorted IH]; intros nodes lastIndex.
  - cbn [fold_left merge]. destruct (lastIndex <? length input); [done | by rewrite app_nil_r].
  - cbn [fold_left merge]. unfold interleaveStep at 2.
    destruct (startIndex m <? lastIndex).
    + apply IH.
    + rewrite IH. destruct (lastIndex <? startIndex m).
      * by rewrite <- !app_assoc.
      * by rewrite <- app_assoc.
Qed.

Lemma interleave_merge (sorted : list genericMatch) :
  interleave input sorted = merge input 0 sorted.
Proof. unfold interleave. apply (interleave_fold sorted [] 0). Qed.

Lemma merge_elem (cands : list genericMatch) cursor n :
  n ∈ merge input cursor cands ->
  (exists text, n = TextNode text) \/ exists m, m ∈ cands /\ n = node m.
Proof.
  revert cursor. induction cands as [|c rest IH]; intros cursor; cbn [merge].
  - destruct (cursor <? length input); intros H.
    + apply list_elem_of_singleton in H. left. eauto.
    + inversion H.
  - destruct (startIndex c <? cursor).
    + intros [H|(m & Hm & ->)]%IH; [by left|].
      right. exists m. split; [by right | done].
    + rewrite elem_of_app, elem_of_cons.
      intros [H|[->|H]].
      * left. destruct (cursor <? startIndex c).
        -- apply list_elem_of_singleton in H. eauto.
        -- inversion H.
      * right. exists c. split; [left | done].
      * apply IH in H as [H|(m & Hm & ->)]; [by left|].
        right. exists m. split; [by right | done].
Qed.

Lemma literalOf_mono (cands : list genericMatch) c n form :
  literalOf input cands n form -> literalOf input (c :: cands) n form.
Proof.
  destruct n; cbn; try done;
    intros (m & Hm & Hn & Hf); exists m; (split; [by right | done]).
Qed.

Lemma slice_drop (s : str) a b : a <= b -> slice s a b ++ drop b s = drop a s.
Proof.
  intros Hab. unfold slice.
  replace (drop b s) with (drop (b - a) (drop a s)).
  - apply take_drop.
  - rewrite drop_drop. f_equal. lia.
Qed.

Lemma merge_roundtrip (cands : list genericMatch) cursor :
  Forall (candidateOk input) cands -> cursor <= length input ->
  exists forms,
    Forall2 (literalOf input cands) (merge input cursor cands) forms /\
    concat forms = drop cursor input.
Proof.
  intros Hok. revert cursor.
  induction Hok as [|c rest Hc Hrest IH]; intros cursor Hcur; cbn [merge].
  - destruct (Nat.ltb_spec cursor (length input)).
    + exists [drop cursor input]. split.
      * constructor; [|constructor]. cbn. unfold slice.
        rewrite firstn_all2; [done|]. rewrite length_drop. lia.
      * cbn. by rewrite app_nil_r.
    + exists []. split; [constructor|].
      cbn. by rewrite drop_ge.
  - destruct Hc as (Hse & Hend & Hdepth & Hkind).
    destruct (Nat.ltb_spec (startIndex c) cursor) as [Hlt|Hge].
    + destruct (IH cursor Hcur) as (forms & HF & Hcat).
      exists forms. split; [|done].
      eapply Forall2_impl; [exact HF|]. intros. by apply literalOf_mono.
    + destruct (IH (endIndex c) Hend) as (forms & HF & Hcat).
      assert (Hnode : literalOf input (c :: rest) (node c)
                        (slice input (startIndex c) (endIndex c))).
      { destruct (node c) eqn:Hn; cbn; [done| | |];
          (exists c; split; [left | done]). }
      assert (HF' : Forall2 (literalOf input (c :: rest))
                      (merge input (endIndex c) rest) forms).
      { eapply Forall2_impl; [exact HF|]. intros. by apply literalOf_mono. }
      destruct (Nat.ltb_spec cursor (startIndex c)) as [Hgap|Hnogap].
      * exists (slice input cursor (startIndex c) ::
                slice input (startIndex c) (endIndex c) :: forms).
        split.
        -- cbn. constructor; [done|]. by constructor.
        -- cbn. rewrite Hcat. rewrite slice_drop by lia.
           apply slice_drop. lia.
      * exists (slice input (startIndex c) (endIndex c) :: forms).
        split.
        -- cbn. by constructor.
        -- cbn. rewrite Hcat. rewrite slice_drop by lia.
           f_equal. lia.
Qed.

End interleave_facts.

Section parse_facts.

Lemma ParseEditMLToNodes_merge (input : str) :
  (ParseEditMLToNodes input).1 = merge input 0 (sortSlice (allMatches input)).
Proof. cbn. apply interleave_merge. Qed.

Lemma sortSlice_ok (input : str) :
  Forall (candidateOk input) (sortSlice (allMatches input)).
Proof.
  rewrite (sortSlice_perm (allMatches input)). apply allMatches_ok.
Qed.

(** A parsed node is a text run or the node of a candidate. *)
Lemma ParseEditMLToNodes_elem (input : str) n :
  n ∈ (ParseEditMLToNodes input).1 ->
  (exists text, n = TextNode text) \/
  exists m, m ∈ allMatches input /\ candidateOk input m /\ n = node m.
Proof.
  rewrite ParseEditMLToNodes_merge.
  intros [H|(m & Hm & ->)]%merge_elem; [by left|].
  right. exists m.
  rewrite (sortSlice_perm (allMatches input)) in Hm.
  split; [done|]. split; [|done].
  pose proof (allMatches_ok input) as Hall.
  rewrite Forall_forall in Hall. by apply Hall.
Qed.

Lemma depthBound_le (nodes : list Node) k :
  depthBound nodes <= k <-> Forall (fun n => blockDepth n <= k) nodes.
Proof.
  unfold depthBound. induction nodes as [|n nodes IH]; cbn.
  - split; [constructor | lia].
  - rewrite Forall_cons, <- IH. lia.
Qed.

(** The block content of a parsed source is shorter than the input. *)
Lemma ParseEditMLToNodes_depth (input : str) :
  depthBound (ParseEditMLToNodes input).1 <= length input.
Proof.
  apply depthBound_le, Forall_forall. intros n Hn.
  apply ParseEditMLToNodes_elem in Hn as [[text ->]|(m & _ & Hok & ->)].
  - cbn. lia.
  - apply Hok.
Qed.

End parse_facts.

Section fuel_facts.

Lemma prescanStep_ext (rec rec' : recursion) sc n :
  agreeOn rec rec' n -> prescanStep rec sc n = prescanStep rec' sc n.
Proof.
  destruct n as [| |operation tag blockContent|]; cbn; try done.
  intros H. unfold transformBlock. cbn. by rewrite H.
Qed.

Lemma prescan_ext (rec rec' : recursion) nodes :
  Forall (agreeOn rec rec') nodes ->
  forall sc, prescan rec sc nodes = prescan rec' sc nodes.
Proof.
  induction 1 as [|n nodes Hn _ IH]; intros sc; cbn [prescan]; [done|].
  rewrite (prescanStep_ext rec rec' sc n Hn).
  destruct (prescanStep rec' sc n); [apply IH | done | done].
Qed.

Lemma prescanStep_returns (rec : recursion) sc n :
  returnsOn rec n -> prescanStep rec sc n <> OutOfFuel.
Proof.
  destruct n as [| |operation tag blockContent|operation tag]; cbn; try done.
  - intros [[blockStr err] H]. destruct (allSources sc !! tag); [done|].
    unfold transformBlock. cbn. rewrite H. by destruct err.
  - intros _. by repeat case_match.
Qed.

Lemma prescan_returns (rec : recursion) nodes :
  Forall (returnsOn rec) nodes ->
  forall sc, prescan rec sc nodes <> OutOfFuel.
Proof.
  induction 1 as [|n nodes Hn _ IH]; intros sc; cbn [prescan]; [done|].
  pose proof (prescanStep_returns rec sc n Hn).
  destruct (prescanStep rec sc n); [apply IH | done | done].
Qed.

Lemma transformBody_ext (rec rec' : recursion) nodes :
  Forall (agreeOn rec rec') nodes ->
  transformBody rec nodes = transformBody rec' nodes.
Proof. intros H. unfold transformBody. by rewrite (prescan_ext rec rec' nodes H). Qed.

Lemma transformBody_returns (rec : recursion) nodes :
  Forall (returnsOn rec) nodes -> is_Some (transformBody rec nodes).
Proof.
  intros H. unfold transformBody.
  pose proof (prescan_returns rec nodes H emptyScan).
  destruct (prescan rec emptyScan nodes); [by eexists | by eexists | done].
Qed.

(** The nodes of a block's content need less fuel than the block. *)
Lemma block_depth (nodes : list Node) operation tag blockContent k :
  depthBound nodes <= k ->
  StructuralSourceNode operation tag blockContent ∈ nodes ->
  depthBound (ParseEditMLToNodes blockContent).1 < k.
Proof.
  intros Hd Hin. apply depthBound_le in Hd.
  rewrite Forall_forall in Hd. apply Hd in Hin. cbn in Hin.
  pose proof (ParseEditMLToNodes_depth blockContent). lia.
Qed.

(** The recursion of [TransformToCleanView] is never deeper than its
    longest block content: that much fuel always gives a result. *)
Lemma TransformFuel_total (fuel : nat) (nodes : list Node) :
  depthBound nodes < fuel -> is_Some (TransformFuel fuel nodes).
Proof.
  revert nodes. induction fuel as [|fuel IH]; intros nodes Hd; [lia|].
  cbn [TransformFuel]. apply transformBody_returns, Forall_forall.
  intros [| |operation tag blockContent|] Hin; cbn; try done.
  apply IH. eapply block_depth; [|exact Hin]. lia.
Qed.

(** More fuel than that does not change the result. *)
Lemma TransformFuel_stable (fuel fuel' : nat) (nodes : list Node) :
  depthBound nodes < fuel -> depthBound nodes < fuel' ->
  TransformFuel fuel nodes = TransformFuel fuel' nodes.
Proof.
  revert fuel' nodes.
  induction fuel as [|fuel IH]; intros fuel' nodes Hd Hd'; [lia|].
  destruct fuel' as [|fuel']; [lia|].
  cbn [TransformFuel]. apply transformBody_ext, Forall_forall.
  intros [| |operation tag blockContent|] Hin; cbn; try done.
  apply IH; (eapply block_depth; [|exact Hin]); lia.
Qed.

Lemma TransformFuel_enough (fuel : nat) (nodes : list Node) :
  depthBound nodes < fuel ->
  TransformFuel fuel nodes = Some (TransformToCleanView nodes).
Proof.
  intros Hd. unfold TransformToCleanView.
  rewrite (TransformFuel_stable (S (depthBound nodes)) fuel) by lia.
  destruct (TransformFuel_total fuel nodes Hd) as [r ->]. done.
Qed.

(** [TransformToCleanView] satisfies the recursive equation of the
    source: it is the body applied to itself. *)
Lemma TransformToCleanView_unfold (nodes : list Node) :
  transformBody (fun ns => Some (TransformToCleanView ns)) nodes =
  Some (TransformToCleanView nodes).
Proof.
  rewrite <- (TransformFuel_enough (S (depthBound nodes))) by lia.
  cbn [TransformFuel]. apply transformBody_ext, Forall_forall.
  intros [| |operation tag blockContent|] Hin; cbn; try done.
  symmetry. apply TransformFuel_enough.
  eapply block_depth; [|exact Hin]. lia.
Qed.

End fuel_facts.

Section prescan_facts.

Lemma str_eqb_eq (a b : str) : str_eqb a b = true <-> a = b.
Proof. unfold str_eqb. apply bool_decide_eq_true. Qed.

Lemma str_eqb_neq (a b : str) : str_eqb a b = false <-> a <> b.
Proof. unfold str_eqb. apply bool_decide_eq_false. Qed.

Lemma transformBlock_self operation tag blockContent :
  transformBlock selfCall operation tag blockContent =
  Some (renderedBlock operation tag blockContent).
Proof.
  unfold transformBlock, renderedBlock, selfCall, ParseEditMLToNodes. cbn [fst].
  by destruct (TransformToCleanView (interleave blockContent _)) as [blockStr [e|]].
Qed.

Lemma sourceTag_elem (nodes : list Node) tag :
  tag ∈ omap sourceTag nodes <->
  exists operation blockContent,
    StructuralSourceNode operation tag blockContent ∈ nodes.
Proof.
  rewrite list_elem_of_omap. split.
  - intros ([| |operation tag' blockContent|] & Hin & Hn); try discriminate.
    injection Hn as ->. eauto.
  - intros (operation & blockContent & Hin). eauto.
Qed.

Lemma moveTargetTag_elem (nodes : list Node) tag :
  tag ∈ omap moveTargetTag nodes <->
  StructuralTargetNode OperationMove tag ∈ nodes.
Proof.
  rewrite list_elem_of_omap. split.
  - intros ([| | |operation tag'] & Hin & Hn); try discriminate.
    unfold moveTargetTag in Hn.
    destruct (str_eqb operation OperationMove) eqn:Hop; [|discriminate].
    apply str_eqb_eq in Hop. injection Hn as ->. by subst.
  - intros Hin. eexists. split; [exact Hin|]. done.
Qed.

Lemma scanned_empty : scanned emptyScan [].
Proof.
  split; cbn.
  - constructor.
  - constructor.
  - intros tag sd. rewrite lookup_empty. split; [done|].
    intros (? & ? & Hin & _). inversion Hin.
  - intros tag. unfold targetsOf. cbn. by rewrite lookup_empty.
  - intros tag. unfold moveCount. cbn. rewrite lookup_empty.
    case_decide as H; [inversion H | done].
Qed.

Lemma noDup_sources (nodes : list Node) :
  NoDup (omap sourceTag nodes) -> ~ hasDuplicateSource nodes.
Proof.
  intros Hnd (l1 & l2 & l3 & op1 & op2 & tag & c1 & c2 & ->).
  rewrite omap_app in Hnd. cbn in Hnd. rewrite omap_app in Hnd. cbn in Hnd.
  apply NoDup_app in Hnd as (_ & _ & Hnd).
  apply NoDup_cons in Hnd as [Hnot _].
  apply Hnot. apply elem_of_app. right. left.
Qed.

Lemma noDup_moves (nodes : list Node) :
  NoDup (omap moveTargetTag nodes) -> ~ hasMultipleMoveTargets nodes.
Proof.
  intros Hnd (l1 & l2 & l3 & tag & ->).
  rewrite omap_app in Hnd. cbn in Hnd. rewrite omap_app in Hnd. cbn in Hnd.
  apply NoDup_app in Hnd as (_ & _ & Hnd).
  apply NoDup_cons in Hnd as [Hnot _].
  apply Hnot. apply elem_of_app. right. left.
Qed.

Lemma source_elem_snoc (pre : list Node) (n : Node) operation tag blockContent :
  sourceTag n = None ->
  StructuralSourceNode operation tag blockContent ∈ pre ++ [n] <->
  StructuralSourceNode operation tag blockContent ∈ pre.
Proof.
  intros Hn. rewrite elem_of_app, list_elem_of_singleton.
  split; [|by left]. intros [H| <-]; [done | discriminate].
Qed.

(** A node that is not a source leaves [allSources] as it is. *)
Lemma scanned_allSources_snoc (sc : scan) (pre : list Node) (n : Node) :
  sourceTag n = None ->
  (forall tag sd,
    allSources sc !! tag = Some sd <->
    exists operation blockContent,
      StructuralSourceNode operation tag blockContent ∈ pre /\
      sd = detailOf operation tag blockContent) ->
  forall tag sd,
    allSources sc !! tag = Some sd <->
    exists operation blockContent,
      StructuralSourceNode operation tag blockContent ∈ pre ++ [n] /\
      sd = detailOf operation tag blockContent.
Proof.
  intros Hn Hsrc tag sd. rewrite Hsrc.
  split; intros (o & b & H & ->); exists o, b; (split; [|done]);
    by apply (source_elem_snoc pre n o tag b Hn).
Qed.

(** A node that is neither a source nor a target leaves the scan as it
    is. *)
Lemma scanned_snoc_plain (sc : scan) (pre : list Node) (n : Node) :
  sourceTag n = None -> moveTargetTag n = None ->
  (forall tag, targetFor tag n = None) ->
  scanned sc pre -> scanned sc (pre ++ [n]).
Proof.
  intros Hn1 Hn2 Hn3 [Hs Hm Hsrc Htgt Hcnt].
  split; rewrite ?omap_app; cbn; rewrite ?Hn1, ?Hn2, ?app_nil_r; try done.
  - by apply scanned_allSources_snoc.
  - intros tag. rewrite omap_app. cbn. by rewrite Hn3, app_nil_r.
Qed.

(** One node of the pre-scan. *)
Lemma prescanStep_spec (sc : scan) (pre : list Node) (n : Node) :
  scanned sc pre ->
  match prescanStep selfCall sc n with
  | Continue sc' => scanned sc' (pre ++ [n])
  | Return out err =>
      out = [] /\
      ((exists tag, err = DuplicateSourceTag tag /\ sourceTag n = Some tag /\
                    tag ∈ omap sourceTag pre) \/
       (exists tag, err = MultipleMoveTargets tag /\ moveTargetTag n = Some tag /\
                    tag ∈ omap moveTargetTag pre))
  | OutOfFuel => False
  end.
Proof.
  intros Hsc.
  destruct n as [text|editType content editorID|operation tag blockContent|operation tag];
    cbn [prescanStep].
  - by apply scanned_snoc_plain.
  - by apply scanned_snoc_plain.
  - destruct Hsc as [Hs Hm Hsrc Htgt Hcnt].
    destruct (allSources sc !! tag) as [sd|] eqn:Hl.
    + split; [done|]. left. exists tag. split; [done|]. split; [done|].
      apply Hsrc in Hl as (o & b & Hin & _). apply sourceTag_elem. eauto.
    + rewrite transformBlock_self.
      assert (Hfresh : tag ∉ omap sourceTag pre).
      { intros (o & b & Hin)%sourceTag_elem.
        assert (allSources sc !! tag = Some (detailOf o tag b)) as Hsome
          by (apply Hsrc; eauto).
        congruence. }
      split; cbn [allSources allTargets moveTargetCounts].
      * rewrite omap_app. cbn. apply NoDup_app. split; [done|].
        split; [|apply NoDup_singleton].
        intros x Hx ->%list_elem_of_singleton. done.
      * rewrite omap_app. cbn. by rewrite app_nil_r.
      * intros tag' sd. rewrite lookup_insert. case_decide as Heq.
        -- subst tag'. split.
           ++ intros [= <-]. exists operation, blockContent.
              split; [|done]. apply elem_of_app. right. left.
           ++ intros (o & b & [Hin|Hin]%elem_of_app & ->).
              ** exfalso. apply Hfresh, sourceTag_elem. eauto.
              ** apply list_elem_of_singleton in Hin. by injection Hin as -> ->.
        -- rewrite Hsrc. setoid_rewrite elem_of_app.
           split; intros (o & b & H & ->); exists o, b; (split; [|done]).
           ++ by left.
           ++ destruct H as [H|H]; [done|].
              apply list_elem_of_singleton in H. congruence.
      * intros tag'. rewrite omap_app. cbn. rewrite app_nil_r. apply Htgt.
      * intros tag'. rewrite omap_app. cbn. rewrite app_nil_r. apply Hcnt.
  - destruct Hsc as [Hs Hm Hsrc Htgt Hcnt].
    assert (Htargets : forall tag',
      default [] (<[tag := targetsOf sc tag ++
                     [{| tdOperation := operation; tdTag := tag |}]]>
                    (allTargets sc) !! tag') =
      omap (targetFor tag') (pre ++ [StructuralTargetNode operation tag])).
    { intros tag'. rewrite omap_app. cbn. rewrite lookup_insert.
      case_decide as Heq.
      - subst tag'. cbn. by rewrite Htgt.
      - rewrite app_nil_r. apply Htgt. }
    destruct (str_eqb operation OperationMove) eqn:Hop.
    + pose proof (Hcnt tag) as Hc. case_decide as Hin.
      * rewrite Hc. cbn. split; [done|]. right. exists tag.
        split; [done|]. split; [|done]. cbn. by rewrite Hop.
      * rewrite Hc. cbn.
        split; cbn [allSources allTargets moveTargetCounts].
        -- rewrite omap_app. cbn. by rewrite app_nil_r.
        -- rewrite omap_app. cbn. rewrite Hop. apply NoDup_app. split; [done|].
           split; [|apply NoDup_singleton].
           intros x Hx ->%list_elem_of_singleton. done.
        -- by apply scanned_allSources_snoc.
        -- exact Htargets.
        -- intros tag'. unfold moveCount. cbn. rewrite lookup_insert.
           rewrite omap_app. cbn. rewrite Hop.
           case_decide as Heq.
           ++ subst tag'. cbn. rewrite decide_True; [done|].
              apply elem_of_app. right. left.
           ++ pose proof (Hcnt tag') as Hc'. unfold moveCount in Hc'.
              rewrite Hc'. repeat case_decide; try done.
              ** exfalso. apply H0. apply elem_of_app. by left.
              ** exfalso. apply elem_of_app in H0 as [H0|H0]; [done|].
                 apply list_elem_of_singleton in H0. congruence.
    + split; cbn [allSources allTargets moveTargetCounts].
      * rewrite omap_app. cbn. by rewrite app_nil_r.
      * rewrite omap_app. cbn. rewrite Hop. by rewrite app_nil_r.
      * by apply scanned_allSources_snoc.
      * exact Htargets.
      * intros tag'. rewrite omap_app. cbn. rewrite Hop, app_nil_r. apply Hcnt.
Qed.

End prescan_facts.

Section transform_facts.

Lemma sourceTag_Some (n : Node) tag :
  sourceTag n = Some tag ->
  exists operation blockContent, n = StructuralSourceNode operation tag blockContent.
Proof. destruct n; cbn; try discriminate. intros [= ->]. eauto. Qed.

Lemma moveTargetTag_Some (n : Node) tag :
  moveTargetTag n = Some tag -> n = StructuralTargetNode OperationMove tag.
Proof.
  destruct n as [| | |operation tag']; cbn; try discriminate.
  destruct (str_eqb operation OperationMove) eqn:Hop; [|discriminate].
  apply str_eqb_eq in Hop. intros [= ->]. by subst.
Qed.

(** The first loop. *)
Lemma prescan_spec (nodes : list Node) (sc : scan) (pre : list Node) :
  scanned sc pre ->
  match prescan selfCall sc nodes with
  | Continue sc' => scanned sc' (pre ++ nodes)
  | Return out err =>
      out = [] /\
      (hasDuplicateSource (pre ++ nodes) \/ hasMultipleMoveTargets (pre ++ nodes))
  | OutOfFuel => False
  end.
Proof.
  revert sc pre. induction nodes as [|n nodes IH]; intros sc pre Hsc; cbn [prescan].
  - by rewrite app_nil_r.
  - pose proof (prescanStep_spec sc pre n Hsc) as Hstep.
    destruct (prescanStep selfCall sc n) as [sc'|out err|]; [| |done].
    + specialize (IH sc' (pre ++ [n]) Hstep).
      by rewrite <- app_assoc in IH.
    + destruct Hstep as [-> [(tag & _ & Hn & Hin)|(tag & _ & Hn & Hin)]];
        (split; [done|]).
      * left. apply sourceTag_Some in Hn as (op2 & c2 & ->).
        apply sourceTag_elem in Hin as (op1 & c1 & Hin).
        apply list_elem_of_split in Hin as (l1 & l2 & ->).
        exists l1, l2, nodes, op1, op2, tag, c1, c2.
        by rewrite <- app_assoc.
      * right. apply moveTargetTag_Some in Hn as ->.
        apply moveTargetTag_elem in Hin.
        apply list_elem_of_split in Hin as (l1 & l2 & ->).
        exists l1, l2, nodes, tag. by rewrite <- app_assoc.
Qed.

Lemma render_concat (sc : scan) (nodes : list Node) :
  render sc nodes = concat (renderNode sc <$> nodes).
Proof.
  unfold render.
  assert (H : forall sb, fold_left (fun sb n => sb ++ renderNode sc n) nodes sb =
                         sb ++ concat (renderNode sc <$> nodes)).
  { induction nodes as [|n nodes IH]; intros sb; cbn.
    - by rewrite app_nil_r.
    - by rewrite IH, <- app_assoc. }
  apply (H []).
Qed.

(** [TransformToCleanView] in one piece: the pre-scan decides between a
    conflict and the rendering. *)
Lemma TransformToCleanView_cases (nodes : list Node) :
  (exists err, TransformToCleanView nodes = ([], Some err) /\
               (hasDuplicateSource nodes \/ hasMultipleMoveTargets nodes)) \/
  (exists sc, prescan selfCall emptyScan nodes = Continue sc /\
              scanned sc nodes /\ scanOf nodes = markMoves sc /\
              TransformToCleanView nodes =
                (concat (renderNode (scanOf nodes) <$> nodes), None)).
Proof.
  pose proof (TransformToCleanView_unfold nodes) as Hu.
  pose proof (prescan_spec nodes emptyScan [] scanned_empty) as Hp.
  unfold transformBody in Hu. fold selfCall in Hu. unfold scanOf.
  destruct (prescan selfCall emptyScan nodes) as [sc|out err|]; [| |done].
  - right. exists sc. cbn in Hp. injection Hu as Hu.
    rewrite render_concat in Hu. done.
  - left. destruct Hp as [-> Hp]. exists err. injection Hu as Hu. done.
Qed.

Lemma TransformToCleanView_error (nodes : list Node) out err :
  TransformToCleanView nodes = (out, Some err) ->
  out = [] /\ (hasDuplicateSource nodes \/ hasMultipleMoveTargets nodes).
Proof.
  destruct (TransformToCleanView_cases nodes)
    as [(err' & -> & H)|(sc & _ & _ & _ & ->)]; [|discriminate].
  by intros [= <- _].
Qed.

Lemma TransformToCleanView_ok (nodes : list Node) out :
  TransformToCleanView nodes = (out, None) ->
  out = concat (renderNode (scanOf nodes) <$> nodes) /\
  exists sc, scanned sc nodes /\ scanOf nodes = markMoves sc.
Proof.
  destruct (TransformToCleanView_cases nodes)
    as [(err' & -> & H)|(sc & _ & Hsc & Hof & ->)]; [discriminate|].
  intros [= <-]. split; [done|]. by exists sc.
Qed.

Lemma markMoves_lookup (sc : scan) tag :
  allSources (markMoves sc) !! tag = markUsed sc tag <$> allSources sc !! tag.
Proof.
  cbn. rewrite map_lookup_imap. by destruct (allSources sc !! tag).
Qed.

Lemma targetsOf_lookup (sc : scan) tag t :
  t ∈ targetsOf sc tag ->
  exists targets, allTargets sc !! tag = Some targets /\ t ∈ targets /\
                  0 < length targets.
Proof.
  unfold targetsOf. destruct (allTargets sc !! tag) as [targets|]; cbn.
  - intros H. exists targets. split; [done|]. split; [done|].
    destruct targets; [inversion H | cbn; lia].
  - intros H. inversion H.
Qed.

Lemma target_scanned (sc : scan) (nodes : list Node) operation tag :
  scanned sc nodes ->
  StructuralTargetNode operation tag ∈ nodes ->
  exists targets, allTargets sc !! tag = Some targets /\ 0 < length targets /\
    existsb (fun t => str_eqb (tdOperation t) operation) targets = true.
Proof.
  intros Hsc Hin.
  assert ({| tdOperation := operation; tdTag := tag |} ∈ targetsOf sc tag) as Ht.
  { rewrite (scanned_allTargets _ _ Hsc). apply list_elem_of_omap.
    eexists. split; [exact Hin|]. cbn. by rewrite decide_True. }
  apply targetsOf_lookup in Ht as (targets & Hl & Ht & Hlen).
  exists targets. split; [done|]. split; [done|].
  apply existsb_exists. eexists. split; [by apply list_elem_of_In|].
  cbn. by apply str_eqb_eq.
Qed.

Lemma source_scanned (sc : scan) (nodes : list Node) operation tag blockContent :
  scanned sc nodes ->
  StructuralSourceNode operation tag blockContent ∈ nodes ->
  allSources sc !! tag = Some (detailOf operation tag blockContent).
Proof. intros Hsc Hin. apply (scanned_allSources _ _ Hsc). eauto. Qed.

End transform_facts.

Section claims.

Lemma markUsed_fields (sc : scan) tag sd :
  sdOperation (markUsed sc tag sd) = sdOperation sd /\
  transformedBlock (markUsed sc tag sd) = transformedBlock sd.
Proof. unfold markUsed. by repeat case_match. Qed.


Lemma TransformCleanView_eq (nodes : list Node) :
  TransformCleanView nodes =
  ((TransformToCleanView nodes).1,
   match (TransformToCleanView nodes).2 with
   | Some e => [{| Message := e; Line := 0; Column := 0; Severity := SeverityError |}]
   | None => []
   end).
Proof.
  unfold TransformCleanView.
  by destruct (TransformToCleanView nodes) as [text [err|]].
Qed.



(** C10. When [TransformCleanView] reports an issue of severity error,
    the text it returns is empty. *)
Theorem error_means_empty_output (nodes : list Node) out issues :
  TransformCleanView nodes = (out, issues) ->
  (exists issue, issue ∈ issues /\ Severity issue = SeverityError) ->
  out = [].
Proof.
  unfold TransformCleanView.
  destruct (TransformToCleanView nodes) as [text [err|]] eqn:Hr.
  - intros [= <- <-] _. by apply TransformToCleanView_error in Hr as [-> _].
  - intros [= <- <-] (issue & Hin & _). inversion Hin.
Qed.

(** C10 on a document with two sources of one tag. *)
Lemma error_means_empty_output_witness :
  (TransformCleanView conflictingMove).1 = [].
Proof.
  apply (error_means_empty_output conflictingMove _
           [{| Message := DuplicateSourceTag (lit "dup"); Line := 0; Column := 0;
               Severity := SeverityError |}]).
  - vm_compute. reflexivity.
  - eexists. split; [left | reflexivity].
Defined.

Lemma TransformCleanView_text (nodes : list Node) :
  (TransformCleanView nodes).1 = (TransformToCleanView nodes).1.
Proof.
  unfold TransformCleanView.
  by destruct (TransformToCleanView nodes) as [text [err|]].
Qed.

(** C3, amended. When the rendering does not stop on a conflict, a move
    source with a move target of its tag (then its only one) is marked
    as used, the output is the in-order concatenation of one piece per
    node, the piece of the source is empty and the piece of the target is
    the rendered block. *)
Theorem move_consumption (nodes : list Node) out tag blockContent :
  TransformToCleanView nodes = (out, None) ->
  StructuralSourceNode OperationMove tag blockContent ∈ nodes ->
  StructuralTargetNode OperationMove tag ∈ nodes ->
  (exists sd, allSources (scanOf nodes) !! tag = Some sd /\ isUsedAsMove sd = true) /\
  out = concat (renderNode (scanOf nodes) <$> nodes) /\
  renderNode (scanOf nodes) (StructuralSourceNode OperationMove tag blockContent) = [] /\
  renderNode (scanOf nodes) (StructuralTargetNode OperationMove tag) =
    renderedBlock OperationMove tag blockContent.
Proof.
  intros Hr Hsrc Htgt.
  apply TransformToCleanView_ok in Hr as (-> & sc & Hsc & Hof).
  destruct (target_scanned sc nodes _ _ Hsc Htgt) as (targets & Hl & Hlen & Hex).
  assert (Hcount : moveCount sc tag = 1).
  { rewrite (scanned_counts _ _ Hsc). rewrite decide_True; [done|].
    by apply moveTargetTag_elem. }
  assert (Hused : markUsed sc tag (detailOf OperationMove tag blockContent) =
                  {| sdOperation := OperationMove; sdTag := tag;
                     sdBlockContent := blockContent;
                     transformedBlock := renderedBlock OperationMove tag blockContent;
                     isUsedAsMove := true |}).
  { unfold markUsed. cbn [detailOf sdOperation sdTag sdBlockContent transformedBlock].
    rewrite (proj2 (str_eqb_eq _ _) eq_refl), Hl.
    apply Nat.ltb_lt in Hlen. rewrite Hlen, Hex, Hcount. done. }
  assert (Hlook : allSources (scanOf nodes) !! tag =
                  Some (markUsed sc tag (detailOf OperationMove tag blockContent))).
  { by rewrite Hof, markMoves_lookup,
      (source_scanned sc nodes _ tag blockContent Hsc Hsrc). }
  rewrite Hused in Hlook.
  split; [eexists; split; [exact Hlook | done]|].
  split; [done|].
  cbn [renderNode]. rewrite Hlook. cbn [isUsedAsMove sdOperation transformedBlock].
  rewrite (proj2 (str_eqb_eq _ _) eq_refl). cbn [negb].
  split; [done|]. by destruct (hasError _).
Qed.

(** C3, amended, on the input of the specification: the block is
    rendered at the target only. *)
Lemma move_consumption_witness :
  let nodes := (ParseEditMLToNodes (lit "{move~block~T1}...{move:T1}")).1 in
  TransformToCleanView nodes = (lit "...block", None) /\
  renderNode (scanOf nodes)
    (StructuralSourceNode OperationMove (lit "T1") (lit "block")) = [] /\
  renderNode (scanOf nodes) (StructuralTargetNode OperationMove (lit "T1")) =
    lit "block".
Proof.
  intros nodes.
  assert (Hr : TransformToCleanView nodes = (lit "...block", None))
    by (vm_compute; reflexivity).
  split; [exact Hr|].
  destruct (move_consumption nodes (lit "...block") (lit "T1") (lit "block") Hr)
    as (_ & _ & Hsource & Htarget).
  - vm_compute. left.
  - vm_compute. right. right. left.
  - split; [exact Hsource|]. rewrite Htarget. vm_compute. reflexivity.
Defined.

Lemma copy_is_not_move : str_eqb OperationCopy OperationMove = false.
Proof. by apply str_eqb_neq. Qed.

(** C4, amended. When the rendering does not stop on a conflict, a copy
    source with at least one copy target of its tag renders its block at
    its own position and at each of these targets. *)
Theorem copy_multiplicity (nodes : list Node) out tag blockContent :
  TransformToCleanView nodes = (out, None) ->
  StructuralSourceNode OperationCopy tag blockContent ∈ nodes ->
  StructuralTargetNode OperationCopy tag ∈ nodes ->
  out = concat (renderNode (scanOf nodes) <$> nodes) /\
  renderNode (scanOf nodes) (StructuralSourceNode OperationCopy tag blockContent) =
    renderedBlock OperationCopy tag blockContent /\
  renderNode (scanOf nodes) (StructuralTargetNode OperationCopy tag) =
    renderedBlock OperationCopy tag blockContent.
Proof.
  intros Hr Hsrc Htgt.
  apply TransformToCleanView_ok in Hr as (-> & sc & Hsc & Hof).
  destruct (target_scanned sc nodes _ _ Hsc Htgt) as (targets & Hl & Hlen & Hex).
  assert (Hlook : allSources (scanOf nodes) !! tag =
                  Some (detailOf OperationCopy tag blockContent)).
  { rewrite Hof, markMoves_lookup,
      (source_scanned sc nodes _ tag blockContent Hsc Hsrc).
    cbn [fmap option_fmap option_map]. unfold markUsed.
    cbn [detailOf sdOperation]. by rewrite copy_is_not_move. }
  split; [done|].
  cbn [renderNode]. rewrite Hlook.
  cbn [detailOf isUsedAsMove sdOperation transformedBlock].
  rewrite copy_is_not_move, (proj2 (str_eqb_eq _ _) eq_refl). cbn [negb].
  rewrite Hof. cbn [markMoves allTargets]. rewrite Hl, Hex. cbn [negb orb].
  split; by destruct (hasError _).
Qed.

(** C4, amended, on the input of the specification: three occurrences
    of the block. *)
Lemma copy_multiplicity_witness :
  let nodes := (ParseEditMLToNodes (lit "{copy~X~T2}...{copy:T2}...{copy:T2}")).1 in
  TransformToCleanView nodes = (lit "X...X...X", None) /\
  renderNode (scanOf nodes)
    (StructuralSourceNode OperationCopy (lit "T2") (lit "X")) = lit "X" /\
  renderNode (scanOf nodes) (StructuralTargetNode OperationCopy (lit "T2")) =
    lit "X".
Proof.
  intros nodes.
  assert (Hr : TransformToCleanView nodes = (lit "X...X...X", None))
    by (vm_compute; reflexivity).
  split; [exact Hr|].
  destruct (copy_multiplicity nodes (lit "X...X...X") (lit "T2") (lit "X") Hr)
    as (_ & Hsource & Htarget).
  - vm_compute. left.
  - vm_compute. right. right. left.
  - rewrite Hsource, Htarget. vm_compute. by split.
Defined.

End claims.

Section counterexamples.

Lemma concat_nil_lookup (pieces : list str) i piece :
  [] = concat pieces -> pieces !! i = Some piece -> piece = [].
Proof.
  revert i. induction pieces as [|p pieces IH]; intros i Hc Hl; [done|].
  cbn in Hc. symmetry in Hc. apply app_eq_nil in Hc as [-> Hc].
  destruct i as [|i]; cbn in Hl; [by injection Hl as <-|].
  eapply IH; [by symmetry | exact Hl].
Qed.

(** C3 as stated fails on a document that has a conflict elsewhere: the
    rendering returns the empty text, so the block is not emitted at the
    target. *)
Lemma move_consumption_counterexample : ~ moveConsumption conflictingMove.
Proof.
  intros H.
  destruct (H (lit "T1") (lit "block")) as (pieces & _ & Hout & _ & Ht).
  - left.
  - exists [StructuralSourceNode OperationMove (lit "T1") (lit "block")],
           [StructuralSourceNode OperationCopy (lit "dup") (lit "a");
            StructuralSourceNode OperationCopy (lit "dup") (lit "b")].
    split; [done|]. split.
    + intros Hin%list_elem_of_singleton. discriminate.
    + intros Hin. apply elem_of_cons in Hin as [Hin|Hin]; [discriminate|].
      apply list_elem_of_singleton in Hin. discriminate.
  - specialize (Ht 1 eq_refl).
    assert (Hempty : (TransformCleanView conflictingMove).1 = [])
      by (vm_compute; reflexivity).
    rewrite Hempty in Hout.
    apply (concat_nil_lookup pieces 1 _ Hout) in Ht.
    vm_compute in Ht. discriminate.
Qed.

(** C4 as stated fails on a document that has a conflict elsewhere: the
    rendering returns the empty text, so the block is emitted nowhere. *)
Lemma copy_multiplicity_counterexample : ~ copyMultiplicity conflictingCopy.
Proof.
  intros H.
  destruct (H (lit "T2") (lit "X")) as (pieces & _ & Hout & _ & Ht).
  - left.
  - right. left.
  - specialize (Ht 1 eq_refl).
    assert (Hempty : (TransformCleanView conflictingCopy).1 = [])
      by (vm_compute; reflexivity).
    rewrite Hempty in Hout.
    apply (concat_nil_lookup pieces 1 _ Hout) in Ht.
    vm_compute in Ht. discriminate.
Qed.

End counterexamples.

Section structural_decoding.

#[local] Arguments Ascii.eqb : simpl never.

Lemma replace_keep (x c : ascii) (s : str) :
  c <> "\"%char ->
  ReplaceAll (c :: s) ["\"%char; x] [x] = c :: ReplaceAll s ["\"%char; x] [x].
Proof.
  intros Hc. unfold ReplaceAll. cbn [replaceFrom HasPrefix].
  destruct (Ascii.eqb_spec "\" c) as [<-|]; [done|]. done.
Qed.

Lemma replace_hit (x : ascii) (s : str) :
  ReplaceAll ("\"%char :: x :: s) ["\"%char; x] [x] =
  x :: ReplaceAll s ["\"%char; x] [x].
Proof.
  unfold ReplaceAll. cbn [replaceFrom HasPrefix length Nat.sub].
  rewrite !Ascii.eqb_refl. by destruct s.
Qed.

Lemma replace_miss (x d : ascii) (s : str) :
  d <> x ->
  ReplaceAll ("\"%char :: d :: s) ["\"%char; x] [x] =
  "\"%char :: ReplaceAll (d :: s) ["\"%char; x] [x].
Proof.
  intros Hd. unfold ReplaceAll. cbn [replaceFrom HasPrefix].
  rewrite Ascii.eqb_refl. destruct (Ascii.eqb_spec x d) as [->|]; [done|]. done.
Qed.

Lemma replace_last (x : ascii) : ReplaceAll ["\"%char] ["\"%char; x] [x] = ["\"%char].
Proof. unfold ReplaceAll. cbn. by rewrite Ascii.eqb_refl. Qed.

(** The backslash pass keeps a first byte that is not a tilde from
    becoming one. *)
Lemma backslash_pass_head (e : ascii) (s : str) :
  e <> "~"%char ->
  exists e' t, ReplaceAll (e :: s) ["\"%char; "\"%char] ["\"%char] = e' :: t /\
               e' <> "~"%char.
Proof.
  intros He. destruct (Ascii.eqb_spec e "\") as [->|Hb].
  - destruct s as [|d s]; [rewrite replace_last; by eauto|].
    destruct (Ascii.eqb_spec d "\") as [->|Hd].
    + rewrite replace_hit. by eauto.
    + rewrite replace_miss by done. by eauto.
  - rewrite replace_keep by done. by eauto.
Qed.

Lemma single_keep (special : ascii -> bool) (c : ascii) (r : str) :
  c <> "\"%char ->
  decodeSinglePass special (c :: r) = c :: decodeSinglePass special r.
Proof.
  intros Hc. cbn [decodeSinglePass]. by destruct (Ascii.eqb_spec c "\").
Qed.

Lemma single_hit (special : ascii -> bool) (d : ascii) (r : str) :
  special d = true ->
  decodeSinglePass special ("\"%char :: d :: r) = d :: decodeSinglePass special r.
Proof. intros Hd. cbn [decodeSinglePass]. by rewrite Ascii.eqb_refl, Hd. Qed.

Lemma single_miss (special : ascii -> bool) (d : ascii) (r : str) :
  special d = false ->
  decodeSinglePass special ("\"%char :: d :: r) =
  "\"%char :: decodeSinglePass special (d :: r).
Proof. intros Hd. cbn [decodeSinglePass]. by rewrite Ascii.eqb_refl, Hd. Qed.

Lemma structuralHandled_other (d : ascii) :
  d <> "\"%char -> d <> "~"%char -> structuralHandled d = false.
Proof.
  intros H1 H2. unfold structuralHandled.
  by destruct (Ascii.eqb_spec d "\"), (Ascii.eqb_spec d "~").
Qed.

Lemma before_tilde_keep (c : ascii) (r : str) :
  c <> "\"%char ->
  escapedBackslashBeforeTilde (c :: r) = escapedBackslashBeforeTilde r.
Proof.
  intros Hc. cbn [escapedBackslashBeforeTilde]. by destruct (Ascii.eqb_spec c "\").
Qed.

Lemma before_tilde_escape (d : ascii) (r : str) :
  d <> "\"%char ->
  escapedBackslashBeforeTilde ("\"%char :: d :: r) = escapedBackslashBeforeTilde r.
Proof.
  intros Hd. cbn [escapedBackslashBeforeTilde]. rewrite Ascii.eqb_refl.
  by destruct (Ascii.eqb_spec d "\").
Qed.

Lemma before_tilde_backslash (r : str) :
  escapedBackslashBeforeTilde ("\"%char :: "\"%char :: r) =
  match r with
  | e :: _ => Ascii.eqb e "~"
  | [] => false
  end || escapedBackslashBeforeTilde r.
Proof. cbn [escapedBackslashBeforeTilde]. by rewrite Ascii.eqb_refl. Qed.

(** The two passes of the code against the single pass over the same two
    escapes: equal unless an escaped backslash stands before a tilde, and
    shorter then. *)
Lemma two_passes (raw : str) :
  length (unescapeStructuralBlockContent raw) <=
    length (decodeSinglePass structuralHandled raw) /\
  (escapedBackslashBeforeTilde raw = false ->
   unescapeStructuralBlockContent raw = decodeSinglePass structuralHandled raw) /\
  (escapedBackslashBeforeTilde raw = true ->
   length (unescapeStructuralBlockContent raw) <
     length (decodeSinglePass structuralHandled raw)).
Proof.
  unfold unescapeStructuralBlockContent.
  change (lit "\\") with ["\"%char; "\"%char]. change (lit "\") with ["\"%char].
  change (lit "\~") with ["\"%char; "~"%char]. change (lit "~") with ["~"%char].
  remember (length raw) as n eqn:Hn. revert raw Hn.
  induction (lt_wf n) as [n _ IH]. intros raw ->.
  assert (IH' : forall r : str, length r < length raw -> _) by
    (intros r Hr; exact (IH (length r) Hr r eq_refl)).
  clear IH. destruct raw as [|c r]; [done|].
  destruct (Ascii.eqb_spec c "\") as [->|Hc].
  2:{ rewrite !replace_keep, single_keep, before_tilde_keep by done. cbn [length].
      destruct (IH' r) as (H1 & H2 & H3); [cbn; lia|].
      split; [lia|]. split; [intros H; by rewrite H2 | intros H; apply H3 in H; lia]. }
  destruct r as [|d r']; [by rewrite !replace_last|].
  destruct (Ascii.eqb_spec d "\") as [->|Hd].
  - rewrite replace_hit, single_hit, before_tilde_backslash by done.
    destruct r' as [|e r''].
    + change (ReplaceAll [] ["\"%char; "\"%char] ["\"%char]) with (@nil ascii).
      rewrite replace_last. done.
    + destruct (Ascii.eqb_spec e "~") as [->|He]; cbn [orb].
      * rewrite (replace_keep "\" "~") by done.
        rewrite replace_hit, (single_keep _ "~") by done. cbn [length].
        destruct (IH' r'') as (H1 & _); [cbn; lia|].
        split; [lia|]. split; [done|]. intros _. lia.
      * destruct (backslash_pass_head e r'' He) as (e' & t & Heq & He').
        rewrite Heq, replace_miss by done. rewrite <- Heq. cbn [length].
        destruct (IH' (e :: r'')) as (H1 & H2 & H3); [cbn; lia|].
        split; [lia|]. split; [intros H; by rewrite H2 | intros H; apply H3 in H; lia].
  - rewrite before_tilde_escape by done.
    destruct (Ascii.eqb_spec d "~") as [->|Ht].
    + rewrite (replace_miss "\" "~"), (replace_keep "\" "~") by done.
      rewrite replace_hit, single_hit by done. cbn [length].
      destruct (IH' r') as (H1 & H2 & H3); [cbn; lia|].
      split; [lia|]. split; [intros H; by rewrite H2 | intros H; apply H3 in H; lia].
    + rewrite (replace_miss "\" d), (replace_keep "\" d) by done.
      rewrite (replace_miss "~" d), (replace_keep "~" d) by done.
      rewrite single_miss, single_keep by (by try apply structuralHandled_other).
      cbn [length].
      destruct (IH' r') as (H1 & H2 & H3); [cbn; lia|].
      split; [lia|]. split; [intros H; by rewrite H2 | intros H; apply H3 in H; lia].
Qed.

(** Without escaped brace, the single pass over the two escapes of the
    code is the single pass over the four of the specification. *)
Lemma handled_is_spec (raw : str) :
  Contains raw (lit "\{") = false -> Contains raw (lit "\}") = false ->
  decodeSinglePass structuralHandled raw = structuralDecodeSpec raw.
Proof.
  unfold structuralDecodeSpec.
  change (lit "\{") with ["\"%char; "{"%char]. change (lit "\}") with ["\"%char; "}"%char].
  remember (length raw) as n eqn:Hn. revert raw Hn.
  induction (lt_wf n) as [n _ IH]. intros raw -> H1 H2.
  assert (IH' : forall r : str, length r < length raw -> _) by
    (intros r Hr; exact (IH (length r) Hr r eq_refl)).
  clear IH. destruct raw as [|c r]; [done|].
  cbn [Contains] in H1, H2.
  apply orb_false_iff in H1 as [P1 H1]. apply orb_false_iff in H2 as [P2 H2].
  destruct (Ascii.eqb_spec c "\") as [->|Hc].
  2:{ rewrite !single_keep by done. f_equal. apply IH'; [cbn; lia|done|done]. }
  destruct r as [|d r']; [done|].
  cbn [HasPrefix] in P1, P2. rewrite Ascii.eqb_refl in P1, P2. cbn [andb] in P1, P2.
  assert (Hl : d <> "{"%char).
  { intros ->. rewrite Ascii.eqb_refl in P1. by destruct r'. }
  assert (Hr : d <> "}"%char).
  { intros ->. rewrite Ascii.eqb_refl in P2. by destruct r'. }
  assert (Hsame : structuralEscapes d = structuralHandled d).
  { unfold structuralEscapes, structuralHandled.
    by destruct (Ascii.eqb_spec d "\"), (Ascii.eqb_spec d "{"),
      (Ascii.eqb_spec d "}"), (Ascii.eqb_spec d "~"). }
  cbn [Contains] in H1, H2.
  apply orb_false_iff in H1 as [Q1 H1']. apply orb_false_iff in H2 as [Q2 H2'].
  destruct (structuralHandled d) eqn:Hh.
  - rewrite !single_hit by congruence. f_equal. apply IH'; [cbn; lia|done|done].
  - rewrite !single_miss by congruence. f_equal.
    apply IH'; [cbn; lia| |]; cbn [Contains]; by rewrite ?Q1, ?Q2, ?H1', ?H2'.
Qed.

End structural_decoding.

Section more_claims.

(** C2. The overlap resolver of the parser is the one the specification
    describes: the sort yields the candidates ordered by start offset,
    the longer span first among equal starts, and the loop over them is
    the walk with a cursor, which drops a candidate that starts before
    the cursor, emits the text gap, the node, and at the end the
    remaining text. *)
Theorem overlap_resolver_refinement (input : str) (candidates : list genericMatch) :
  sortSlice candidates ≡ₚ candidates /\
  StronglySorted before (sortSlice candidates) /\
  interleave input (sortSlice candidates) = merge input 0 (sortSlice candidates) /\
  ParseEditMLToNodes input = (merge input 0 (sortSlice (allMatches input)), None).
Proof.
  split; [apply sortSlice_perm|].
  split; [apply sortSlice_sorted|].
  split; [apply interleave_merge|].
  unfold ParseEditMLToNodes. by rewrite interleave_merge.
Qed.

Lemma literalOf_perm (input : str) (l l' : list genericMatch) n form :
  l ≡ₚ l' -> literalOf input l n form -> literalOf input l' n form.
Proof.
  intros Hp. destruct n; cbn; try done;
    intros (m & Hm & Hn & Hf); exists m; (split; [by rewrite <- Hp | done]).
Qed.

(** C9. The parsed nodes, each written back in its original literal form
    (a text node as its text, a markup node as the span of the input it
    was matched on), concatenate to the input.  This holds for every
    input, so also for those whose markup neither overlaps nor nests. *)
Theorem markup_roundtrip (input : str) :
  exists forms : list str,
    Forall2 (literalOf input (allMatches input)) (ParseEditMLToNodes input).1 forms /\
    concat forms = input.
Proof.
  rewrite ParseEditMLToNodes_merge.
  destruct (merge_roundtrip input (sortSlice (allMatches input)) 0
              (sortSlice_ok input)) as (forms & HF & Hcat); [lia|].
  exists forms. split; [|exact Hcat].
  eapply Forall2_impl; [exact HF|].
  intros n form. apply literalOf_perm, sortSlice_perm.
Qed.

(** *** Escape decoding *)

Lemma replaceFrom_absent (old new : str) (s : str) :
  Contains s old = false -> replaceFrom old new 0 s = s.
Proof.
  induction s as [|c s IH]; [done|].
  cbn [Contains replaceFrom]. intros [Hp Hc]%orb_false_iff.
  rewrite Hp. f_equal. by apply IH.
Qed.

Lemma ReplaceAll_absent (s old new : str) :
  Contains s old = false -> ReplaceAll s old new = s.
Proof. apply replaceFrom_absent. Qed.

(** C5 as stated fails on the escaped brace: the code leaves it as it
    is, the decoding of the specification resolves it. *)
Lemma structural_unescape_counterexample :
  unescapeStructuralBlockContent (lit "\{") <> structuralDecodeSpec (lit "\{").
Proof. vm_compute. discriminate. Qed.

(** C5, amended. The decoding of structural block content resolves the
    escaped backslash and the escaped tilde and leaves the escaped braces
    as they are: for every raw content it is the single pass from left to
    right over these two escapes, except exactly where an escaped
    backslash stands directly before a tilde (there the second pass of
    the code decodes again, the divergence of C6).  On a content without
    escaped brace that single pass is the decoding of the
    specification. *)
Theorem structural_unescape (raw : str) :
  (unescapeStructuralBlockContent raw = decodeSinglePass structuralHandled raw <->
   escapedBackslashBeforeTilde raw = false) /\
  (Contains raw (lit "\{") = false -> Contains raw (lit "\}") = false ->
   decodeSinglePass structuralHandled raw = structuralDecodeSpec raw).
Proof.
  split; [|apply handled_is_spec].
  destruct (two_passes raw) as (_ & Heq & Hlt). split; [|exact Heq].
  intros H. destruct (escapedBackslashBeforeTilde raw); [|done].
  specialize (Hlt eq_refl). rewrite H in Hlt. lia.
Qed.

(** C5, amended, on a content with an escaped brace and an escaped tilde,
    and on one with a tilde and a backslash escape. *)
Lemma structural_unescape_witness :
  unescapeStructuralBlockContent (lit "\{\~") = lit "\{~" /\
  unescapeStructuralBlockContent (lit "a\~b\\c") = structuralDecodeSpec (lit "a\~b\\c").
Proof.
  split.
  - destruct (structural_unescape (lit "\{\~")) as [[_ H] _].
    rewrite H by (vm_compute; reflexivity). vm_compute. reflexivity.
  - destruct (structural_unescape (lit "a\~b\\c")) as [[_ H] Hs].
    rewrite H by (vm_compute; reflexivity).
    apply Hs; vm_compute; reflexivity.
Defined.

(** C6. The passes of [unescapeInlineContent] and of
    [unescapeStructuralBlockContent] decode twice: the backslash that
    the first pass produces from an escaped backslash starts an escape
    for the next pass.  The escaped backslash followed by a brace becomes
    the brace alone, where the single left-to-right pass of the
    specification gives a backslash and a brace. *)
Theorem escape_decoding_decodes_twice :
  unescapeInlineContent (lit "\\{") EditTypeAddition = lit "{" /\
  ParseEditMLToNodes (lit "{+\\{+}") =
    ([InlineEditNode EditTypeAddition (lit "{") []], None) /\
  decodeSinglePass additionSpecial (lit "\\{") = lit "\{" /\
  unescapeInlineContent (lit "\\+") EditTypeAddition = lit "+" /\
  unescapeStructuralBlockContent (lit "\\~") = lit "~" /\
  unescapeInlineContent (lit "\\\\{") EditTypeAddition = lit "\{" /\
  decodeSinglePass additionSpecial (lit "\\\\{") = lit "\\{".
Proof. vm_compute. repeat split. Qed.

End more_claims.

Section editor_id.

#[local] Arguments Ascii.eqb : simpl never.

Lemma lazyUntil_None {A} (close : str -> option A) (s : str) :
  (forall k, close (drop k s) = None) -> lazyUntil close s = None.
Proof.
  induction s as [|c s IH]; intros H; cbn [lazyUntil];
    pose proof (H 0) as H0; cbn [drop] in H0; rewrite H0; [done|].
  rewrite IH; [done|]. intros k. apply (H (S k)).
Qed.

Lemma findAllFrom_None {A} (matchAt : str -> option (nat * A)) (s : str) :
  (forall k, matchAt (drop k s) = None) ->
  forall pos skip, findAllFrom matchAt pos skip s = [].
Proof.
  induction s as [|c s IH]; intros H pos skip; cbn [findAllFrom]; [done|].
  assert (Hs : forall k, matchAt (drop k s) = None) by (intros k; apply (H (S k))).
  destruct skip; [|by apply IH].
  pose proof (H 0) as H0. cbn [drop] in H0. rewrite H0. by apply IH.
Qed.

Lemma closeInline_absent (cl : ascii) (content tail : str) :
  Forall (fun c => c <> cl) content ->
  (forall k, closeInline cl (drop k tail) = None) ->
  forall k, closeInline cl (drop k (content ++ tail)) = None.
Proof.
  induction 1 as [|c content Hc _ IH]; intros Htail k; [apply Htail|].
  destruct k as [|k]; cbn [drop app].
  - cbn. destruct (Ascii.eqb_spec c cl); [done|done].
  - by apply IH.
Qed.

Lemma tryEditorID_long (n : nat) (editorID : str) :
  forallb isAlnum editorID = true -> n < length editorID ->
  tryEditorID n (editorID ++ lit "}") = None.
Proof.
  intros Hal Hn. induction n as [|n IH]; cbn [tryEditorID]; [done|].
  rewrite IH by lia.
  replace (HasPrefix (drop (S n) (editorID ++ lit "}")) (lit "}")) with false;
    [by rewrite andb_false_r|].
  rewrite drop_app_le by lia.
  destruct (drop (S n) editorID) as [|c r] eqn:Hd.
  - apply (f_equal length) in Hd. rewrite length_drop in Hd. cbn in Hd. lia.
  - assert (Hc : isAlnum c = true).
    { rewrite forallb_forall in Hal. apply Hal, list_elem_of_In.
      apply (subseteq_drop (S n) editorID). rewrite Hd. left. }
    cbn. destruct (Ascii.eqb_spec "}" c) as [<-|]; [discriminate | done].
Qed.

Lemma editorIDTrailer_long (editorID : str) :
  forallb isAlnum editorID = true -> 5 < length editorID ->
  editorIDTrailer (editorID ++ lit "}") = None.
Proof.
  intros Hal Hn. unfold editorIDTrailer.
  rewrite tryEditorID_long by done.
  destruct editorID as [|c r]; [cbn in Hn; lia|].
  cbn in Hal. apply andb_true_iff in Hal as [Hc _].
  cbn. destruct (Ascii.eqb_spec "}" c) as [<-|]; [discriminate | done].
Qed.

Lemma alnum_not (cl : ascii) (s : str) :
  isAlnum cl = false -> forallb isAlnum s = true -> Forall (fun c => c <> cl) s.
Proof.
  intros Hcl Hs. apply Forall_forall. intros c Hc ->.
  rewrite forallb_forall in Hs. apply list_elem_of_In, Hs in Hc. congruence.
Qed.

Lemma inlineOperators_close (op cl : ascii) :
  (op, cl) ∈ inlineOperators -> isAlnum cl = false /\ cl <> "}"%char.
Proof.
  unfold inlineOperators. rewrite !elem_of_cons, elem_of_nil.
  intros [H|[H|[H|[H|[]]]]]; injection H as -> ->; by split.
Qed.

Lemma inlineSpan_no_close (cl : ascii) (content editorID : str) :
  isAlnum cl = false -> cl <> "}"%char ->
  Forall (fun c => c <> cl) content ->
  forallb isAlnum editorID = true -> 5 < length editorID ->
  forall k, closeInline cl (drop k (content ++ [cl] ++ editorID ++ lit "}")) = None.
Proof.
  intros Hcl Hbrace Hcontent Hal Hlen.
  apply closeInline_absent; [done|].
  intros [|k]; cbn [drop app].
  - cbn. rewrite Ascii.eqb_refl. by apply editorIDTrailer_long.
  - rewrite <- (app_nil_r (editorID ++ lit "}")).
    apply (closeInline_absent cl (editorID ++ lit "}") []).
    + apply Forall_app. split; [by apply alnum_not|].
      constructor; [done | constructor].
    + intros j. by rewrite drop_nil.
Qed.

Lemma matchInline_no_close (op cl : ascii) (s : str) :
  (forall k, closeInline cl (drop k s) = None) ->
  forall k, matchInline op cl (drop k (lit "{" ++ [op] ++ s)) = None.
Proof.
  intros H k. unfold matchInline.
  destruct (drop k (lit "{" ++ [op] ++ s)) as [|b [|o r]] eqn:Hd; try done.
  assert (Hr : r = drop k s).
  { change r with (drop 2 (b :: o :: r)). rewrite <- Hd, drop_drop.
    replace (k + 2) with (2 + k) by lia. by rewrite <- drop_drop. }
  rewrite lazyUntil_None; [by case_match|].
  intros j. rewrite Hr, drop_drop. apply H.
Qed.

(** An inline node of a candidate has an editor id of at most five
    bytes, and so has every inline node of a parse. *)
Lemma parsed_editorID_short (input : str) editType content editorID :
  InlineEditNode editType content editorID ∈ (ParseEditMLToNodes input).1 ->
  length editorID <= 5.
Proof.
  intros [[text Heq]|(m & _ & Hok & Hn)]%ParseEditMLToNodes_elem; [done|].
  destruct Hok as (_ & _ & _ & Hk). by rewrite <- Hn in Hk.
Qed.

(** C7 as stated fails: with an editor id of six bytes the addition is
    not matched and the whole span is parsed as text. *)
Lemma long_editor_id_counterexample :
  FindAll addRegex (inlineSpan "+" "+" (lit "abc") (lit "abcdef")) = [] /\
  ParseEditMLToNodes (lit "{+abc+abcdef}") = ([TextNode (lit "{+abc+abcdef}")], None).
Proof. vm_compute. by split. Qed.

(** C7, amended. The matcher accepts an editor id of one to five bytes
    only: every inline node of a parse has an editor id of at most five
    bytes, and an inline span with a longer alphanumeric id, whose
    content does not hold the closing operator, is matched nowhere by
    the pattern of its kind. *)
Theorem long_editor_id_not_matched (op cl : ascii) (content editorID : str) :
  (op, cl) ∈ inlineOperators ->
  Forall (fun c => c <> cl) content ->
  forallb isAlnum editorID = true -> 5 < length editorID ->
  FindAll (matchInline op cl) (inlineSpan op cl content editorID) = [] /\
  forall input editType c id,
    InlineEditNode editType c id ∈ (ParseEditMLToNodes input).1 -> length id <= 5.
Proof.
  intros [Hcl Hbrace]%inlineOperators_close Hcontent Hal Hlen. split.
  - apply findAllFrom_None. apply matchInline_no_close.
    by apply inlineSpan_no_close.
  - intros input editType c id. apply parsed_editorID_short.
Qed.

(** C7, amended, on a comment with an editor id of seven bytes. *)
Lemma long_editor_id_witness :
  FindAll (matchInline ">" "<") (inlineSpan ">" "<" (lit "see {>this") (lit "editor7")) = [] /\
  forall input editType c id,
    InlineEditNode editType c id ∈ (ParseEditMLToNodes input).1 -> length id <= 5.
Proof.
  apply (long_editor_id_not_matched ">" "<" (lit "see {>this") (lit "editor7")).
  - right. right. left.
  - apply Forall_forall. intros c Hc.
    apply list_elem_of_In in Hc. cbn in Hc.
    intuition (subst; discriminate).
  - vm_compute. reflexivity.
  - vm_compute. lia.
Defined.

End editor_id.

Section termination.

(** C8 as stated fails: no input makes the recursion run out of every
    amount of fuel. *)
Lemma unbounded_recursion_counterexample :
  ~ exists input : str,
      forall fuel, TransformFuel fuel (ParseEditMLToNodes input).1 = None.
Proof.
  intros (input & H).
  specialize (H (S (length input))).
  rewrite TransformFuel_enough in H; [discriminate|].
  pose proof (ParseEditMLToNodes_depth input). lia.
Qed.

(** C8, amended. For every input the recursion of the structural
    resolver is bounded: a depth of one more than the length of the input
    is enough for the transformation of its parse to return, and the
    result is that of [TransformToCleanView]. *)
Theorem recursion_is_bounded (input : str) (fuel : nat) :
  length input < fuel ->
  TransformFuel fuel (ParseEditMLToNodes input).1 =
  Some (TransformToCleanView (ParseEditMLToNodes input).1).
Proof.
  intros Hfuel. apply TransformFuel_enough.
  pose proof (ParseEditMLToNodes_depth input). lia.
Qed.

(** C8, amended, on a source block that holds a structural block. *)
Lemma recursion_is_bounded_witness :
  TransformFuel 31 (ParseEditMLToNodes (lit "{move~a {copy~b~X} ~Y}{move:Y}")).1 =
  Some (TransformToCleanView
          (ParseEditMLToNodes (lit "{move~a {copy~b~X} ~Y}{move:Y}")).1).
Proof.
  apply (recursion_is_bounded (lit "{move~a {copy~b~X} ~Y}{move:Y}") 31).
  vm_compute. lia.
Defined.

End termination.

Section distinct_starts.

Lemma findAllFrom_starts {A} (matchAt : str -> option (nat * A))
    (pos skip : nat) (s : str) :
  NoDup ((fun m => m.1.1) <$> findAllFrom matchAt pos skip s).
Proof.
  revert pos skip. induction s as [|c s IH]; intros pos skip; cbn [findAllFrom].
  - constructor.
  - destruct skip as [|k]; [|apply IH].
    destruct (matchAt (c :: s)) as [[len g]|]; [|apply IH].
    cbn. apply NoDup_cons. split; [|apply IH].
    intros ([[a b] g'] & Ha & Hin)%list_elem_of_fmap. cbn in Ha. subst a.
    apply findAllFrom_spec in Hin. lia.
Qed.

Lemma matchInline_opener (op cl : ascii) (s : str) r :
  matchInline op cl s = Some r -> HasPrefix s [("{")%char; op] = true.
Proof.
  unfold matchInline. destruct s as [|b [|o s]]; try discriminate.
  destruct (Ascii.eqb_spec b "{") as [->|]; [|discriminate].
  destruct (Ascii.eqb_spec o op) as [->|]; [|discriminate].
  intros _. cbn. rewrite Ascii.eqb_refl. by destruct s.
Qed.

Lemma keyword_elem (alts : list str) (s : str) kw :
  kw ∈ keyword alts s -> exists a r, a ∈ alts /\ s = a ++ r /\ kw = length a.
Proof.
  induction alts as [|a alts IH]; cbn [keyword].
  - intros H. inversion H.
  - rewrite elem_of_app. intros [H|H].
    + destruct (HasPrefix s a) eqn:Hp; [|inversion H].
      apply list_elem_of_singleton in H as ->.
      apply HasPrefix_spec in Hp as [r ->]. exists a, r. split; [left | done].
    + apply IH in H as (a' & r & Ha & Hs & Hk).
      exists a', r. split; [by right | done].
Qed.

(** A structural match starts with the brace, a keyword and the
    delimiter [d]. *)
Lemma structural_opener (alts : list str) (d : ascii) (s : str) kw t r' :
  kw ∈ keyword alts s -> drop kw s = t :: r' -> Ascii.eqb t d = true ->
  exists a, a ∈ alts /\ s = a ++ d :: r'.
Proof.
  intros (a & r & Ha & -> & ->)%keyword_elem Hd Ht.
  rewrite drop_app_length in Hd. subst r.
  apply Ascii.eqb_eq in Ht as ->. by exists a.
Qed.

Lemma matchSource_opener (alts : list str) (s : str) res :
  matchSource alts s = Some res ->
  exists a r, a ∈ alts /\ s = lit "{" ++ a ++ lit "~" ++ r.
Proof.
  unfold matchSource. destruct s as [|b s]; [discriminate|].
  destruct (Ascii.eqb_spec b "{") as [->|]; [|discriminate].
  intros (kw & Hkw & Hk)%firstSome_Some.
  destruct (drop kw s) as [|t r'] eqn:Hd; [discriminate|].
  destruct (Ascii.eqb t "~") eqn:Ht; [|discriminate].
  destruct (structural_opener alts "~" s kw t r' Hkw Hd Ht) as (a & Ha & ->).
  by exists a, r'.
Qed.

Lemma matchTarget_opener (alts : list str) (s : str) res :
  matchTarget alts s = Some res ->
  exists a r, a ∈ alts /\ s = lit "{" ++ a ++ lit ":" ++ r.
Proof.
  unfold matchTarget. destruct s as [|b s]; [discriminate|].
  destruct (Ascii.eqb_spec b "{") as [->|]; [|discriminate].
  intros (kw & Hkw & Hk)%firstSome_Some.
  destruct (drop kw s) as [|t r'] eqn:Hd; [discriminate|].
  destruct (Ascii.eqb t ":") eqn:Ht; [|discriminate].
  destruct (structural_opener alts ":" s kw t r' Hkw Hd Ht) as (a & Ha & ->).
  by exists a, r'.
Qed.

Lemma inline_pattern (input : str) (op cl : ascii) (k : nat) editType m :
  (forall s, HasPrefix s [("{")%char; op] = true -> opener s = Some k) ->
  m ∈ inlineMatch input editType <$> FindAll (matchInline op cl) input ->
  patternOf input m = Some k.
Proof.
  intros Hk ([[a b] g] & -> & Hin)%list_elem_of_fmap.
  apply FindAll_spec in Hin as (_ & _ & Hm).
  apply matchInline_opener in Hm. by apply Hk.
Qed.

Lemma source_pattern (input : str) (alts : list str) (k : nat) operation m :
  (forall a r, a ∈ alts -> opener (lit "{" ++ a ++ lit "~" ++ r) = Some k) ->
  m ∈ sourceMatch input operation <$> FindAll (matchSource alts) input ->
  patternOf input m = Some k.
Proof.
  intros Hk ([[a b] g] & -> & Hin)%list_elem_of_fmap.
  apply FindAll_spec in Hin as (_ & _ & Hm).
  apply matchSource_opener in Hm as (kw & r & Hkw & Hs).
  unfold patternOf. cbn [sourceMatch startIndex]. rewrite Hs. by apply Hk.
Qed.

Lemma target_pattern (input : str) (alts : list str) (k : nat) operation m :
  (forall a r, a ∈ alts -> opener (lit "{" ++ a ++ lit ":" ++ r) = Some k) ->
  m ∈ targetMatch input operation <$> FindAll (matchTarget alts) input ->
  patternOf input m = Some k.
Proof.
  intros Hk ([[a b] g] & -> & Hin)%list_elem_of_fmap.
  apply FindAll_spec in Hin as (_ & _ & Hm).
  apply matchTarget_opener in Hm as (kw & r & Hkw & Hs).
  unfold patternOf. cbn [targetMatch startIndex]. rewrite Hs. by apply Hk.
Qed.

Lemma opener_inline (op : ascii) (k : nat) :
  (op, k) ∈ [("+"%char, 0); ("-"%char, 1); (">"%char, 2); ("="%char, 3)] ->
  forall s, HasPrefix s [("{")%char; op] = true -> opener s = Some k.
Proof.
  intros Hop s [r ->]%HasPrefix_spec.
  repeat (apply elem_of_cons in Hop as [[= -> ->]|Hop]; [by destruct r|]).
  by apply elem_of_nil in Hop.
Qed.

Lemma opener_structural (alts : list str) (d : ascii) (k : nat) a r :
  (alts, d, k) ∈ [(moveKeywords, "~"%char, 4); (moveKeywords, ":"%char, 5);
                  (copyKeywords, "~"%char, 6); (copyKeywords, ":"%char, 7)] ->
  a ∈ alts -> opener (lit "{" ++ a ++ [d] ++ r) = Some k.
Proof.
  intros Hk Ha.
  repeat (apply elem_of_cons in Hk as [[= -> -> ->]|Hk];
          [repeat (apply elem_of_cons in Ha as [->|Ha]; [by destruct r|]);
           by apply elem_of_nil in Ha|]).
  by apply elem_of_nil in Hk.
Qed.

Lemma inline_starts (input : str) (op cl : ascii) editType :
  NoDup (startIndex <$> (inlineMatch input editType <$> FindAll (matchInline op cl) input)).
Proof.
  rewrite <- list_fmap_compose.
  rewrite (list_fmap_ext _ (fun m => m.1.1) (FindAll (matchInline op cl) input));
    [apply findAllFrom_starts|].
  by intros i [[a b] g] _.
Qed.

Lemma source_starts (input : str) (alts : list str) operation :
  NoDup (startIndex <$> (sourceMatch input operation <$> FindAll (matchSource alts) input)).
Proof.
  rewrite <- list_fmap_compose.
  rewrite (list_fmap_ext _ (fun m => m.1.1) (FindAll (matchSource alts) input));
    [apply findAllFrom_starts|].
  by intros i [[a b] g] _.
Qed.

Lemma target_starts (input : str) (alts : list str) operation :
  NoDup (startIndex <$> (targetMatch input operation <$> FindAll (matchTarget alts) input)).
Proof.
  rewrite <- list_fmap_compose.
  rewrite (list_fmap_ext _ (fun m => m.1.1) (FindAll (matchTarget alts) input));
    [apply findAllFrom_starts|].
  by intros i [[a b] g] _.
Qed.

Lemma distinctFrom_nil (input : str) k : distinctFrom input k [].
Proof. split; [constructor|]. intros m H. inversion H. Qed.

Lemma distinctFrom_app (input : str) k l1 l2 :
  NoDup (startIndex <$> l1) ->
  (forall m, m ∈ l1 -> patternOf input m = Some k) ->
  distinctFrom input (S k) l2 -> distinctFrom input k (l1 ++ l2).
Proof.
  intros Hnd Hk [Hnd2 Hk2]. split.
  - rewrite fmap_app. apply NoDup_app. split; [done|]. split; [|done].
    intros a (m1 & -> & Hm1)%list_elem_of_fmap (m2 & Heq & Hm2)%list_elem_of_fmap.
    apply Hk in Hm1. apply Hk2 in Hm2 as (j & Hj & Hle).
    unfold patternOf in *. rewrite Heq in Hm1. rewrite Hm1 in Hj.
    injection Hj as <-. lia.
  - intros m [Hm|Hm]%elem_of_app.
    + exists k. split; [by apply Hk | lia].
    + apply Hk2 in Hm as (j & Hj & Hle). exists j. split; [done | lia].
Qed.

(** No two candidates of an input start at the same offset. *)
Lemma allMatches_starts (input : str) : NoDup (startIndex <$> allMatches input).
Proof.
  assert (H : distinctFrom input 0 (allMatches input)); [|apply H].
  unfold allMatches.
  apply distinctFrom_app; [apply inline_starts| |].
  { intros m. apply inline_pattern, opener_inline. left. }
  apply distinctFrom_app; [apply inline_starts| |].
  { intros m. apply inline_pattern, opener_inline. right. left. }
  apply distinctFrom_app; [apply inline_starts| |].
  { intros m. apply inline_pattern, opener_inline. right. right. left. }
  apply distinctFrom_app; [apply inline_starts| |].
  { intros m. apply inline_pattern, opener_inline. right. right. right. left. }
  apply distinctFrom_app; [apply source_starts| |].
  { intros m. apply source_pattern. intros a r.
    apply (opener_structural moveKeywords "~"). left. }
  apply distinctFrom_app; [apply target_starts| |].
  { intros m. apply target_pattern. intros a r.
    apply (opener_structural moveKeywords ":"). right. left. }
  apply distinctFrom_app; [apply source_starts| |].
  { intros m. apply source_pattern. intros a r.
    apply (opener_structural copyKeywords "~"). right. right. left. }
  rewrite <- (app_nil_r (map (targetMatch input OperationCopy)
                           (FindAll copyTargetRegex input))).
  apply distinctFrom_app; [apply target_starts| |apply distinctFrom_nil].
  intros m. apply target_pattern. intros a r.
  apply (opener_structural copyKeywords ":"). right. right. right. left.
Qed.

Lemma NoDup_fmap_elem {A B} (f : A -> B) (l : list A) x y :
  NoDup (f <$> l) -> x ∈ l -> y ∈ l -> f x = f y -> x = y.
Proof.
  induction l as [|z l IH]; cbn; intros Hnd Hx Hy Hf; [inversion Hx|].
  apply NoDup_cons in Hnd as [Hz Hnd].
  apply elem_of_cons in Hx as [->|Hx]; apply elem_of_cons in Hy as [->|Hy].
  - done.
  - exfalso. apply Hz. rewrite Hf. apply list_elem_of_fmap. eauto.
  - exfalso. apply Hz. rewrite <- Hf. apply list_elem_of_fmap. eauto.
  - by apply IH.
Qed.

(** [sort.Slice] promises a permutation in which no element is [less]
    than an earlier one.  For the candidates of an input there is one
    such list, the one [sortSlice] computes: the instability of Go's sort
    cannot show. *)
Lemma sortSlice_unique (input : str) (sorted : list genericMatch) :
  sorted ≡ₚ allMatches input ->
  StronglySorted (fun a b => less b a = false) sorted ->
  sorted = sortSlice (allMatches input).
Proof.
  intros Hperm Hsorted.
  assert (Hbefore : StronglySorted before sorted).
  { clear Hperm. induction Hsorted as [|x l _ IH Hx]; constructor; [done|].
    eapply Forall_impl; [exact Hx|]. intros b. apply less_false_before. }
  apply (StronglySorted_unique_strong before).
  - intros x1 x2 Hx1 Hx2 H12 H21.
    rewrite Hperm in Hx1. rewrite sortSlice_perm in Hx2.
    apply (NoDup_fmap_elem startIndex (allMatches input));
      [apply allMatches_starts | done | done |].
    unfold before in *. lia.
  - exact Hbefore.
  - apply sortSlice_sorted.
  - by rewrite sortSlice_perm.
Qed.

End distinct_starts.

Section api_tests.
Import api_test.

Lemma TestParseSimpleAddition :
  ParseEditMLToNodes (lit "{+added text+ws}") =
  ([InlineEditNode EditTypeAddition (lit "added text") (lit "ws")], None).
Proof. vm_compute. reflexivity. Qed.

Lemma TestParseTextAndAddition :
  ParseEditMLToNodes (lit "Hello {+World+}") =
  ([TextNode (lit "Hello "); InlineEditNode EditTypeAddition (lit "World") []], None).
Proof. vm_compute. reflexivity. Qed.

Lemma TestTransformSimpleAddition :
  TransformCleanView [InlineEditNode EditTypeAddition (lit "added text") (lit "ws")] =
  (lit "added text", []).
Proof. vm_compute. reflexivity. Qed.

Lemma TestTransformTextAndDeletion :
  TransformCleanView
    [TextNode (lit "Hello "); InlineEditNode EditTypeDeletion (lit "World") []] =
  (lit "Hello ", []).
Proof. vm_compute. reflexivity. Qed.

Lemma TestParseAndTransformIntegration :
  TransformCleanView
    (ParseEditMLToNodes (lit "This is {+an addition+} and this is {-a deletion-}.")).1 =
  (lit "This is an addition and this is .", []).
Proof. vm_compute. reflexivity. Qed.

Lemma TestParseAndTransformMultilineFile :
  TransformCleanView (ParseEditMLToNodes multilineInput).1 =
  (expectedMultilineOutput, []).
Proof. vm_compute. reflexivity. Qed.

End api_tests.

(* ================================================================== *)
(** ** Further properties: the shape of a parse, single spans, decoding,
       rendering, and the removal of comment lines *)
(* ================================================================== *)

Import bufio comments shape.

Section parse_shape.

Lemma slice_length_in (s : str) a b :
  a <= b -> b <= length s -> length (slice s a b) = b - a.
Proof. intros Hab Hb. unfold slice. rewrite length_take, length_drop. lia. Qed.

Lemma merge_text_nonempty (input : str) (cands : list genericMatch) cursor text :
  Forall (candidateOk input) cands -> cursor <= length input ->
  TextNode text ∈ merge input cursor cands -> text <> [].
Proof.
  intros Hok. revert cursor.
  induction Hok as [|c rest Hc _ IH]; intros cursor Hcur; cbn [merge].
  - destruct (Nat.ltb_spec cursor (length input)) as [Hlt|]; intros Hin.
    + apply list_elem_of_singleton in Hin. injection Hin as ->.
      intros Hnil. apply (f_equal length) in Hnil.
      rewrite slice_length_in in Hnil by lia. cbn in Hnil. lia.
    + inversion Hin.
  - destruct Hc as (Hse & Hend & _ & Hkind).
    destruct (Nat.ltb_spec (startIndex c) cursor); [by apply IH|].
    rewrite elem_of_app, elem_of_cons. intros [Hin|[Heq|Hin]].
    + destruct (Nat.ltb_spec cursor (startIndex c)); [|inversion Hin].
      apply list_elem_of_singleton in Hin. injection Hin as ->.
      intros Hnil. apply (f_equal length) in Hnil.
      rewrite slice_length_in in Hnil by lia. cbn in Hnil. lia.
    + rewrite <- Heq in Hkind. done.
    + by apply (IH (endIndex c)).
Qed.

(** X1. No text node of a parse is empty. *)
Theorem parsed_text_nonempty (input text : str) :
  TextNode text ∈ (ParseEditMLToNodes input).1 -> text <> [].
Proof.
  rewrite ParseEditMLToNodes_merge.
  apply merge_text_nonempty; [apply sortSlice_ok | lia].
Qed.

Lemma merge_adjacent (input : str) (cands : list genericMatch) cursor :
  Forall (candidateOk input) cands ->
  ~ hasAdjacentTexts (merge input cursor cands).
Proof.
  intros Hok. revert cursor.
  induction Hok as [|c rest Hc _ IH]; intros cursor; cbn [merge].
  - intros (l1 & t1 & t2 & l2 & Heq).
    destruct (cursor <? length input); destruct l1 as [|? [|? ?]]; discriminate.
  - destruct Hc as (_ & _ & _ & Hkind).
    destruct (startIndex c <? cursor); [apply IH|].
    intros (l1 & t1 & t2 & l2 & Heq).
    destruct (cursor <? startIndex c); cbn [app] in Heq.
    + destruct l1 as [|n1 [|n2 l1]]; cbn in Heq.
      * injection Heq as _ Heq _. by rewrite Heq in Hkind.
      * injection Heq as _ Heq _. by rewrite Heq in Hkind.
      * injection Heq as _ _ Heq. apply (IH (endIndex c)). by exists l1, t1, t2, l2.
    + destruct l1 as [|n1 l1]; cbn in Heq.
      * injection Heq as Heq _. by rewrite Heq in Hkind.
      * injection Heq as _ Heq. apply (IH (endIndex c)). by exists l1, t1, t2, l2.
Qed.

(** X2. A parse never holds two text nodes in a row: the text between two
    markup nodes is one node. *)
Theorem parsed_text_runs_maximal (input : str) :
  ~ hasAdjacentTexts (ParseEditMLToNodes input).1.
Proof.
  rewrite ParseEditMLToNodes_merge. apply merge_adjacent, sortSlice_ok.
Qed.

End parse_shape.

Section candidate_shape.

Lemma alnumRun_take (k : nat) (s : str) :
  k <= alnumRun s -> alphanumeric (take k s) /\ length (take k s) = k.
Proof.
  unfold alphanumeric. revert k. induction s as [|c s IH]; intros k; cbn [alnumRun].
  - intros Hk. assert (k = 0) as -> by lia. done.
  - destruct (isAlnum c) eqn:Hc.
    + destruct k as [|k]; [done|]. intros Hk. cbn.
      destruct (IH k) as [-> ->]; [lia|]. by rewrite Hc.
    + intros Hk. assert (k = 0) as -> by lia. done.
Qed.

Lemma tryEditorID_run (n : nat) (s : str) k :
  tryEditorID n s = Some k -> k <= alnumRun s.
Proof.
  induction n as [|n IH]; cbn [tryEditorID]; [discriminate|].
  case_match eqn:H; [|apply IH].
  intros [= <-]. apply andb_true_iff in H as [H _]. by apply Nat.leb_le.
Qed.

Lemma tagTrailer_run (s : str) k : tagTrailer s = Some k -> 1 <= k <= alnumRun s.
Proof.
  unfold tagTrailer. case_match eqn:H; [|discriminate].
  intros [= <-]. apply andb_true_iff in H as [H _]. apply Nat.leb_le in H. lia.
Qed.

(** The tag of a structural match: the [k] bytes at [r]. *)
Lemma tag_shape (input r : str) (a k : nat) :
  drop a input = r -> 1 <= k <= alnumRun r ->
  slice input a (a + k) <> [] /\ alphanumeric (slice input a (a + k)).
Proof.
  intros Hr Hk. unfold slice. replace (a + k - a) with k by lia. rewrite Hr.
  destruct (alnumRun_take k r) as [Hal Hlen]; [lia|]. split; [|done].
  intros Hnil. rewrite Hnil in Hlen. cbn in Hlen. lia.
Qed.

Lemma inlineMatch_shape (input : str) (op cl : ascii) (editType : str) m :
  m ∈ FindAll (matchInline op cl) input ->
  namesAlphanumeric (node (inlineMatch input editType m)).
Proof.
  destruct m as [[a b] g]. intros (_ & _ & Hm)%FindAll_spec.
  unfold matchInline in Hm.
  destruct (drop a input) as [|c0 [|c1 r0]] eqn:Hd; try discriminate.
  case_match; [|discriminate].
  destruct (lazyUntil (closeInline cl) r0) as [[n e]|] eqn:Hl; [|discriminate].
  injection Hm as _ <-. cbn.
  apply lazyUntil_spec in Hl as [_ Hc].
  destruct e as [k|]; cbn; [|done].
  unfold closeInline in Hc. destruct (drop n r0) as [|c r] eqn:Hr; [discriminate|].
  destruct (Ascii.eqb c cl); [|discriminate].
  unfold editorIDTrailer in Hc.
  destruct (tryEditorID 5 r) as [k'|] eqn:Hk; [|by case_match].
  injection Hc as ->. apply tryEditorID_run in Hk.
  assert (Hat : drop (a + 2 + n + 1) input = r).
  { replace (a + 2 + n + 1) with (a + (2 + (n + 1))) by lia.
    rewrite <- drop_drop, Hd. cbn [Nat.add skipn].
    by rewrite <- drop_drop, Hr. }
  unfold slice. replace (a + 2 + n + 1 + k - (a + 2 + n + 1)) with k by lia.
  rewrite Hat. by apply alnumRun_take.
Qed.

Lemma sourceMatch_shape (input : str) (alts : list str) (operation : str) m :
  m ∈ FindAll (matchSource alts) input ->
  namesAlphanumeric (node (sourceMatch input operation m)).
Proof.
  destruct m as [[a b] g]. intros (_ & _ & Hm)%FindAll_spec.
  unfold matchSource in Hm.
  destruct (drop a input) as [|c0 r0] eqn:Hd; [discriminate|].
  destruct (Ascii.eqb c0 "{"); [|discriminate].
  apply firstSome_Some in Hm as (kw & _ & Hk).
  destruct (drop kw r0) as [|t r1] eqn:Hd1; [discriminate|].
  destruct (Ascii.eqb t "~"); [|discriminate].
  destruct (lazyUntil closeSource r1) as [[n tg]|] eqn:Hl; [|discriminate].
  injection Hk as _ <-. cbn.
  apply lazyUntil_spec in Hl as [_ Hc].
  unfold closeSource in Hc. destruct (drop n r1) as [|c r] eqn:Hr; [discriminate|].
  destruct (Ascii.eqb c "~"); [|discriminate].
  apply tagTrailer_run in Hc.
  apply (tag_shape input r); [|done].
  replace (a + 1 + kw + 1 + n + 1) with (a + (1 + (kw + (1 + (n + 1))))) by lia.
  rewrite <- drop_drop, Hd. cbn [Nat.add skipn].
  rewrite <- drop_drop, Hd1. cbn [Nat.add skipn].
  by rewrite <- drop_drop, Hr.
Qed.

Lemma targetMatch_shape (input : str) (alts : list str) (operation : str) m :
  m ∈ FindAll (matchTarget alts) input ->
  namesAlphanumeric (node (targetMatch input operation m)).
Proof.
  destruct m as [[a b] g]. intros (_ & _ & Hm)%FindAll_spec.
  unfold matchTarget in Hm.
  destruct (drop a input) as [|c0 r0] eqn:Hd; [discriminate|].
  destruct (Ascii.eqb c0 "{"); [|discriminate].
  apply firstSome_Some in Hm as (kw & _ & Hk).
  destruct (drop kw r0) as [|t r1] eqn:Hd1; [discriminate|].
  destruct (Ascii.eqb t ":"); [|discriminate].
  destruct (tagTrailer r1) as [tg|] eqn:Hl; [|discriminate].
  injection Hk as _ <-. cbn.
  apply tagTrailer_run in Hl.
  apply (tag_shape input r1); [|done].
  replace (a + 1 + kw + 1) with (a + (1 + (kw + 1))) by lia.
  rewrite <- drop_drop, Hd. cbn [Nat.add skipn].
  by rewrite <- drop_drop, Hd1.
Qed.

(** Every candidate carries an edit type or operation of the model and
    alphanumeric names. *)
Lemma allMatches_shape (input : str) :
  Forall (fun m => kindNormalized (node m) /\ namesAlphanumeric (node m))
    (allMatches input).
Proof.
  unfold allMatches. repeat rewrite Forall_app. rewrite !Forall_fmap.
  repeat split; apply Forall_forall; intros m Hm; cbn [compose];
    (split; [destruct m as [[a b] g]; cbn; unfold editTypes, operations;
             set_solver|]).
  - by eapply inlineMatch_shape.
  - by eapply inlineMatch_shape.
  - by eapply inlineMatch_shape.
  - by eapply inlineMatch_shape.
  - by eapply sourceMatch_shape.
  - by eapply targetMatch_shape.
  - by eapply sourceMatch_shape.
  - by eapply targetMatch_shape.
Qed.

Lemma parsed_shape (input : str) n :
  n ∈ (ParseEditMLToNodes input).1 -> kindNormalized n /\ namesAlphanumeric n.
Proof.
  intros [[text ->]|(m & Hm & _ & ->)]%ParseEditMLToNodes_elem; [done|].
  pose proof (allMatches_shape input) as H. rewrite Forall_forall in H.
  by apply H.
Qed.

(** X3. The operation of every structural node of a parse is [move] or
    [copy], whatever keyword the text uses, and the edit type of every
    inline node is one of the four of the model. *)
Theorem parsed_kinds_normalized (input : str) :
  Forall kindNormalized (ParseEditMLToNodes input).1.
Proof. apply Forall_forall. intros n Hn. by apply parsed_shape in Hn as [? _]. Qed.

(** X4. Every tag of a parse is alphanumeric and not empty, and every editor id
    is alphanumeric. *)
Theorem parsed_names_alphanumeric (input : str) :
  Forall namesAlphanumeric (ParseEditMLToNodes input).1.
Proof. apply Forall_forall. intros n Hn. by apply parsed_shape in Hn as [_ ?]. Qed.

End candidate_shape.

Section plain_text.

Lemma FindAll_no_brace {A} (matchAt : str -> option (nat * A)) (input : str) :
  (forall s x, matchAt s = Some x -> exists r, s = "{"%char :: r) ->
  "{"%char ∉ input -> FindAll matchAt input = [].
Proof.
  intros Hbrace Hno. apply findAllFrom_None. intros k.
  destruct (matchAt (drop k input)) as [x|] eqn:Hm; [|done].
  apply Hbrace in Hm as [r Hr]. exfalso. apply Hno.
  apply (subseteq_drop k input). rewrite Hr. left.
Qed.

Lemma matchInline_brace (op cl : ascii) (s : str) x :
  matchInline op cl s = Some x -> exists r, s = "{"%char :: r.
Proof. intros [r ->]%matchInline_opener%HasPrefix_spec. by eexists. Qed.

Lemma matchSource_brace (alts : list str) (s : str) x :
  matchSource alts s = Some x -> exists r, s = "{"%char :: r.
Proof. intros (a & r & _ & ->)%matchSource_opener. by eexists. Qed.

Lemma matchTarget_brace (alts : list str) (s : str) x :
  matchTarget alts s = Some x -> exists r, s = "{"%char :: r.
Proof. intros (a & r & _ & ->)%matchTarget_opener. by eexists. Qed.

Lemma allMatches_no_brace (input : str) :
  "{"%char ∉ input -> allMatches input = [].
Proof.
  intros Hno. unfold allMatches, addRegex, delRegex, commentRegex,
    highlightRegex, moveSourceRegex, moveTargetRegex, copySourceRegex,
    copyTargetRegex.
  rewrite !(FindAll_no_brace (matchInline _ _)), !(FindAll_no_brace (matchSource _)),
    !(FindAll_no_brace (matchTarget _));
    try done; intros s x; first [apply matchInline_brace | apply matchSource_brace
                                 | apply matchTarget_brace].
Qed.

Lemma ParseEditMLToNodes_plain (input : str) :
  "{"%char ∉ input ->
  ParseEditMLToNodes input =
  (match input with [] => [] | _ => [TextNode input] end, None).
Proof.
  intros Hno. unfold ParseEditMLToNodes, interleave.
  rewrite allMatches_no_brace by done. cbn [sortSlice foldr fold_left].
  destruct input as [|c input]; [done|].
  change (0 <? length (c :: input)) with true. cbn [app].
  by rewrite slice_full.
Qed.

(** X5. A text without opening brace has no markup: it is parsed as one text
    node, and the empty text as no node at all. *)
Theorem parse_without_brace (input : str) :
  "{"%char ∉ input ->
  ParseEditMLToNodes input =
  (match input with [] => [] | _ => [TextNode input] end, None).
Proof. apply ParseEditMLToNodes_plain. Qed.

Lemma parse_without_brace_witness :
  ParseEditMLToNodes (lit "a } b + c") = ([TextNode (lit "a } b + c")], None).
Proof.
  apply (parse_without_brace (lit "a } b + c")).
  intros Hin. apply list_elem_of_In in Hin. vm_compute in Hin.
  intuition discriminate.
Defined.

End plain_text.

Section whole_span.

Lemma merge_discards (input : str) (cands : list genericMatch) :
  Forall (candidateOk input) cands -> merge input (length input) cands = [].
Proof.
  induction 1 as [|c rest Hc _ IH]; cbn [merge].
  - by rewrite Nat.ltb_irrefl.
  - destruct Hc as (Hse & Hend & _).
    destruct (Nat.ltb_spec (startIndex c) (length input)); [done | lia].
Qed.

(** A candidate that spans the whole input is the whole parse. *)
Lemma whole_span_parse (input : str) (m : genericMatch) :
  m ∈ allMatches input -> startIndex m = 0 -> endIndex m = length input ->
  ParseEditMLToNodes input = ([node m], None).
Proof.
  intros Hm Hstart Hend. unfold ParseEditMLToNodes. f_equal.
  rewrite interleave_merge.
  pose proof (sortSlice_perm (allMatches input)) as Hperm.
  pose proof (sortSlice_sorted (allMatches input)) as Hsorted.
  pose proof (sortSlice_ok input) as Hok.
  destruct (sortSlice (allMatches input)) as [|h tl] eqn:Hs.
  { rewrite <- Hperm in Hm. inversion Hm. }
  assert (Hh : h = m).
  { apply (NoDup_fmap_elem startIndex (allMatches input));
      [apply allMatches_starts | rewrite <- Hperm; left | done |].
    rewrite <- Hperm in Hm. apply elem_of_cons in Hm as [->|Hm]; [done|].
    apply StronglySorted_inv in Hsorted as [_ Hall].
    rewrite Forall_forall in Hall. apply Hall in Hm. unfold before in Hm. lia. }
  subst h. cbn [merge]. rewrite Hstart. cbn [Nat.ltb Nat.leb app].
  change (0 <? 0) with false. cbn [app]. f_equal.
  rewrite Hend. apply merge_discards. by apply Forall_cons in Hok as [_ ?].
Qed.

Lemma lazyUntil_first {A} (close : str -> option A) (s : str) n a :
  (forall k, k < n -> close (drop k s) = None) ->
  close (drop n s) = Some a -> n <= length s ->
  lazyUntil close s = Some (n, a).
Proof.
  revert n. induction s as [|c s IH]; intros n Hnone Hsome Hn.
  - cbn in Hn. assert (n = 0) as -> by lia. cbn in *. by rewrite Hsome.
  - destruct n as [|n]; cbn [lazyUntil].
    + cbn [skipn] in Hsome. by rewrite Hsome.
    + pose proof (Hnone 0 ltac:(lia)) as H0. cbn [skipn] in H0. rewrite H0.
      rewrite (IH n); [done| |done|cbn in Hn; lia].
      intros k Hk. apply (Hnone (S k)). lia.
Qed.

Lemma FindAll_head {A} (matchAt : str -> option (nat * A)) (input : str) len g :
  matchAt input = Some (len, g) -> input <> [] ->
  (0, len, g) ∈ FindAll matchAt input.
Proof.
  intros Hm Hne. destruct input as [|c input]; [done|].
  unfold FindAll. cbn [findAllFrom]. rewrite Hm. left.
Qed.

Lemma slice_inner (a b c : str) :
  slice (a ++ b ++ c) (length a) (length a + length b) = b.
Proof.
  unfold slice. replace (length a + length b - length a) with (length b) by lia.
  rewrite drop_app_length. by rewrite take_app_length.
Qed.

End whole_span.

Section inline_span.

#[local] Arguments Ascii.eqb : simpl never.

Lemma alnumRun_app (name tail : str) :
  alphanumeric name -> alnumRun tail = 0 -> alnumRun (name ++ tail) = length name.
Proof.
  unfold alphanumeric. intros Hal Htail.
  induction name as [|c name IH]; [done|].
  cbn in Hal. apply andb_true_iff in Hal as [Hc Hal].
  cbn. rewrite Hc. by rewrite IH.
Qed.

Lemma brace_follows (name : str) :
  HasPrefix (drop (length name) (name ++ lit "}")) (lit "}") = true.
Proof. by rewrite drop_app_length. Qed.

Lemma tryEditorID_exact (n : nat) (editorID : str) :
  alphanumeric editorID -> 1 <= length editorID <= n ->
  tryEditorID n (editorID ++ lit "}") = Some (length editorID).
Proof.
  intros Hal Hlen. induction n as [|n IH]; [lia|].
  cbn [tryEditorID]. rewrite (alnumRun_app editorID (lit "}")) by done.
  destruct (decide (S n = length editorID)) as [Heq|Hne].
  - rewrite Heq, Nat.leb_refl, brace_follows. done.
  - replace (S n <=? length editorID) with false
      by (symmetry; apply Nat.leb_gt; lia).
    cbn [andb]. apply IH. lia.
Qed.

(** The trailer of an inline span: the id when there is one. *)
Lemma editorIDTrailer_exact (editorID : str) :
  alphanumeric editorID -> length editorID <= 5 ->
  editorIDTrailer (editorID ++ lit "}") =
  Some (match editorID with [] => None | _ => Some (length editorID) end).
Proof.
  intros Hal Hlen. unfold editorIDTrailer.
  destruct editorID as [|c r]; [done|].
  rewrite tryEditorID_exact; [done | done | cbn in *; lia].
Qed.

Lemma closeInline_before (cl : ascii) (content tail : str) k :
  Forall (fun c => c <> cl) content -> k < length content ->
  closeInline cl (drop k (content ++ tail)) = None.
Proof.
  intros Hc. revert k. induction Hc as [|c content Hne _ IH]; intros k Hk.
  - cbn in Hk. lia.
  - destruct k as [|k]; cbn [skipn app].
    + cbn. by destruct (Ascii.eqb_spec c cl).
    + apply IH. cbn in Hk. lia.
Qed.

Lemma matchInline_span (op cl : ascii) (content editorID : str) :
  Forall (fun c => c <> cl) content ->
  alphanumeric editorID -> length editorID <= 5 ->
  matchInline op cl (inlineSpan op cl content editorID) =
  Some (length (inlineSpan op cl content editorID),
        {| contentLen := length content;
           editorLen := match editorID with [] => None | _ => Some (length editorID) end |}).
Proof.
  intros Hc Hal Hlen. unfold inlineSpan, matchInline.
  cbn [lit list_ascii_of_string app]. rewrite !Ascii.eqb_refl. cbn [andb].
  rewrite (lazyUntil_first _ _ (length content)
             (match editorID with [] => None | _ => Some (length editorID) end)).
  - f_equal. f_equal. cbn [length]. rewrite !length_app. cbn [length].
    destruct editorID; cbn; rewrite ?length_app; cbn; lia.
  - intros k Hk. by apply closeInline_before.
  - rewrite drop_app_length. cbn. rewrite Ascii.eqb_refl.
    by apply editorIDTrailer_exact.
  - rewrite length_app. lia.
Qed.

Lemma inlineMatch_span (op cl : ascii) (editType content editorID : str) :
  inlineMatch (inlineSpan op cl content editorID) editType
    (0, length (inlineSpan op cl content editorID),
     {| contentLen := length content;
        editorLen := match editorID with [] => None | _ => Some (length editorID) end |}) =
  {| startIndex := 0; endIndex := length (inlineSpan op cl content editorID);
     node := InlineEditNode editType (unescapeInlineContent content editType) editorID |}.
Proof.
  unfold inlineMatch. cbn [contentLen editorLen]. f_equal. f_equal.
  - f_equal. unfold inlineSpan.
    rewrite (app_assoc (lit "{") [op]).
    apply (slice_inner (lit "{" ++ [op]) content).
  - destruct editorID as [|c r]; [done|]. unfold inlineSpan.
    replace (lit "{" ++ [op] ++ content ++ [cl] ++ (c :: r) ++ lit "}")
      with ((lit "{" ++ [op] ++ content ++ [cl]) ++ (c :: r) ++ lit "}")
      by (by rewrite <- !app_assoc).
    replace (0 + 2 + length content + 1)
      with (length (lit "{" ++ [op] ++ content ++ [cl]))
      by (rewrite !length_app; cbn; lia).
    apply slice_inner.
Qed.

Lemma inline_candidate (input : str) (op cl : ascii) (editType : str) m :
  (op, cl, editType) ∈ inlineKinds ->
  m ∈ FindAll (matchInline op cl) input ->
  inlineMatch input editType m ∈ allMatches input.
Proof.
  intros Hk Hm. unfold allMatches, inlineKinds in *.
  rewrite !elem_of_app.
  pose proof (fun op cl et => list_elem_of_fmap_2 (inlineMatch input et)
                (FindAll (matchInline op cl) input) m) as Hin.
  repeat (apply elem_of_cons in Hk as [[= -> -> ->]|Hk]; [by eauto 10|]).
  by apply elem_of_nil in Hk.
Qed.

Lemma inlineSpan_parse (op cl : ascii) (editType content editorID : str) :
  (op, cl, editType) ∈ inlineKinds ->
  Forall (fun c => c <> cl) content ->
  alphanumeric editorID -> length editorID <= 5 ->
  ParseEditMLToNodes (inlineSpan op cl content editorID) =
  ([InlineEditNode editType (unescapeInlineContent content editType) editorID], None).
Proof.
  intros Hk Hc Hal Hlen.
  pose proof (matchInline_span op cl content editorID Hc Hal Hlen) as Hm.
  apply FindAll_head in Hm; [|by unfold inlineSpan].
  apply (inline_candidate _ op cl editType) in Hm; [|done].
  rewrite inlineMatch_span in Hm.
  by apply (whole_span_parse _ _ Hm).
Qed.

(** X6. A well-formed inline span on its own is parsed as one inline node
    with the decoded content and the editor id, whatever markup its
    content holds. *)
Theorem inline_span_recognized (op cl : ascii) (editType content editorID : str) :
  (op, cl, editType) ∈ inlineKinds ->
  Forall (fun c => c <> cl) content ->
  alphanumeric editorID -> length editorID <= 5 ->
  ParseEditMLToNodes (inlineSpan op cl content editorID) =
  ([InlineEditNode editType (unescapeInlineContent content editType) editorID], None).
Proof. apply inlineSpan_parse. Qed.

Lemma inline_span_recognized_witness :
  ParseEditMLToNodes (inlineSpan ">" "<" (lit "see {+this+} and \{") (lit "ws")) =
  ([InlineEditNode EditTypeComment (lit "see {+this+} and {") (lit "ws")], None).
Proof.
  apply (inline_span_recognized ">" "<" EditTypeComment
           (lit "see {+this+} and \{") (lit "ws")).
  - right. right. left.
  - apply Forall_forall. intros c Hc. apply list_elem_of_In in Hc.
    vm_compute in Hc. intuition (subst; discriminate).
  - vm_compute. reflexivity.
  - vm_compute. lia.
Defined.

End inline_span.

Section structural_trailer.

#[local] Arguments Ascii.eqb : simpl never.

Lemma tagTrailer_exact (tag : str) :
  tag <> [] -> alphanumeric tag -> tagTrailer (tag ++ lit "}") = Some (length tag).
Proof.
  intros Hne Hal. unfold tagTrailer.
  rewrite (alnumRun_app tag (lit "}")) by done.
  rewrite brace_follows. destruct tag; [done|]. done.
Qed.

Lemma closeSource_before (content tail : str) k :
  "~"%char ∉ content -> k < length content ->
  closeSource (drop k (content ++ tail)) = None.
Proof.
  revert k. induction content as [|c content IH]; intros k Hno Hk.
  - cbn in Hk. lia.
  - apply not_elem_of_cons in Hno as [Hc Hno].
    destruct k as [|k]; cbn [skipn app].
    + cbn. by destruct (Ascii.eqb_spec c "~").
    + apply IH; [done | cbn in Hk; lia].
Qed.

Lemma lazyUntil_source (content tag : str) :
  "~"%char ∉ content -> tag <> [] -> alphanumeric tag ->
  lazyUntil closeSource (content ++ lit "~" ++ tag ++ lit "}") =
  Some (length content, length tag).
Proof.
  intros Hno Hne Hal. apply lazyUntil_first.
  - intros k Hk. by apply closeSource_before.
  - rewrite drop_app_length. cbn. rewrite Ascii.eqb_refl.
    by apply tagTrailer_exact.
  - rewrite length_app. lia.
Qed.

End structural_trailer.

Section structural_span.

(** The keyword of a structural span is the first alternative of its
    pattern that matches. *)
Lemma matchSource_span (kw op content tag : str) :
  (kw, op) ∈ structuralKeywords ->
  "~"%char ∉ content -> tag <> [] -> alphanumeric tag ->
  matchSource (if decide (op = OperationMove) then moveKeywords else copyKeywords)
    (sourceSpan kw content tag) =
  Some (length (sourceSpan kw content tag),
        {| keywordLen := length kw; blockLen := length content;
           tagLen := length tag |}).
Proof.
  intros Hk Hno Hne Hal.
  pose proof (lazyUntil_source content tag Hno Hne Hal) as Hl.
  assert (Hlen : forall k : str,
    length (lit "{" ++ k ++ lit "~" ++ content ++ lit "~" ++ tag ++ lit "}") =
    1 + length k + 1 + length content + 1 + length tag + 1).
  { intros k. rewrite !length_app. cbn. lia. }
  unfold sourceSpan, structuralKeywords in *. rewrite Hlen.
  repeat (apply elem_of_cons in Hk as [[= -> ->]|Hk];
          [rewrite ?decide_True, ?decide_False by done; cbn;
           change (lazyUntil closeSource (content ++ "~"%char :: tag ++ ["}"%char]))
             with (lazyUntil closeSource (content ++ lit "~" ++ tag ++ lit "}"));
           by rewrite Hl|]).
  by apply elem_of_nil in Hk.
Qed.

Lemma matchTarget_span (kw op tag : str) :
  (kw, op) ∈ structuralKeywords -> tag <> [] -> alphanumeric tag ->
  matchTarget (if decide (op = OperationMove) then moveKeywords else copyKeywords)
    (targetSpan kw tag) =
  Some (length (targetSpan kw tag),
        {| keywordLen := length kw; blockLen := 0; tagLen := length tag |}).
Proof.
  intros Hk Hne Hal.
  pose proof (tagTrailer_exact tag Hne Hal) as Hl.
  assert (Hlen : forall k : str,
    length (lit "{" ++ k ++ lit ":" ++ tag ++ lit "}") =
    1 + length k + 1 + length tag + 1).
  { intros k. rewrite !length_app. cbn. lia. }
  unfold targetSpan, structuralKeywords in *. rewrite Hlen.
  repeat (apply elem_of_cons in Hk as [[= -> ->]|Hk];
          [rewrite ?decide_True, ?decide_False by done; cbn;
           change (tagTrailer (tag ++ ["}"%char]))
             with (tagTrailer (tag ++ lit "}"));
           by rewrite Hl|]).
  by apply elem_of_nil in Hk.
Qed.

Lemma structuralKeywords_operation (kw op : str) :
  (kw, op) ∈ structuralKeywords -> op = OperationMove \/ op = OperationCopy.
Proof.
  unfold structuralKeywords.
  repeat (intros [[= -> ->]|Hk]%elem_of_cons; [by auto|revert Hk]).
  by intros ?%elem_of_nil.
Qed.

Lemma source_candidate (input : str) (op : str) m :
  op = OperationMove \/ op = OperationCopy ->
  m ∈ FindAll (matchSource (if decide (op = OperationMove)
                            then moveKeywords else copyKeywords)) input ->
  sourceMatch input op m ∈ allMatches input.
Proof.
  intros Hop Hm. unfold allMatches. rewrite !elem_of_app.
  destruct Hop as [-> | ->].
  - rewrite decide_True in Hm by done.
    do 4 right. left. by apply (list_elem_of_fmap_2 (sourceMatch input OperationMove)).
  - rewrite decide_False in Hm by done.
    do 6 right. left. by apply (list_elem_of_fmap_2 (sourceMatch input OperationCopy)).
Qed.

Lemma target_candidate (input : str) (op : str) m :
  op = OperationMove \/ op = OperationCopy ->
  m ∈ FindAll (matchTarget (if decide (op = OperationMove)
                            then moveKeywords else copyKeywords)) input ->
  targetMatch input op m ∈ allMatches input.
Proof.
  intros Hop Hm. unfold allMatches. rewrite !elem_of_app.
  destruct Hop as [-> | ->].
  - rewrite decide_True in Hm by done.
    do 5 right. left. by apply (list_elem_of_fmap_2 (targetMatch input OperationMove)).
  - rewrite decide_False in Hm by done.
    do 7 right. by apply (list_elem_of_fmap_2 (targetMatch input OperationCopy)).
Qed.

Lemma sourceMatch_span (kw op content tag : str) :
  sourceMatch (sourceSpan kw content tag) op
    (0, length (sourceSpan kw content tag),
     {| keywordLen := length kw; blockLen := length content; tagLen := length tag |}) =
  {| startIndex := 0; endIndex := length (sourceSpan kw content tag);
     node := StructuralSourceNode op tag (unescapeStructuralBlockContent content) |}.
Proof.
  unfold sourceMatch. cbn [keywordLen blockLen tagLen]. f_equal. f_equal.
  - unfold sourceSpan.
    replace (lit "{" ++ kw ++ lit "~" ++ content ++ lit "~" ++ tag ++ lit "}")
      with ((lit "{" ++ kw ++ lit "~" ++ content ++ lit "~") ++ tag ++ lit "}")
      by (by rewrite <- !app_assoc).
    replace (0 + 1 + length kw + 1 + length content + 1)
      with (length (lit "{" ++ kw ++ lit "~" ++ content ++ lit "~"))
      by (rewrite !length_app; cbn; lia).
    apply slice_inner.
  - f_equal. unfold sourceSpan.
    replace (lit "{" ++ kw ++ lit "~" ++ content ++ lit "~" ++ tag ++ lit "}")
      with ((lit "{" ++ kw ++ lit "~") ++ content ++ lit "~" ++ tag ++ lit "}")
      by (by rewrite <- !app_assoc).
    replace (0 + 1 + length kw + 1)
      with (length (lit "{" ++ kw ++ lit "~"))
      by (rewrite !length_app; cbn; lia).
    apply slice_inner.
Qed.

Lemma targetMatch_span (kw op tag : str) :
  targetMatch (targetSpan kw tag) op
    (0, length (targetSpan kw tag),
     {| keywordLen := length kw; blockLen := 0; tagLen := length tag |}) =
  {| startIndex := 0; endIndex := length (targetSpan kw tag);
     node := StructuralTargetNode op tag |}.
Proof.
  unfold targetMatch. cbn [keywordLen blockLen tagLen]. f_equal. f_equal.
  unfold targetSpan.
  replace (lit "{" ++ kw ++ lit ":" ++ tag ++ lit "}")
    with ((lit "{" ++ kw ++ lit ":") ++ tag ++ lit "}")
    by (by rewrite <- !app_assoc).
  replace (0 + 1 + length kw + 1)
    with (length (lit "{" ++ kw ++ lit ":"))
    by (rewrite !length_app; cbn; lia).
  apply slice_inner.
Qed.

(** X7. A structural source on its own, written with any keyword of its
    operation, is parsed as one source node with the operation normalized
    and the block content decoded. *)
Theorem source_span_recognized (kw op content tag : str) :
  (kw, op) ∈ structuralKeywords ->
  "~"%char ∉ content -> tag <> [] -> alphanumeric tag ->
  ParseEditMLToNodes (sourceSpan kw content tag) =
  ([StructuralSourceNode op tag (unescapeStructuralBlockContent content)], None).
Proof.
  intros Hk Hno Hne Hal.
  pose proof (matchSource_span kw op content tag Hk Hno Hne Hal) as Hm.
  apply FindAll_head in Hm; [|by unfold sourceSpan].
  apply source_candidate in Hm; [|by eapply structuralKeywords_operation].
  rewrite sourceMatch_span in Hm.
  by apply (whole_span_parse _ _ Hm).
Qed.

Lemma source_span_recognized_witness :
  ParseEditMLToNodes (sourceSpan (lit "mv") (lit "a {+b+} c") (lit "T1")) =
  ([StructuralSourceNode OperationMove (lit "T1") (lit "a {+b+} c")], None).
Proof.
  apply (source_span_recognized (lit "mv") OperationMove (lit "a {+b+} c") (lit "T1")).
  - right. left.
  - intros Hin. apply list_elem_of_In in Hin. vm_compute in Hin.
    intuition discriminate.
  - discriminate.
  - vm_compute. reflexivity.
Defined.

(** X8. A structural target on its own, written with any keyword of its
    operation, is parsed as one target node with the operation
    normalized. *)
Theorem target_span_recognized (kw op tag : str) :
  (kw, op) ∈ structuralKeywords -> tag <> [] -> alphanumeric tag ->
  ParseEditMLToNodes (targetSpan kw tag) = ([StructuralTargetNode op tag], None).
Proof.
  intros Hk Hne Hal.
  pose proof (matchTarget_span kw op tag Hk Hne Hal) as Hm.
  apply FindAll_head in Hm; [|by unfold targetSpan].
  apply target_candidate in Hm; [|by eapply structuralKeywords_operation].
  rewrite targetMatch_span in Hm.
  by apply (whole_span_parse _ _ Hm).
Qed.

Lemma target_span_recognized_witness :
  ParseEditMLToNodes (targetSpan (lit "c") (lit "sec2")) =
  ([StructuralTargetNode OperationCopy (lit "sec2")], None).
Proof.
  apply (target_span_recognized (lit "c") OperationCopy (lit "sec2")).
  - do 5 right. left.
  - discriminate.
  - vm_compute. reflexivity.
Defined.

End structural_span.

Section decoding.

#[local] Arguments Ascii.eqb : simpl never.

Lemma passes_nil (xs : list ascii) : passes xs [] = [].
Proof. induction xs as [|x xs IH]; [done|]. exact IH. Qed.

Lemma passes_last (xs : list ascii) : passes xs ["\"%char] = ["\"%char].
Proof.
  induction xs as [|x xs IH]; [done|].
  unfold passes. cbn [fold_left]. rewrite replace_last. exact IH.
Qed.

Lemma passes_keep (xs : list ascii) (c : ascii) (s : str) :
  c <> "\"%char -> passes xs (c :: s) = c :: passes xs s.
Proof.
  intros Hc. revert s. induction xs as [|x xs IH]; intros s; [done|].
  unfold passes. cbn [fold_left]. rewrite replace_keep by done. apply IH.
Qed.

Lemma passes_hit (xs : list ascii) (d : ascii) (s : str) :
  Forall (fun x => x <> "\"%char) xs -> d ∈ xs ->
  passes xs ("\"%char :: d :: s) = d :: passes xs s.
Proof.
  intros Hxs Hd.
  assert (Hbs : d <> "\"%char) by (rewrite Forall_forall in Hxs; by apply Hxs).
  clear Hxs. revert s. induction xs as [|x xs IH]; intros s.
  - inversion Hd.
  - unfold passes. cbn [fold_left]. destruct (decide (d = x)) as [->|Hne].
    + rewrite replace_hit. by apply passes_keep.
    + rewrite replace_miss, replace_keep by done.
      apply elem_of_cons in Hd as [Hd|Hd]; [done|]. by apply IH.
Qed.

Lemma passes_miss (xs : list ascii) (d : ascii) (s : str) :
  d <> "\"%char -> d ∉ xs ->
  passes xs ("\"%char :: d :: s) = "\"%char :: d :: passes xs s.
Proof.
  intros Hbs Hd. revert s. induction xs as [|x xs IH]; intros s; [done|].
  apply not_elem_of_cons in Hd as [Hne Hd].
  unfold passes. cbn [fold_left]. rewrite replace_miss, replace_keep by done.
  by apply IH.
Qed.

(** Without an escaped backslash in the content, the passes after the
    first are one pass from left to right. *)
Lemma passes_single_pass (special : ascii -> bool) (xs : list ascii) (s : str) :
  Forall (fun x => x <> "\"%char) xs ->
  (forall d, d <> "\"%char -> special d = bool_decide (d ∈ xs)) ->
  Contains s (lit "\\") = false ->
  passes xs s = decodeSinglePass special s.
Proof.
  intros Hxs Hsp.
  assert (H : forall n s, length s <= n -> Contains s (lit "\\") = false ->
                          passes xs s = decodeSinglePass special s);
    [|by apply (H (length s))].
  clear s. induction n as [|n IH]; intros s Hlen Hno.
  { destruct s; [apply passes_nil | cbn in Hlen; lia]. }
  destruct s as [|c s]; [apply passes_nil|].
  cbn [Contains] in Hno. apply orb_false_iff in Hno as [Hhead Hno].
  cbn [decodeSinglePass].
  destruct (Ascii.eqb_spec c "\") as [->|Hc].
  - destruct s as [|d s]; [apply passes_last|].
    assert (Hd : d <> "\"%char).
    { intros ->. cbn in Hhead. rewrite !Ascii.eqb_refl in Hhead. by destruct s. }
    cbn [Contains] in Hno. apply orb_false_iff in Hno as [Hhead' Hno'].
    rewrite (Hsp d Hd). case_bool_decide as Hin.
    + rewrite passes_hit by done. f_equal. apply IH; [cbn [length] in *; lia | done].
    + rewrite passes_miss by done. f_equal.
      rewrite <- passes_keep by done.
      apply IH; [cbn [length] in *; lia|]. cbn [Contains]. by rewrite Hhead', Hno'.
  - rewrite passes_keep by done. f_equal. apply IH; [cbn [length] in *; lia | done].
Qed.

Lemma no_backslash_absent (x : ascii) (s : str) :
  "\"%char ∉ s -> Contains s ["\"%char; x] = false.
Proof.
  induction s as [|c s IH]; [done|].
  intros [Hc Hs]%not_elem_of_cons. cbn [Contains HasPrefix].
  rewrite IH by done. by destruct (Ascii.eqb_spec "\" c).
Qed.

Lemma unescapeInlineContent_passes (content editType : str) :
  unescapeInlineContent content editType =
  passes ("{"%char :: "}"%char ::
          match closingOperator editType with Some cl => [cl] | None => [] end)
    (ReplaceAll content (lit "\\") (lit "\")).
Proof.
  unfold unescapeInlineContent, closingOperator, passes.
  by repeat case_match.
Qed.

Lemma closingOperator_not_backslash (editType : str) cl :
  closingOperator editType = Some cl -> cl <> "\"%char.
Proof.
  unfold closingOperator. repeat case_match; intros [= <-]; discriminate.
Qed.

(** X9. On a content without an escaped backslash, [unescapeInlineContent] is
    the decoding of the specification: one pass from left to right that
    resolves the escaped braces and the escaped closing operator of the
    edit type, and leaves every other byte as it is. *)
Theorem inline_decoding_single_pass (content editType : str) :
  Contains content (lit "\\") = false ->
  unescapeInlineContent content editType =
  decodeSinglePass (inlineSpecial editType) content.
Proof.
  intros Hno. rewrite unescapeInlineContent_passes, ReplaceAll_absent by done.
  unfold inlineSpecial.
  destruct (closingOperator editType) as [cl|] eqn:Hcl.
  - apply closingOperator_not_backslash in Hcl.
    apply passes_single_pass; [repeat constructor; done| |done].
    intros d Hd.
    replace (Ascii.eqb d "\") with false by (symmetry; by apply Ascii.eqb_neq).
    cbn [orb]. case_bool_decide as Hin;
      rewrite !elem_of_cons, elem_of_nil in Hin;
      destruct (Ascii.eqb_spec d "{"), (Ascii.eqb_spec d "}"), (Ascii.eqb_spec d cl);
      try done; tauto.
  - apply passes_single_pass; [repeat constructor; done| |done].
    intros d Hd.
    replace (Ascii.eqb d "\") with false by (symmetry; by apply Ascii.eqb_neq).
    cbn [orb]. case_bool_decide as Hin;
      rewrite !elem_of_cons, elem_of_nil in Hin;
      destruct (Ascii.eqb_spec d "{"), (Ascii.eqb_spec d "}");
      try done; tauto.
Qed.

Lemma inline_decoding_single_pass_witness :
  unescapeInlineContent (lit "a \{b\} \+ \- c\") EditTypeAddition =
  decodeSinglePass (inlineSpecial EditTypeAddition) (lit "a \{b\} \+ \- c\").
Proof.
  apply (inline_decoding_single_pass (lit "a \{b\} \+ \- c\") EditTypeAddition).
  vm_compute. reflexivity.
Defined.

(** X10. A content without backslash is its own decoding, for every edit type
    and for block content. *)
Theorem decoding_without_backslash (content : str) :
  "\"%char ∉ content ->
  (forall editType, unescapeInlineContent content editType = content) /\
  unescapeStructuralBlockContent content = content.
Proof.
  intros Hno. split.
  - intros editType. unfold unescapeInlineContent.
    rewrite !(ReplaceAll_absent content) by (by apply no_backslash_absent).
    repeat case_match; try done; by apply ReplaceAll_absent, no_backslash_absent.
  - unfold unescapeStructuralBlockContent.
    rewrite (ReplaceAll_absent content) by (by apply no_backslash_absent).
    by apply ReplaceAll_absent, no_backslash_absent.
Qed.

Lemma decoding_without_backslash_witness :
  (forall editType, unescapeInlineContent (lit "a {b} ~ +") editType = lit "a {b} ~ +") /\
  unescapeStructuralBlockContent (lit "a {b} ~ +") = lit "a {b} ~ +".
Proof.
  apply (decoding_without_backslash (lit "a {b} ~ +")).
  intros Hin. apply list_elem_of_In in Hin. vm_compute in Hin.
  intuition discriminate.
Defined.

(** X11. Decoding never lengthens a content. *)
Theorem decoding_never_lengthens (content editType : str) :
  length (unescapeInlineContent content editType) <= length content /\
  length (unescapeStructuralBlockContent content) <= length content.
Proof.
  split; [|apply unescapeStructuralBlockContent_length].
  unfold unescapeInlineContent.
  assert (H3 : length (ReplaceAll (ReplaceAll (ReplaceAll content (lit "\\") (lit "\"))
                         (lit "\{") (lit "{")) (lit "\}") (lit "}")) <= length content).
  { etransitivity; [apply ReplaceAll_length; cbn; lia|].
    etransitivity; [apply ReplaceAll_length; cbn; lia|].
    apply ReplaceAll_length; cbn; lia. }
  repeat case_match; try done;
    (etransitivity; [apply ReplaceAll_length; cbn; lia | exact H3]).
Qed.

End decoding.

Section rendering.

Lemma TransformToCleanView_body (nodes : list Node) r :
  transformBody selfCall nodes = Some r -> TransformToCleanView nodes = r.
Proof.
  intros H. pose proof (TransformToCleanView_unfold nodes) as Hu.
  fold selfCall in Hu. congruence.
Qed.

Lemma prescan_app (rec : recursion) (sc : scan) (a b : list Node) :
  prescan rec sc (a ++ b) =
  match prescan rec sc a with
  | Continue sc' => prescan rec sc' b
  | r => r
  end.
Proof.
  revert sc. induction a as [|n a IH]; intros sc; cbn [prescan app]; [done|].
  destruct (prescanStep rec sc n); [apply IH | done | done].
Qed.

(** *** Nodes the Clean View leaves out *)

Lemma prescanStep_plain (rec : recursion) (sc : scan) (n : Node) :
  isPlain n = true -> prescanStep rec sc n = Continue sc.
Proof. by destruct n. Qed.

Lemma isOmitted_plain (n : Node) : isOmitted n = true -> isPlain n = true.
Proof. by destruct n. Qed.

Lemma renderNode_omitted (sc : scan) (n : Node) :
  isOmitted n = true -> renderNode sc n = [].
Proof.
  destruct n as [|editType content editorID| |]; try discriminate.
  cbn. intros [H1 H2]%andb_true_iff.
  apply negb_true_iff in H1, H2. rewrite H1, H2. by repeat case_match.
Qed.

Lemma prescan_kept (rec : recursion) (nodes : list Node) (sc : scan) :
  prescan rec sc (filter (fun n => isOmitted n = false) nodes) = prescan rec sc nodes.
Proof.
  revert sc. induction nodes as [|n nodes IH]; intros sc; [done|].
  destruct (isOmitted n) eqn:Hn.
  - rewrite filter_cons_False by (by rewrite Hn). cbn [prescan].
    rewrite prescanStep_plain by (by apply isOmitted_plain). apply IH.
  - rewrite filter_cons_True by done. cbn [prescan].
    destruct (prescanStep rec sc n); [apply IH | done | done].
Qed.

Lemma render_kept (sc : scan) (nodes : list Node) :
  render sc (filter (fun n => isOmitted n = false) nodes) = render sc nodes.
Proof.
  rewrite !render_concat. induction nodes as [|n nodes IH]; [done|].
  destruct (isOmitted n) eqn:Hn.
  - rewrite filter_cons_False by (by rewrite Hn). cbn.
    by rewrite renderNode_omitted.
  - rewrite filter_cons_True by done. cbn. by rewrite IH.
Qed.

(** X12. Deletions, comments and inline nodes of an unknown edit type have no
    part in the Clean View: without them the result, text and issues, is
    the same. *)
Theorem omitted_nodes_are_inert (nodes : list Node) :
  TransformCleanView (filter (fun n => isOmitted n = false) nodes) =
  TransformCleanView nodes.
Proof.
  rewrite !TransformCleanView_eq.
  replace (TransformToCleanView (filter (fun n => isOmitted n = false) nodes))
    with (TransformToCleanView nodes); [done|].
  symmetry. apply TransformToCleanView_body.
  rewrite <- (TransformToCleanView_unfold nodes). fold selfCall.
  unfold transformBody. rewrite prescan_kept.
  destruct (prescan selfCall emptyScan nodes); [|done|done].
  by rewrite render_kept.
Qed.

(** *** Documents without structural markup *)

Lemma prescan_plain (rec : recursion) (nodes : list Node) (sc : scan) :
  Forall (fun n => isPlain n = true) nodes -> prescan rec sc nodes = Continue sc.
Proof.
  induction 1 as [|n nodes Hn _ IH]; cbn [prescan]; [done|].
  by rewrite prescanStep_plain.
Qed.

Lemma renderNode_plain (sc sc' : scan) (n : Node) :
  isPlain n = true -> renderNode sc n = renderNode sc' n.
Proof. by destruct n. Qed.

Lemma TransformToCleanView_plain (nodes : list Node) :
  Forall (fun n => isPlain n = true) nodes ->
  TransformToCleanView nodes = (concat (renderNode emptyScan <$> nodes), None).
Proof.
  intros Hp. apply TransformToCleanView_body. unfold transformBody.
  rewrite prescan_plain by done. rewrite render_concat.
  replace (renderNode (markMoves emptyScan) <$> nodes)
    with (renderNode emptyScan <$> nodes); [done|].
  apply list_fmap_ext. intros i n Hn. apply renderNode_plain.
  rewrite Forall_forall in Hp. apply Hp. by eapply list_elem_of_lookup_2.
Qed.

(** X13. The Clean View of documents without structural nodes composes: the
    text of a concatenation is the concatenation of the texts, and there
    is no issue. *)
Theorem plain_documents_compose (a b : list Node) :
  Forall (fun n => isPlain n = true) a -> Forall (fun n => isPlain n = true) b ->
  TransformCleanView (a ++ b) =
  ((TransformCleanView a).1 ++ (TransformCleanView b).1, []).
Proof.
  intros Ha Hb. rewrite !TransformCleanView_eq.
  rewrite !TransformToCleanView_plain by (try apply Forall_app; done).
  cbn [fst snd]. by rewrite fmap_app, concat_app.
Qed.

Lemma plain_documents_compose_witness :
  TransformCleanView
    ([TextNode (lit "Hello "); InlineEditNode EditTypeDeletion (lit "old") []] ++
     [InlineEditNode EditTypeAddition (lit "World") (lit "ws")]) =
  ((TransformCleanView
      [TextNode (lit "Hello "); InlineEditNode EditTypeDeletion (lit "old") []]).1 ++
   (TransformCleanView [InlineEditNode EditTypeAddition (lit "World") (lit "ws")]).1,
   []).
Proof.
  apply (plain_documents_compose
           [TextNode (lit "Hello "); InlineEditNode EditTypeDeletion (lit "old") []]
           [InlineEditNode EditTypeAddition (lit "World") (lit "ws")]);
    repeat constructor.
Defined.

(** X14. A text without opening brace passes through parse and Clean View
    unchanged, without issue. *)
Theorem plain_text_passes_through (input : str) :
  "{"%char ∉ input ->
  TransformCleanView (ParseEditMLToNodes input).1 = (input, []).
Proof.
  intros Hno. rewrite ParseEditMLToNodes_plain by done. cbn [fst].
  rewrite TransformCleanView_eq, TransformToCleanView_plain.
  - destruct input; cbn; [done|]. by rewrite app_nil_r.
  - destruct input; repeat constructor.
Qed.

Lemma plain_text_passes_through_witness :
  TransformCleanView (ParseEditMLToNodes (lit "2 + 2 = 4 } ~")).1 =
  (lit "2 + 2 = 4 } ~", []).
Proof.
  apply (plain_text_passes_through (lit "2 + 2 = 4 } ~")).
  intros Hin. apply list_elem_of_In in Hin. vm_compute in Hin.
  intuition discriminate.
Defined.

(** X15. A well-formed inline span on its own renders as its decoded content
    when it is an addition or a highlight and as nothing when it is a
    deletion or a comment; the editor id never shows. *)
Theorem inline_span_clean_view (op cl : ascii) (editType content editorID : str) :
  (op, cl, editType) ∈ inlineKinds ->
  Forall (fun c => c <> cl) content ->
  alphanumeric editorID -> length editorID <= 5 ->
  TransformCleanView (ParseEditMLToNodes (inlineSpan op cl content editorID)).1 =
  (if bool_decide (editType = EditTypeAddition \/ editType = EditTypeHighlight)
   then unescapeInlineContent content editType else [], []).
Proof.
  intros Hk Hc Hal Hlen. rewrite (inlineSpan_parse op cl editType) by done. cbn [fst].
  rewrite TransformCleanView_eq, TransformToCleanView_plain by (repeat constructor).
  cbn [fst snd fmap list_fmap concat renderNode]. rewrite app_nil_r.
  unfold inlineKinds in Hk.
  repeat (apply elem_of_cons in Hk as [[= -> -> ->]|Hk]; [done|]).
  by apply elem_of_nil in Hk.
Qed.

Lemma inline_span_clean_view_witness :
  TransformCleanView
    (ParseEditMLToNodes (inlineSpan "-" "-" (lit "not seen") (lit "jd"))).1 = ([], []).
Proof.
  apply (inline_span_clean_view "-" "-" EditTypeDeletion (lit "not seen") (lit "jd")).
  - right. left.
  - apply Forall_forall. intros c Hc. apply list_elem_of_In in Hc.
    vm_compute in Hc. intuition (subst; discriminate).
  - vm_compute. reflexivity.
  - vm_compute. lia.
Defined.

End rendering.

Section structural_rendering.

Lemma prescan_prefix (pre : list Node) :
  ~ (hasDuplicateSource pre \/ hasMultipleMoveTargets pre) ->
  exists sc, prescan selfCall emptyScan pre = Continue sc /\ scanned sc pre.
Proof.
  intros Hnone.
  destruct (TransformToCleanView_cases pre)
    as [(err & _ & H)|(sc & Hp & Hsc & _)]; [done|]. eauto.
Qed.

Lemma TransformCleanView_conflict (pre rest : list Node) (n : Node) sc err :
  prescan selfCall emptyScan pre = Continue sc ->
  prescanStep selfCall sc n = Return [] err ->
  TransformCleanView (pre ++ n :: rest) =
  ([], [{| Message := err; Line := 0; Column := 0; Severity := SeverityError |}]).
Proof.
  intros Hpre Hstep. rewrite TransformCleanView_eq.
  rewrite (TransformToCleanView_body (pre ++ n :: rest) ([], Some err)); [done|].
  unfold transformBody. rewrite prescan_app, Hpre. cbn [prescan].
  by rewrite Hstep.
Qed.

(** X16. A source whose tag an earlier source has, in a document without
    conflict up to there, makes [TransformCleanView] return the empty
    text and the one issue of a duplicate source tag, for that tag: the
    first conflict in document order is the one reported, whatever
    follows. *)
Theorem duplicate_source_reported (pre rest : list Node)
    (o b operation tag blockContent : str) :
  ~ (hasDuplicateSource pre \/ hasMultipleMoveTargets pre) ->
  StructuralSourceNode o tag b ∈ pre ->
  TransformCleanView (pre ++ StructuralSourceNode operation tag blockContent :: rest) =
  ([], [{| Message := DuplicateSourceTag tag; Line := 0; Column := 0;
           Severity := SeverityError |}]).
Proof.
  intros Hnone Hin. destruct (prescan_prefix pre Hnone) as (sc & Hpre & Hsc).
  apply (TransformCleanView_conflict pre rest _ sc); [done|].
  cbn [prescanStep]. by rewrite (source_scanned sc pre o tag b Hsc Hin).
Qed.

Lemma duplicate_source_reported_witness :
  TransformCleanView
    ([TextNode (lit "a"); StructuralSourceNode OperationCopy (lit "t") (lit "x")] ++
     StructuralSourceNode OperationMove (lit "t") (lit "y") ::
     [StructuralTargetNode OperationMove (lit "u");
      StructuralTargetNode OperationMove (lit "u")]) =
  ([], [{| Message := DuplicateSourceTag (lit "t"); Line := 0; Column := 0;
           Severity := SeverityError |}]).
Proof.
  apply (duplicate_source_reported
           [TextNode (lit "a"); StructuralSourceNode OperationCopy (lit "t") (lit "x")]
           [StructuralTargetNode OperationMove (lit "u");
            StructuralTargetNode OperationMove (lit "u")]
           OperationCopy (lit "x") OperationMove (lit "t") (lit "y")).
  - intros [H|H].
    + revert H. apply noDup_sources, (bool_decide_unpack _). vm_compute. exact I.
    + revert H. apply noDup_moves, (bool_decide_unpack _). vm_compute. exact I.
  - right. left.
Defined.

(** X17. A move target whose tag an earlier move target has, in a document
    without conflict up to there, makes [TransformCleanView] return the
    empty text and the one issue of multiple move targets, for that
    tag. *)
Theorem second_move_target_reported (pre rest : list Node) (tag : str) :
  ~ (hasDuplicateSource pre \/ hasMultipleMoveTargets pre) ->
  StructuralTargetNode OperationMove tag ∈ pre ->
  TransformCleanView (pre ++ StructuralTargetNode OperationMove tag :: rest) =
  ([], [{| Message := MultipleMoveTargets tag; Line := 0; Column := 0;
           Severity := SeverityError |}]).
Proof.
  intros Hnone Hin. destruct (prescan_prefix pre Hnone) as (sc & Hpre & Hsc).
  apply (TransformCleanView_conflict pre rest _ sc); [done|].
  cbn [prescanStep]. rewrite (proj2 (str_eqb_eq _ _) eq_refl).
  rewrite (scanned_counts _ _ Hsc), decide_True by (by apply moveTargetTag_elem).
  done.
Qed.

Lemma second_move_target_reported_witness :
  TransformCleanView
    ([StructuralTargetNode OperationMove (lit "u"); TextNode (lit "a")] ++
     StructuralTargetNode OperationMove (lit "u") ::
     [StructuralSourceNode OperationMove (lit "u") (lit "x")]) =
  ([], [{| Message := MultipleMoveTargets (lit "u"); Line := 0; Column := 0;
           Severity := SeverityError |}]).
Proof.
  apply (second_move_target_reported
           [StructuralTargetNode OperationMove (lit "u"); TextNode (lit "a")]
           [StructuralSourceNode OperationMove (lit "u") (lit "x")] (lit "u")).
  - intros [H|H].
    + revert H. apply noDup_sources, (bool_decide_unpack _). vm_compute. exact I.
    + revert H. apply noDup_moves, (bool_decide_unpack _). vm_compute. exact I.
  - left.
Defined.

Lemma no_target_scanned (sc : scan) (nodes : list Node) operation tag :
  scanned sc nodes ->
  StructuralTargetNode operation tag ∉ nodes ->
  existsb (fun t => str_eqb (tdOperation t) operation) (targetsOf sc tag) = false.
Proof.
  intros Hsc Hno. apply not_true_is_false. intros Hex.
  apply existsb_exists in Hex as (t & Ht & Hop).
  apply list_elem_of_In in Ht. rewrite (scanned_allTargets _ _ Hsc) in Ht.
  apply list_elem_of_omap in Ht as (n & Hn & Hf).
  destruct n as [| | |operation' tag']; try discriminate.
  cbn in Hf. case_decide as Htag; [|discriminate]. injection Hf as <-.
  cbn in Hop. apply str_eqb_eq in Hop. subst. done.
Qed.

(** X18. In a document without conflict, a move or copy source that has no
    target of its operation and tag stays in the text: it is rendered as
    its literal form, or as its block when that holds an error marker. *)
Theorem unresolved_source_literal (nodes : list Node) (out operation tag blockContent : str) :
  TransformToCleanView nodes = (out, None) ->
  operation ∈ operations ->
  StructuralSourceNode operation tag blockContent ∈ nodes ->
  StructuralTargetNode operation tag ∉ nodes ->
  out = concat (renderNode (scanOf nodes) <$> nodes) /\
  renderNode (scanOf nodes) (StructuralSourceNode operation tag blockContent) =
  if hasError (renderedBlock operation tag blockContent)
  then renderedBlock operation tag blockContent
  else sourceLiteral operation blockContent tag.
Proof.
  intros Hr Hop Hsrc Hno.
  apply TransformToCleanView_ok in Hr as (-> & sc & Hsc & Hof).
  split; [done|].
  pose proof (no_target_scanned sc nodes operation tag Hsc Hno) as Hex.
  cbn [renderNode]. rewrite Hof at 1. rewrite markMoves_lookup.
  rewrite (source_scanned sc nodes _ tag blockContent Hsc Hsrc).
  cbn [fmap option_fmap option_map].
  unfold operations in Hop.
  apply elem_of_cons in Hop as [->|Hop];
    [|apply list_elem_of_singleton in Hop as ->].
  - rewrite (proj2 (str_eqb_eq _ _) eq_refl).
    replace (isUsedAsMove (markUsed sc tag (detailOf OperationMove tag blockContent)))
      with false.
    + destruct (markUsed_fields sc tag (detailOf OperationMove tag blockContent))
        as [_ ->]. done.
    + unfold markUsed. cbn [detailOf sdOperation].
      rewrite (proj2 (str_eqb_eq _ _) eq_refl).
      unfold targetsOf in Hex.
      destruct (allTargets sc !! tag) as [targets|]; [|done].
      cbn [default from_option id] in Hex. rewrite Hex.
      by destruct (0 <? length targets).
  - rewrite copy_is_not_move, (proj2 (str_eqb_eq _ _) eq_refl).
    destruct (markUsed_fields sc tag (detailOf OperationCopy tag blockContent))
      as [_ ->]. cbn [detailOf transformedBlock].
    rewrite Hof. cbn [markMoves allTargets].
    unfold targetsOf in Hex.
    destruct (allTargets sc !! tag) as [targets|]; cbn [default from_option id] in Hex.
    + rewrite Hex. cbn [negb orb]. done.
    + done.
Qed.

Lemma unresolved_source_literal_witness :
  let nodes := [TextNode (lit "a "); StructuralSourceNode OperationMove (lit "t") (lit "x");
                StructuralTargetNode OperationCopy (lit "t")] in
  lit "a {move~x~t}{copy:t (ERROR_OPERATION_MISMATCH_WITH_SOURCE move)}" =
    concat (renderNode (scanOf nodes) <$> nodes) /\
  renderNode (scanOf nodes) (StructuralSourceNode OperationMove (lit "t") (lit "x")) =
  lit "{move~x~t}".
Proof.
  intros nodes.
  destruct (unresolved_source_literal nodes
              (lit "a {move~x~t}{copy:t (ERROR_OPERATION_MISMATCH_WITH_SOURCE move)}")
              OperationMove (lit "t") (lit "x")) as [Hout Hsrc].
  - vm_compute. reflexivity.
  - left.
  - right. left.
  - intros Hin. apply list_elem_of_In in Hin. vm_compute in Hin.
    intuition discriminate.
  - split; [exact Hout|]. rewrite Hsrc. vm_compute. reflexivity.
Defined.

End structural_rendering.

Section scanner_facts.

Lemma IndexByte_absent (data : str) c : c ∉ data -> IndexByte data c = None.
Proof.
  induction data as [|d data IH]; [done|].
  intros [Hd Hn]%not_elem_of_cons. cbn [IndexByte].
  destruct (Ascii.eqb_spec d c); [by subst|]. by rewrite IH.
Qed.

Lemma IndexByte_first (l rest : str) c :
  c ∉ l -> IndexByte (l ++ c :: rest) c = Some (length l).
Proof.
  induction l as [|d l IH]; cbn [app IndexByte length].
  - by rewrite Ascii.eqb_refl.
  - intros [Hd Hn]%not_elem_of_cons.
    destruct (Ascii.eqb_spec d c); [by subst|]. by rewrite IH.
Qed.

Lemma IndexByte_bound (data : str) c i : IndexByte data c = Some i -> i < length data.
Proof.
  revert i. induction data as [|d data IH]; intros i; cbn [IndexByte length]; [done|].
  destruct (Ascii.eqb d c); [intros [= <-]; lia|].
  destruct (IndexByte data c) as [j|]; [|done].
  intros [= <-]. specialize (IH j eq_refl). lia.
Qed.

Lemma dropCR_length (data : str) : length (dropCR data) <= length data.
Proof.
  unfold dropCR. destruct (last data) as [c|]; [|done].
  destruct (Ascii.eqb c CR); [|done]. rewrite length_take. lia.
Qed.

Lemma dropCR_keep (data : str) : last data <> Some CR -> dropCR data = data.
Proof.
  unfold dropCR. destruct (last data) as [c|]; [|done].
  destruct (Ascii.eqb_spec c CR); [by subst|done].
Qed.

Lemma dropCR_snoc (l : str) : dropCR (l ++ [CR]) = l.
Proof.
  unfold dropCR. rewrite last_snoc, Ascii.eqb_refl, length_app. cbn [length].
  replace (length l + 1 - 1) with (length l) by lia.
  by rewrite take_app_length.
Qed.

Lemma Scan_nil : Scan [] = None.
Proof.
  unfold Scan, ScanLines. rewrite take_nil. cbn [length IndexByte].
  by destruct (0 <? MaxScanTokenSize).
Qed.

(** A line that fits the buffer, with its line feed. *)
Lemma Scan_line (l rest : str) :
  LF ∉ l -> length l < MaxScanTokenSize ->
  Scan (l ++ LF :: rest) = Some (dropCR l, length l + 1).
Proof.
  intros Hno Hlen. unfold Scan, ScanLines.
  rewrite take_app_ge by lia.
  destruct (MaxScanTokenSize - length l) as [|m] eqn:Hm; [lia|].
  cbn [take]. rewrite IndexByte_first by done.
  rewrite take_app_length.
  replace (length (l ++ LF :: take m rest) =? 0) with false;
    [by rewrite andb_false_r|].
  symmetry. apply Nat.eqb_neq. rewrite length_app. cbn [length]. lia.
Qed.

(** A last line that fits the buffer, without line feed. *)
Lemma Scan_last (l : str) :
  LF ∉ l -> l <> [] -> length l < MaxScanTokenSize ->
  Scan l = Some (dropCR l, length l).
Proof.
  intros Hno Hne Hlen. unfold Scan, ScanLines.
  rewrite take_ge by lia. rewrite IndexByte_absent by done.
  apply Nat.ltb_lt in Hlen. rewrite Hlen. cbn [andb].
  destruct l; [done|]. done.
Qed.

(** A line that does not fit the buffer. *)
Lemma Scan_long (l rest : str) :
  LF ∉ l -> MaxScanTokenSize <= length l -> Scan (l ++ rest) = None.
Proof.
  intros Hno Hlen. unfold Scan, ScanLines.
  rewrite take_app_le by lia.
  rewrite IndexByte_absent.
  - replace (length (l ++ rest) <? MaxScanTokenSize) with false; [done|].
    symmetry. apply Nat.ltb_ge. rewrite length_app. lia.
  - intros Hin. apply Hno. eapply subseteq_take, Hin.
Qed.

(** What a call consumes: the token and its line feed, or the token as
    the rest of the input. *)
Lemma Scan_spec (rest token : str) advance :
  Scan rest = Some (token, advance) ->
  0 < advance /\ advance <= length rest /\
  (length token < advance \/ (drop advance rest = [] /\ length token <= advance)).
Proof.
  unfold Scan, ScanLines.
  destruct (Nat.ltb_spec (length rest) MaxScanTokenSize) as [Hlt|Hge]; cbn [andb].
  - rewrite take_ge by lia.
    destruct (Nat.eqb_spec (length rest) 0) as [|Hne]; [done|].
    destruct (IndexByte rest LF) as [i|] eqn:Hi; intros [= <- <-].
    + apply IndexByte_bound in Hi.
      pose proof (dropCR_length (take i rest)) as Hd.
      rewrite length_take in Hd. lia.
    + pose proof (dropCR_length rest). rewrite drop_all. split; [lia|].
      split; [lia|]. right. done.
  - destruct (IndexByte (take MaxScanTokenSize rest) LF) as [i|] eqn:Hi;
      intros [= <- <-].
    apply IndexByte_bound in Hi. rewrite length_take in Hi.
    pose proof (dropCR_length (take i (take MaxScanTokenSize rest))) as Hd.
    rewrite length_take in Hd. lia.
Qed.

Lemma scanLoop_nil fuel : scanLoop fuel [] = [].
Proof. destruct fuel; [done|]. cbn [scanLoop]. by rewrite Scan_nil. Qed.

Lemma scanLoop_fuel (fuel fuel' : nat) (rest : str) :
  length rest < fuel -> length rest < fuel' ->
  scanLoop fuel rest = scanLoop fuel' rest.
Proof.
  revert fuel' rest. induction fuel as [|fuel IH]; intros [|fuel'] rest Hf Hf';
    try lia.
  cbn [scanLoop]. destruct (Scan rest) as [[token advance]|] eqn:Hs; [|done].
  apply Scan_spec in Hs as (Hpos & Hle & _).
  f_equal. apply IH; rewrite length_drop; lia.
Qed.

Lemma scanLoop_S (fuel : nat) (rest : str) :
  scanLoop (S fuel) rest =
  match Scan rest with
  | Some (token, advance) => token :: scanLoop fuel (drop advance rest)
  | None => []
  end.
Proof. done. Qed.

Lemma Lines_nil : Lines [] = [].
Proof. apply scanLoop_nil. Qed.

Lemma Lines_line (l rest : str) :
  LF ∉ l -> length l < MaxScanTokenSize ->
  Lines (l ++ LF :: rest) = dropCR l :: Lines rest.
Proof.
  intros Hno Hlen. unfold Lines.
  rewrite (scanLoop_S (length (l ++ LF :: rest))), Scan_line by done.
  f_equal. replace (length l + 1) with (length (l ++ [LF]))
    by (rewrite length_app; cbn; lia).
  rewrite (cons_middle LF l rest), app_assoc, drop_app_length.
  apply scanLoop_fuel; rewrite ?length_app; cbn [length]; lia.
Qed.

Lemma Lines_last (l : str) :
  LF ∉ l -> l <> [] -> length l < MaxScanTokenSize -> Lines l = [dropCR l].
Proof.
  intros Hno Hne Hlen. unfold Lines. rewrite scanLoop_S, Scan_last by done.
  by rewrite drop_all, scanLoop_nil.
Qed.

Lemma Lines_long (l rest : str) :
  LF ∉ l -> MaxScanTokenSize <= length l -> Lines (l ++ rest) = [].
Proof.
  intros Hno Hlen. unfold Lines. by rewrite scanLoop_S, Scan_long.
Qed.

(** The text up to its first line feed. *)
Lemma first_line (s : str) :
  LF ∉ s \/ exists l rest, s = l ++ LF :: rest /\ LF ∉ l.
Proof.
  destruct (decide (LF ∈ s)) as [Hin|Hno]; [right|by left].
  apply list_elem_of_split_l in Hin as (l & rest & -> & Hno). eauto.
Qed.

(** The scan goes line by line: what follows a line feed is scanned on
    its own. *)
Lemma Lines_after (pre x y : str) :
  Lines x = Lines y -> Lines (pre ++ LF :: x) = Lines (pre ++ LF :: y).
Proof.
  intros Hxy. remember (length pre) as n eqn:Hn. revert pre Hn.
  induction (lt_wf n) as [n _ IH]. intros pre ->.
  destruct (first_line pre) as [Hno|(l & rest & -> & Hno)].
  - destruct (Nat.lt_ge_cases (length pre) MaxScanTokenSize).
    + rewrite (Lines_line pre x), (Lines_line pre y) by done. by rewrite Hxy.
    + by rewrite !Lines_long.
  - rewrite <- !app_assoc. cbn [app].
    destruct (Nat.lt_ge_cases (length l) MaxScanTokenSize).
    + rewrite (Lines_line l (rest ++ LF :: x)), (Lines_line l (rest ++ LF :: y))
        by done.
      f_equal. apply (IH (length rest)); [|done]. rewrite length_app. cbn [length]. lia.
    + by rewrite !Lines_long.
Qed.

Lemma kept_filter (keep : str -> bool) (lines acc : list str) :
  fold_left (fun resultLines line =>
               if keep line then resultLines ++ [line] else resultLines)
            lines acc = acc ++ List.filter keep lines.
Proof.
  revert acc. induction lines as [|l lines IH]; intros acc; cbn [fold_left List.filter].
  - by rewrite app_nil_r.
  - rewrite IH. destruct (keep l); [|done]. by rewrite <- app_assoc.
Qed.

End scanner_facts.

Section comment_facts.

Lemma SkipDebugComments_filter (letterOrDigit : str -> bool) (input : str) :
  SkipDebugComments letterOrDigit input =
  Join (List.filter (fun line => negb (isCommentLine letterOrDigit line)) (Lines input))
       [LF].
Proof. unfold SkipDebugComments. by rewrite kept_filter. Qed.

End comment_facts.

Section skip_comments.

Lemma Lines_Join (lines : list str) :
  Forall scannable lines -> last lines <> Some [] ->
  Lines (Join lines [LF]) = dropCR <$> lines.
Proof.
  induction lines as [|l lines IH]; intros Hok Hlast; [apply Lines_nil|].
  apply Forall_cons in Hok as [[Hno Hlen] Hok].
  destruct lines as [|l' lines].
  - cbn [Join fmap list_fmap]. apply Lines_last; try done.
    intros ->. by apply Hlast.
  - change (Join (l :: l' :: lines) [LF]) with (l ++ LF :: Join (l' :: lines) [LF]).
    rewrite Lines_line by done. rewrite IH by done. done.
Qed.

(** X19. On a text of lines that fit the buffer, the last of them not empty,
    [SkipDebugComments] strips one carriage return from the end of each
    line, leaves out the comment lines and joins the others with line
    feeds. *)
Theorem comment_lines_removed (letterOrDigit : str -> bool) (lines : list str) :
  Forall scannable lines -> last lines <> Some [] ->
  SkipDebugComments letterOrDigit (Join lines [LF]) =
  Join (List.filter (fun line => negb (isCommentLine letterOrDigit line))
          (dropCR <$> lines)) [LF].
Proof.
  intros Hok Hlast. by rewrite SkipDebugComments_filter, Lines_Join.
Qed.

Lemma Join_length (x : str) (lines : list str) (sep : str) :
  length x <= length (Join (x :: lines) sep) /\
  length (Join lines sep) <= length (Join (x :: lines) sep) /\
  length (Join (x :: lines) sep) <= length x + length sep + length (Join lines sep).
Proof.
  destruct lines as [|y lines].
  - cbn [Join length]. lia.
  - change (Join (x :: y :: lines) sep) with (x ++ sep ++ Join (y :: lines) sep).
    rewrite !length_app. lia.
Qed.

Lemma Join_filter_length (keep : str -> bool) (lines : list str) (sep : str) :
  length (Join (List.filter keep lines) sep) <= length (Join lines sep).
Proof.
  induction lines as [|x lines IH]; [done|]. cbn [List.filter].
  pose proof (Join_length x lines sep) as (H1 & H2 & H3).
  destruct (keep x); [|lia].
  destruct lines as [|y lines]; [done|].
  destruct (List.filter keep (y :: lines)) as [|z kept] eqn:Hf.
  - change (Join [x] sep) with x. lia.
  - change (Join (x :: z :: kept) sep) with (x ++ sep ++ Join (z :: kept) sep).
    change (Join (x :: y :: lines) sep) with (x ++ sep ++ Join (y :: lines) sep).
    rewrite !length_app. lia.
Qed.

Lemma scanLoop_length (fuel : nat) (rest : str) :
  length (Join (scanLoop fuel rest) [LF]) <= length rest.
Proof.
  revert rest. induction fuel as [|fuel IH]; intros rest; [cbn; lia|].
  rewrite scanLoop_S. destruct (Scan rest) as [[token advance]|] eqn:Hs; [|cbn; lia].
  apply Scan_spec in Hs as (Hpos & Hle & Hcase).
  specialize (IH (drop advance rest)). rewrite length_drop in IH.
  destruct (scanLoop fuel (drop advance rest)) as [|t ts] eqn:Ht.
  - cbn [Join]. lia.
  - destruct Hcase as [Hlt|[Hnil _]].
    + change (Join (token :: t :: ts) [LF]) with (token ++ [LF] ++ Join (t :: ts) [LF]).
      rewrite !length_app. cbn [length]. lia.
    + rewrite Hnil, scanLoop_nil in Ht. done.
Qed.

(** X20. The text [SkipDebugComments] returns is never longer than its
    input. *)
Theorem skip_comments_never_lengthens (letterOrDigit : str -> bool) (input : str) :
  length (SkipDebugComments letterOrDigit input) <= length input.
Proof.
  rewrite SkipDebugComments_filter.
  etransitivity; [apply Join_filter_length|]. apply scanLoop_length.
Qed.

(** X21. A line that does not fit the buffer of the scanner ends the scan
    without notice: the line and all that follows it are lost. *)
Theorem long_line_ends_the_scan (letterOrDigit : str -> bool) (pre long rest : str) :
  pre = [] \/ last pre = Some LF ->
  LF ∉ long -> MaxScanTokenSize <= length long ->
  SkipDebugComments letterOrDigit (pre ++ long ++ rest) =
  SkipDebugComments letterOrDigit pre.
Proof.
  intros Hpre Hno Hlen. rewrite !SkipDebugComments_filter.
  replace (Lines (pre ++ long ++ rest)) with (Lines pre); [done|].
  destruct Hpre as [->|Hlast].
  - cbn [app]. rewrite Lines_nil. symmetry. by apply Lines_long.
  - apply last_Some in Hlast as [p ->]. rewrite <- !app_assoc. cbn [app].
    apply Lines_after. rewrite Lines_nil. symmetry. by apply Lines_long.
Qed.

Lemma Lines_final (l : str) :
  LF ∉ l -> l <> [] -> Lines (l ++ [LF]) = Lines l.
Proof.
  intros Hno Hne. destruct (Nat.lt_ge_cases (length l) MaxScanTokenSize).
  - rewrite (Lines_line l []), (Lines_last l), Lines_nil by done. done.
  - rewrite Lines_long by done. symmetry.
    rewrite <- (app_nil_r l). by apply Lines_long.
Qed.

(** X22. A line feed at the very end of the input is dropped: the result is
    that of the input without it. *)
Theorem final_line_feed_dropped (letterOrDigit : str -> bool) (input : str) :
  last input <> Some LF ->
  SkipDebugComments letterOrDigit (input ++ [LF]) =
  SkipDebugComments letterOrDigit input.
Proof.
  intros Hlast. rewrite !SkipDebugComments_filter.
  destruct (decide (input = [])) as [->|Hne].
  { rewrite (Lines_line [] []), Lines_nil; [done|by apply not_elem_of_nil|].
    apply Nat.ltb_lt. vm_compute. reflexivity. }
  replace (Lines (input ++ [LF])) with (Lines input); [done|].
  destruct (decide (LF ∈ input)) as [Hin|Hno].
  - apply list_elem_of_split_r in Hin as (l1 & l2 & -> & Hno).
    rewrite <- app_assoc. cbn [app]. apply Lines_after. symmetry.
    apply Lines_final; [done|]. intros ->. apply Hlast.
    apply last_snoc.
  - symmetry. by apply Lines_final.
Qed.

(** X23. Lines that end in a carriage return and a line feed give the result
    of the same lines ending in a line feed alone. *)
Theorem crlf_read_as_lf (letterOrDigit : str -> bool) (lines : list str) :
  Forall (fun line => scannable (line ++ [CR]) /\ last line <> Some CR) lines ->
  SkipDebugComments letterOrDigit (Join lines [CR; LF]) =
  SkipDebugComments letterOrDigit (Join lines [LF]).
Proof.
  intros Hok. rewrite !SkipDebugComments_filter.
  replace (Lines (Join lines [CR; LF])) with (Lines (Join lines [LF])); [done|].
  induction Hok as [|l lines [[Hno Hlen] Hcr] Hok IH]; [done|].
  destruct lines as [|l' lines]; [done|].
  change (Join (l :: l' :: lines) [LF]) with (l ++ LF :: Join (l' :: lines) [LF]).
  change (Join (l :: l' :: lines) [CR; LF])
    with (l ++ CR :: LF :: Join (l' :: lines) [CR; LF]).
  rewrite (cons_middle CR l), app_assoc.
  assert (LF ∉ l) as Hno' by (intros Hin; apply Hno, elem_of_app; by left).
  assert (length l < MaxScanTokenSize) as Hlen'
    by (rewrite length_app in Hlen; cbn [length] in Hlen; lia).
  rewrite (Lines_line l), (Lines_line (l ++ [CR])) by done.
  by rewrite IH, dropCR_snoc, dropCR_keep.
Qed.

(** X24. On a text of lines that [SkipDebugComments] hands on as they are, the
    last of them not empty, [Parse] is the parser on the text itself, and
    reports no issue. *)
Theorem Parse_without_comments (letterOrDigit : str -> bool) (lines : list str) :
  Forall (keptAsIs letterOrDigit) lines -> last lines <> Some [] ->
  api.Parse letterOrDigit (Join lines [LF]) =
  ((ParseEditMLToNodes (Join lines [LF])).1, []).
Proof.
  intros Hok Hlast. unfold api.Parse.
  replace (SkipDebugComments letterOrDigit (Join lines [LF])) with (Join lines [LF]);
    [done|].
  rewrite SkipDebugComments_filter, Lines_Join;
    [|by eapply Forall_impl; [exact Hok|intros l [H _]]|done].
  f_equal. clear Hlast. induction Hok as [|l lines (_ & Hcr & Hc) _ IH]; [done|].
  cbn [fmap list_fmap List.filter]. rewrite dropCR_keep by done. rewrite Hc.
  cbn [negb]. f_equal. exact IH.
Qed.

End skip_comments.

Section skip_comments_examples.

(** A concrete line is scannable, by computation. *)
Ltac scannable_line :=
  split;
  [ let Hin := fresh in
    intros Hin; apply list_elem_of_In in Hin; vm_compute in Hin;
    intuition discriminate
  | apply Nat.ltb_lt; vm_compute; reflexivity ].

Lemma comment_lines_removed_witness :
  SkipDebugComments asciiOnly
    (Join [lit "title"; lit "%% a note"; lit "%%VERSION 2" ++ [CR]; lit "end"] [LF]) =
  Join [lit "title"; lit "%%VERSION 2"; lit "end"] [LF].
Proof.
  apply (comment_lines_removed asciiOnly
           [lit "title"; lit "%% a note"; lit "%%VERSION 2" ++ [CR]; lit "end"]).
  - repeat (apply List.Forall_cons; [scannable_line|]). apply List.Forall_nil.
  - vm_compute. discriminate.
Defined.

Lemma long_line_ends_the_scan_witness :
  SkipDebugComments asciiOnly
    ((lit "kept" ++ [LF]) ++ replicate MaxScanTokenSize "a"%char ++
     (LF :: lit "lost")) =
  SkipDebugComments asciiOnly (lit "kept" ++ [LF]).
Proof.
  apply (long_line_ends_the_scan asciiOnly (lit "kept" ++ [LF])
           (replicate MaxScanTokenSize "a"%char) (LF :: lit "lost")).
  - right. reflexivity.
  - intros Hin. apply elem_of_replicate in Hin as [Hin _]. discriminate.
  - rewrite length_replicate. apply Nat.le_refl.
Defined.

Lemma final_line_feed_dropped_witness :
  SkipDebugComments asciiOnly (lit "one line" ++ [LF]) =
  SkipDebugComments asciiOnly (lit "one line").
Proof.
  apply (final_line_feed_dropped asciiOnly (lit "one line")).
  vm_compute. discriminate.
Defined.

Lemma crlf_read_as_lf_witness :
  SkipDebugComments asciiOnly (Join [lit "a"; lit "%% b"; lit "c"] [CR; LF]) =
  SkipDebugComments asciiOnly (Join [lit "a"; lit "%% b"; lit "c"] [LF]).
Proof.
  apply (crlf_read_as_lf asciiOnly [lit "a"; lit "%% b"; lit "c"]).
  repeat (apply List.Forall_cons;
          [split; [scannable_line | vm_compute; discriminate]|]).
  apply List.Forall_nil.
Defined.

Lemma Parse_without_comments_witness :
  api.Parse asciiOnly (Join [lit "Hello {+World+}"; lit "%%done"] [LF]) =
  ((ParseEditMLToNodes (Join [lit "Hello {+World+}"; lit "%%done"] [LF])).1, []).
Proof.
  apply (Parse_without_comments asciiOnly [lit "Hello {+World+}"; lit "%%done"]).
  - repeat (apply List.Forall_cons;
            [split; [scannable_line
                    | split; [vm_compute; discriminate | vm_compute; reflexivity]]|]).
    apply List.Forall_nil.
  - vm_compute. discriminate.
Defined.

End skip_comments_examples.

Section more_examples.

Lemma parsed_text_nonempty_witness : lit "Hello " <> [].
Proof.
  apply (parsed_text_nonempty (lit "Hello {+World+}") (lit "Hello ")).
  vm_compute. left.
Defined.

End more_examples.

Section api_tests_with_Parse.
Import api_test testdata.

(** The tests of [api_test.go] that call [Parse], on [Parse] itself. *)
Lemma TestParseSimpleAddition_Parse :
  api.Parse asciiOnly (lit "{+added text+ws}") =
  ([InlineEditNode EditTypeAddition (lit "added text") (lit "ws")], []).
Proof. vm_compute. reflexivity. Qed.

Lemma TestParseTextAndAddition_Parse :
  api.Parse asciiOnly (lit "Hello {+World+}") =
  ([TextNode (lit "Hello "); InlineEditNode EditTypeAddition (lit "World") []], []).
Proof. vm_compute. reflexivity. Qed.

Lemma TestParseAndTransformIntegration_Parse :
  TransformCleanView
    (api.Parse asciiOnly (lit "This is {+an addition+} and this is {-a deletion-}.")).1 =
  (lit "This is an addition and this is .", []).
Proof. vm_compute. reflexivity. Qed.

Lemma multiline_md_without_comments :
  SkipDebugComments asciiOnly multiline_md = multilineInput.
Proof. vm_compute. reflexivity. Qed.

Lemma TestParseAndTransformMultilineFile_Parse :
  (api.Parse asciiOnly multiline_md).2 = [] /\
  TransformCleanView (api.Parse asciiOnly multiline_md).1 =
  (expectedMultilineOutput, []).
Proof. vm_compute. split; reflexivity. Qed.

End api_tests_with_Parse.
